(** * asyncdispatch: the event dispatcher of [dispatch.py]

    A shallow embedding of [dispatch.py]: the parameter validator and binder
    ([validate_func], [partial_bind]), the per-event [EventHandler], the
    [Dispatch] engine and the cooperative loop their coroutines run on,
    followed by the properties of the specification stated over them.

    Python dictionaries are [gmap]s, the [asyncio.Queue] is a list used
    first-in first-out, an [asyncio.Event] is its flag, exceptions are the
    [Raise] branch of [result]. *)

From stdpp Require Import base option gmap sets list strings relations.
From Stdlib Require Import ZArith Lia.

Set Warnings "-register-all".
#[local] Open Scope string_scope.

(* ===================================================================== *)
(** ** Values, exceptions, signatures *)
(* ===================================================================== *)

(** The Python objects that travel through the dispatcher.  [VDict] is the
    dictionary a catch-all keyword parameter receives. *)
Inductive value : Type :=
  | VNone
  | VInt (z : Z)
  | VStr (s : string)
  | VDict (d : gmap string value).

(** The exception classes the module raises ([ValueError], [RuntimeError]),
    the one [inspect.Signature.bind] raises ([TypeError]) and the one
    [set.remove] raises ([KeyError]).

    The specification's error kinds are classes of these: [BindingError],
    [UnknownEventError] and [DuplicateEventError] are the [ValueError]s of
    [validate_func], [Dispatch.on] and [Dispatch.register];
    [InvalidStateError] is the [RuntimeError] of [Dispatch.clear] and
    [EventHandler.__call__]. *)
Inductive exn : Type :=
  | ValueError | RuntimeError | TypeError | KeyError
  | UserError.   (* whatever a callback body raises *)

Inductive result (A : Type) : Type :=
  | Ok (a : A)
  | Raise (e : exn).
Arguments Ok {A} a.
Arguments Raise {A} e.

(** Sequencing: an exception raised by a step is the result of the whole. *)
#[global] Instance result_ret : MRet result := λ A a, Ok a.
#[global] Instance result_bind : MBind result := λ A B k r,
  match r with
  | Ok a => k a
  | Raise e => Raise e
  end.

#[global] Instance exn_eq_dec : EqDecision exn.
Proof. solve_decision. Defined.

(** [inspect.Parameter.kind]. *)
Inductive ParamKind : Type :=
  | POSITIONAL_ONLY
  | POSITIONAL_OR_KEYWORD
  | VAR_POSITIONAL
  | KEYWORD_ONLY
  | VAR_KEYWORD.

#[global] Instance ParamKind_eq_dec : EqDecision ParamKind.
Proof. solve_decision. Defined.

(** An [inspect.Parameter]: [default = None] is [inspect.Parameter.empty]. *)
Record Param : Type := mkParam {
  name : string;
  kind : ParamKind;
  default : option value;
}.

(** [inspect.signature(callback).parameters], in declaration order.  Python
    keys this ordered mapping by name, so the names of a signature are
    pairwise distinct ([sig_wf]). *)
Definition Signature : Type := list Param.

Definition sig_names (sig : Signature) : list string := map name sig.

Definition sig_wf (sig : Signature) : Prop := NoDup (sig_names sig).

(** A user callback: its [__name__], its signature, whether it is a
    coroutine function, and its body.  The dispatcher never looks inside the
    body; the model keeps of it what the loop can observe: how many times the
    running body yields to the loop before it finishes ([cb_yields]) and
    whether it finishes by raising ([cb_raises]). *)
Record Callback : Type := mkCallback {
  cb_name : string;
  cb_sig : Signature;
  cb_coroutine : bool;
  cb_yields : nat;
  cb_raises : bool;
}.

(* ===================================================================== *)
(** ** [validate_func] *)
(* ===================================================================== *)

(** The [for param in sig.parameters.values()] loop of [validate_func];
    [expected] is the set being narrowed.  [expected.remove] raises
    [KeyError] on a name that is not in the set. *)
Fixpoint validate_loop (ps : list Param) (params : list string)
    (expected : gset string) : result (gset string) :=
  match ps with
  | [] => Ok expected
  | param :: rest =>
      match kind param with
      | VAR_POSITIONAL => Raise ValueError
      | VAR_KEYWORD =>
          if bool_decide (name param ∈ params) then Raise ValueError
          else if bool_decide (name param ∈ expected)
               then validate_loop rest params (expected ∖ {[name param]})
               else Raise KeyError
      | _ => validate_loop rest params expected
      end
  end.

Definition validate_func (event : string) (callback : Callback)
    (params : list string) : result unit :=
  let sig := cb_sig callback in
  expected ← validate_loop sig params (list_to_set (sig_names sig));
  let available : gset string := list_to_set params in
  let unavailable := expected ∖ available in
  if bool_decide (unavailable = ∅) then Ok tt else Raise ValueError.

(* ===================================================================== *)
(** ** [inspect.Signature.bind] called with keyword arguments only *)
(* ===================================================================== *)

(** [inspect.BoundArguments.arguments]: parameter name to bound value; the
    catch-all keyword parameter is bound to the dictionary of the keyword
    arguments no other parameter took. *)
Abbreviation Arguments_ := (gmap string value).

(** The pass of [Signature._bind] over the parameters when no positional
    argument is given: each parameter takes the keyword argument of its
    name.  State: the keyword arguments not yet taken, the arguments bound
    so far, and the catch-all parameter met, if any. *)
Fixpoint bind_loop (ps : list Param) (kwargs : gmap string value)
    (arguments : Arguments_) (kwargs_param : option Param)
    : result (gmap string value * Arguments_ * option Param) :=
  match ps with
  | [] => Ok (kwargs, arguments, kwargs_param)
  | param :: rest =>
      match kind param with
      | VAR_KEYWORD => bind_loop rest kwargs arguments (Some param)
      | VAR_POSITIONAL => bind_loop rest kwargs arguments kwargs_param
      | k =>
          match kwargs !! name param with
          | None =>
              match default param with
              | None => Raise TypeError (* missing a required argument *)
              | Some _ => bind_loop rest kwargs arguments kwargs_param
              end
          | Some arg_val =>
              if bool_decide (k = POSITIONAL_ONLY)
              then Raise TypeError (* positional only, passed as keyword *)
              else bind_loop rest (delete (name param) kwargs)
                     (<[name param := arg_val]> arguments) kwargs_param
          end
      end
  end.

Definition sig_bind (sig : Signature) (kwargs : gmap string value)
    : result Arguments_ :=
  '(kwargs, arguments, kwargs_param) ← bind_loop sig kwargs ∅ None;
  if bool_decide (kwargs = ∅) then Ok arguments
  else match kwargs_param with
       | Some p => Ok (<[name p := VDict kwargs]> arguments)
       | None => Raise TypeError (* unexpected keyword argument *)
       end.

(** [BoundArguments.args]: the leading parameters that are passed
    positionally. *)
Fixpoint bound_args (ps : list Param) (arguments : Arguments_)
    : list value :=
  match ps with
  | [] => []
  | param :: rest =>
      match kind param with
      | VAR_KEYWORD | KEYWORD_ONLY => []
      | _ =>
          match arguments !! name param with
          | None => []
          | Some arg => arg :: bound_args rest arguments
          end
      end
  end.

(** [BoundArguments.kwargs]: everything after the positional prefix, by
    name; the catch-all's dictionary is spliced in by [kwargs.update]. *)
Fixpoint bound_kwargs (ps : list Param) (arguments : Arguments_)
    (kwargs_started : bool) (kwargs : gmap string value)
    : gmap string value :=
  match ps with
  | [] => kwargs
  | param :: rest =>
      let started :=
        kwargs_started
        || bool_decide (kind param = VAR_KEYWORD)
        || bool_decide (kind param = KEYWORD_ONLY)
        || bool_decide (arguments !! name param = None) in
      if started then
        match arguments !! name param with
        | None => bound_kwargs rest arguments started kwargs
        | Some arg =>
            match kind param, arg with
            | VAR_KEYWORD, VDict d =>
                bound_kwargs rest arguments started (d ∪ kwargs)
            | _, _ =>
                bound_kwargs rest arguments started
                  (<[name param := arg]> kwargs)
            end
        end
      else bound_kwargs rest arguments started kwargs
  end.

(* ===================================================================== *)
(** ** [partial_bind] *)
(* ===================================================================== *)

(** The loop of [partial_bind] that fills [base]: one entry per parameter,
    the parameter's default, or [None] when it has none. *)
Fixpoint base_loop (ps : list Param) (base : gmap string value)
    : gmap string value :=
  match ps with
  | [] => base
  | param :: rest =>
      match default param with
      | None => base_loop rest (<[name param := VNone]> base)
      | Some d => base_loop rest (<[name param := d]> base)
      end
  end.

(** [asyncio.coroutine(callback)]: the same callable, as a coroutine. *)
Definition coroutine (callback : Callback) : Callback :=
  {| cb_name := cb_name callback;
     cb_sig := cb_sig callback;
     cb_coroutine := true;
     cb_yields := if cb_coroutine callback then cb_yields callback else 0;
     cb_raises := cb_raises callback |}.

(** The closure [partial_bind] returns: [wrapper] with the variables it
    captures, [sig], [callback] and [base]. *)
Record Wrapper : Type := mkWrapper {
  w_sig : Signature;
  w_callback : Callback;
  w_base : gmap string value;
}.

Definition partial_bind (callback : Callback) : Wrapper :=
  let sig := cb_sig callback in
  let callback :=
    if cb_coroutine callback then callback else coroutine callback in
  {| w_sig := sig; w_callback := callback; w_base := base_loop sig ∅ |}.

(** The keys a [for key in d] loop visits. *)
Definition keys (d : gmap string value) : list string := (map_to_list d).*1.

(** The body of [for key in base] in [wrapper]. *)
Definition overlay_step (params : gmap string value)
    (unbound : gmap string value) (key : string) : gmap string value :=
  match params !! key with
  | Some new_value => <[key := new_value]> unbound
  | None => unbound
  end.

(** What the callback is finally called with:
    [callback( *bound.args, **bound.kwargs )]. *)
Record Call : Type := mkCall {
  call_arguments : Arguments_;
  call_args : list value;
  call_kwargs : gmap string value;
}.

(** [wrapper(params)] up to the call of the callback: the bound call, or the
    exception [sig.bind] raised. *)
Definition wrapper (w : Wrapper) (params : gmap string value) : result Call :=
  let unbound := foldl (overlay_step params) (w_base w) (keys (w_base w)) in
  bound ← sig_bind (w_sig w) unbound;
  Ok {| call_arguments := bound;
        call_args := bound_args (w_sig w) bound;
        call_kwargs := bound_kwargs (w_sig w) bound false ∅ |}.

(* ===================================================================== *)
(** ** Callbacks used in the examples *)
(* ===================================================================== *)

Definition P (n : string) : Param :=
  {| name := n; kind := POSITIONAL_OR_KEYWORD; default := None |}.
Definition Pd (n : string) (d : value) : Param :=
  {| name := n; kind := POSITIONAL_OR_KEYWORD; default := Some d |}.
Definition Pkw (n : string) : Param :=
  {| name := n; kind := VAR_KEYWORD; default := None |}.
Definition Pvar (n : string) : Param :=
  {| name := n; kind := VAR_POSITIONAL; default := None |}.

Definition def_ (n : string) (sig : Signature) : Callback :=
  {| cb_name := n; cb_sig := sig; cb_coroutine := false;
     cb_yields := 0; cb_raises := false |}.
Definition async_def (n : string) (sig : Signature) (yields : nat)
    : Callback :=
  {| cb_name := n; cb_sig := sig; cb_coroutine := true;
     cb_yields := yields; cb_raises := false |}.

(** [def only_kwargs( **kwargs ): ...] *)
Definition only_kwargs : Callback := def_ "only_kwargs" [Pkw "kwargs"].
(** [def masks_x( **x ): ...] *)
Definition masks_x : Callback := def_ "masks_x" [Pkw "x"].
(** [def star( *args ): ...] *)
Definition star : Callback := def_ "star" [Pvar "args"].
(** [async def handle_my_event(foo, bar, baz=d): ...] *)
Definition handle_my_event (d : value) : Callback :=
  async_def "handle_my_event" [P "foo"; P "bar"; Pd "baz" d] 0.
(** [async def slow(x): ...], which gives the loop [n] turns. *)
Definition slow (n : nat) : Callback := async_def "slow" [P "x"] n.

(* ===================================================================== *)
(** ** Objects, tasks and the loop *)
(* ===================================================================== *)

(** A task of the loop, named by the handle [create_task] returns. *)
Abbreviation Task := nat.

(** Python's [id(task)]: distinct live objects have distinct ids. *)
Definition id_ (task : Task) : nat := task.

(** An [EventHandler] object, named by its reference in the heap: the
    registry, the bound method [handler.register] that [Dispatch.on]
    returns, and the done-callbacks of tasks all refer to the same
    object. *)
Abbreviation HandlerRef := nat.

(** A delivery: the pair [trigger] enqueues. *)
Abbreviation Delivery := (string * gmap string value)%type.

Module EventHandlerState.
Record t : Type := mk {
  _event : string;
  _params : list string;
  _callbacks : list Wrapper;
  running : bool;
  _start_shutdown : bool;      (* asyncio.Event: its flag *)
  _shutdown_complete : bool;   (* asyncio.Event: its flag *)
  _tasks : gmap nat Task;
}.

(** [EventHandler.__init__]. *)
Definition __init__ (event : string) (params : list string) : t :=
  {| _event := event; _params := params; _callbacks := [];
     running := false; _start_shutdown := false;
     _shutdown_complete := false; _tasks := ∅ |}.

Definition set_callbacks (v : list Wrapper) (h : t) : t :=
  mk (_event h) (_params h) v (running h) (_start_shutdown h)
     (_shutdown_complete h) (_tasks h).
Definition set_running (v : bool) (h : t) : t :=
  mk (_event h) (_params h) (_callbacks h) v (_start_shutdown h)
     (_shutdown_complete h) (_tasks h).
Definition set_start_shutdown (v : bool) (h : t) : t :=
  mk (_event h) (_params h) (_callbacks h) (running h) v
     (_shutdown_complete h) (_tasks h).
Definition set_shutdown_complete (v : bool) (h : t) : t :=
  mk (_event h) (_params h) (_callbacks h) (running h) (_start_shutdown h)
     v (_tasks h).
Definition set_tasks (v : gmap nat Task) (h : t) : t :=
  mk (_event h) (_params h) (_callbacks h) (running h) (_start_shutdown h)
     (_shutdown_complete h) v.
End EventHandlerState.
Module EH := EventHandlerState.

#[global] Instance EventHandler_inhabited : Inhabited EH.t :=
  populate (EH.__init__ "" []).

Module DispatchState.
Record t : Type := mk {
  _handlers : gmap string HandlerRef;
  _queue : list Delivery;        (* asyncio.Queue, unbounded *)
  running : bool;
  _start_shutdown : bool;        (* asyncio.Event: its flag *)
  _shutdown_complete : bool;     (* asyncio.Event: its flag *)
  _resume_processing : bool;     (* asyncio.Event: its flag *)
}.

(** [Dispatch.__init__]. *)
Definition __init__ : t :=
  {| _handlers := ∅; _queue := []; running := false;
     _start_shutdown := false; _shutdown_complete := false;
     _resume_processing := false |}.

Definition set_handlers (v : gmap string HandlerRef) (d : t) : t :=
  mk v (_queue d) (running d) (_start_shutdown d) (_shutdown_complete d)
     (_resume_processing d).
Definition set_queue (v : list Delivery) (d : t) : t :=
  mk (_handlers d) v (running d) (_start_shutdown d) (_shutdown_complete d)
     (_resume_processing d).
Definition set_running (v : bool) (d : t) : t :=
  mk (_handlers d) (_queue d) v (_start_shutdown d) (_shutdown_complete d)
     (_resume_processing d).
Definition set_start_shutdown (v : bool) (d : t) : t :=
  mk (_handlers d) (_queue d) (running d) v (_shutdown_complete d)
     (_resume_processing d).
Definition set_shutdown_complete (v : bool) (d : t) : t :=
  mk (_handlers d) (_queue d) (running d) (_start_shutdown d) v
     (_resume_processing d).
Definition set_resume_processing (v : bool) (d : t) : t :=
  mk (_handlers d) (_queue d) (running d) (_start_shutdown d)
     (_shutdown_complete d) v.
End DispatchState.
Module D := DispatchState.

(** The [asyncio.Event]s a coroutine of the module waits on. *)
Inductive EventId : Type :=
  | Ev_resume_processing                       (* Dispatch *)
  | Ev_shutdown_complete                       (* Dispatch *)
  | Ev_handler_shutdown_complete (h : HandlerRef).

#[global] Instance EventId_eq_dec : EqDecision EventId.
Proof. solve_decision. Defined.

(** What a suspended task waits for: [await event.wait()] or
    [await asyncio.wait(tasks)]. *)
Inductive Wait : Type :=
  | WaitEvent (ev : EventId)
  | WaitTasks (ts : list Task).

#[global] Instance Wait_eq_dec : EqDecision Wait.
Proof. solve_decision. Defined.

(** The coroutines of the module, each at the point where it is entered or
    resumed. *)
Inductive Coro : Type :=
  (* Dispatch._run *)
  | K_run                          (* at [while self.running] *)
  | K_run_resumed                  (* after [await _resume_processing.wait()] *)
  (* wrapper(params), spawned by EventHandler.__call__ *)
  | K_wrapper (w : Wrapper) (params : gmap string value)
  | K_body (callback : Callback) (yields : nat)   (* inside the callback *)
  (* EventHandler.stop *)
  | K_handler_stop (self : HandlerRef)
  | K_handler_stop_resumed (self : HandlerRef)    (* after [asyncio.wait] *)
  (* Dispatch.stop *)
  | K_stop
  | K_stop_handlers_done           (* after [asyncio.wait(tasks)] *)
  | K_stop_resumed                 (* after [_shutdown_complete.wait()] *)
  (* Dispatch.start *)
  | K_start
  | K_start_resumed                (* after [_shutdown_complete.wait()] *)
  | K_start_handler_resumed (h : HandlerRef) (rest : list HandlerRef).
                                   (* inside [handler.start()], after its
                                      [_shutdown_complete.wait()] *)

Record TaskInfo : Type := mkTaskInfo {
  coro : Coro;
  waiting : option Wait;             (* [None]: in the ready queue *)
  done_callbacks : list HandlerRef;  (* [h._task_done_callback], per [h] *)
}.

#[global] Instance TaskInfo_inhabited : Inhabited TaskInfo :=
  populate (mkTaskInfo K_stop_resumed None []).

(** How a step of a coroutine ends. *)
Inductive Outcome : Type :=
  | Return                             (* the coroutine returned *)
  | Suspend (k : Coro) (on : Wait)     (* [await] something not ready *)
  | Yield (k : Coro).                  (* gave the loop a turn *)

(** The state of the program: the [Dispatch] object, the heap of
    [EventHandler] objects, the loop (unfinished tasks, ready queue in
    first-in first-out order, finished tasks with the exception they ended
    with) and two observations: the calls of user callbacks made so far and
    the deliveries the consumer loop has routed so far. *)
Record World : Type := mkWorld {
  dispatch : D.t;
  heap : gmap HandlerRef EH.t;
  tasks : gmap Task TaskInfo;
  ready : list Task;
  finished : gmap Task (option exn);
  next_task : nat;
  calls : list (string * Call);
  routed : list Delivery;
}.

Definition set_dispatch (v : D.t) (w : World) : World :=
  mkWorld v (heap w) (tasks w) (ready w) (finished w) (next_task w)
          (calls w) (routed w).
Definition set_heap (v : gmap HandlerRef EH.t) (w : World) : World :=
  mkWorld (dispatch w) v (tasks w) (ready w) (finished w) (next_task w)
          (calls w) (routed w).
Definition set_tasks (v : gmap Task TaskInfo) (w : World) : World :=
  mkWorld (dispatch w) (heap w) v (ready w) (finished w) (next_task w)
          (calls w) (routed w).
Definition set_ready (v : list Task) (w : World) : World :=
  mkWorld (dispatch w) (heap w) (tasks w) v (finished w) (next_task w)
          (calls w) (routed w).
Definition set_finished (v : gmap Task (option exn)) (w : World) : World :=
  mkWorld (dispatch w) (heap w) (tasks w) (ready w) v (next_task w)
          (calls w) (routed w).
Definition set_next_task (v : nat) (w : World) : World :=
  mkWorld (dispatch w) (heap w) (tasks w) (ready w) (finished w) v
          (calls w) (routed w).
Definition set_calls (v : list (string * Call)) (w : World) : World :=
  mkWorld (dispatch w) (heap w) (tasks w) (ready w) (finished w)
          (next_task w) v (routed w).
Definition set_routed (v : list Delivery) (w : World) : World :=
  mkWorld (dispatch w) (heap w) (tasks w) (ready w) (finished w)
          (next_task w) (calls w) v.

(** [Dispatch(loop)] on a fresh loop. *)
Definition init : World :=
  {| dispatch := D.__init__; heap := ∅; tasks := ∅; ready := [];
     finished := ∅; next_task := 0; calls := []; routed := [] |}.

(** Code that reads and writes the state and may raise. *)
Definition M (A : Type) : Type := World → World * result A.

#[global] Instance M_ret : MRet M := λ A a w, (w, Ok a).
#[global] Instance M_bind : MBind M := λ A B k m w,
  match m w with
  | (w', Ok a) => k a w'
  | (w', Raise e) => (w', Raise e)
  end.

Definition raise {A} (e : exn) : M A := λ w, (w, Raise e).
Definition get : M World := λ w, (w, Ok w).
Definition modify (f : World → World) : M unit := λ w, (f w, Ok tt).

(** [for x in l: body(x)]. *)
Fixpoint for_ {A} (l : list A) (body : A → M unit) : M unit :=
  match l with
  | [] => mret tt
  | x :: l' => body x ≫= λ _, for_ l' body
  end.

(* ===================================================================== *)
(** ** The loop's primitives *)
(* ===================================================================== *)

(** [loop.create_task(coro)]: a new task, scheduled at the back of the
    ready queue. *)
Definition create_task (k : Coro) : M Task := λ w,
  let task := next_task w in
  (set_next_task (S task)
     (set_ready (ready w ++ [task])
        (set_tasks (<[task := mkTaskInfo k None []]> (tasks w)) w)),
   Ok task).

(** [task.add_done_callback(h._task_done_callback)]. *)
Definition add_done_callback (task : Task) (h : HandlerRef) : M unit :=
  modify (λ w,
    set_tasks
      (alter (λ i, mkTaskInfo (coro i) (waiting i) (done_callbacks i ++ [h]))
             task (tasks w)) w).

Definition should_wake (p : Wait → bool) (info : TaskInfo) : bool :=
  match waiting info with
  | Some on => p on
  | None => false
  end.

(** The suspended tasks whose wait [p] holds of go to the back of the ready
    queue. *)
Definition wake (p : Wait → bool) : M unit :=
  modify (λ w,
    let woken :=
      (filter (λ ti, should_wake p ti.2 = true) (map_to_list (tasks w))).*1 in
    set_ready (ready w ++ woken)
      (set_tasks
         ((λ i, if should_wake p i
                then mkTaskInfo (coro i) None (done_callbacks i) else i)
            <$> tasks w) w)).

(** [event.is_set()], [event.set()], [event.clear()]. *)
Definition is_set (ev : EventId) (w : World) : bool :=
  match ev with
  | Ev_resume_processing => D._resume_processing (dispatch w)
  | Ev_shutdown_complete => D._shutdown_complete (dispatch w)
  | Ev_handler_shutdown_complete h => EH._shutdown_complete (heap w !!! h)
  end.

Definition write_flag (ev : EventId) (v : bool) : M unit :=
  modify (λ w,
    match ev with
    | Ev_resume_processing =>
        set_dispatch (D.set_resume_processing v (dispatch w)) w
    | Ev_shutdown_complete =>
        set_dispatch (D.set_shutdown_complete v (dispatch w)) w
    | Ev_handler_shutdown_complete h =>
        set_heap (<[h := EH.set_shutdown_complete v (heap w !!! h)]> (heap w)) w
    end).

Definition event_set (ev : EventId) : M unit :=
  w ← get;
  if is_set ev w then mret tt
  else write_flag ev true ;; wake (λ on, bool_decide (on = WaitEvent ev)).

Definition event_clear (ev : EventId) : M unit := write_flag ev false.

(** Field access through a reference: [self.x] and [self.x = v]. *)
Definition deref (self : HandlerRef) : M EH.t := λ w, (w, Ok (heap w !!! self)).
Definition update (self : HandlerRef) (f : EH.t → EH.t) : M unit :=
  modify (λ w, set_heap (<[self := f (heap w !!! self)]> (heap w)) w).
Definition this : M D.t := λ w, (w, Ok (dispatch w)).
Definition update_this (f : D.t → D.t) : M unit :=
  modify (λ w, set_dispatch (f (dispatch w)) w).

Definition lift {A} (r : result A) : M A := λ w, (w, r).

(* ===================================================================== *)
(** ** [EventHandler] *)
(* ===================================================================== *)

Module EventHandler.

(** [__call__], lines 162-171. *)
Definition __call__ (self : HandlerRef) (params : gmap string value)
    : M unit :=
  h ← deref self;
  if negb (EH.running h) then raise RuntimeError
  else
    for_ (EH._callbacks h) (λ callback,
      task ← create_task (K_wrapper callback params);
      update self (λ h, EH.set_tasks (<[id_ task := task]> (EH._tasks h)) h) ;;
      add_done_callback task self).

(** [_task_done_callback], lines 173-179: [pop] with a default. *)
Definition _task_done_callback (self : HandlerRef) (fut : Task) : M unit :=
  update self (λ h, EH.set_tasks (delete (id_ fut) (EH._tasks h)) h).

Definition _wrap (self : HandlerRef) (callback : Callback) : Wrapper :=
  partial_bind callback.

Definition _validate (self : HandlerRef) (callback : Callback) : M unit :=
  h ← deref self;
  lift (validate_func (EH._event h) callback (EH._params h)).

(** [register], lines 181-185. *)
Definition register (self : HandlerRef) (callback : Callback)
    : M Callback :=
  _validate self callback ;;
  let wrapped := _wrap self callback in
  update self (λ h, EH.set_callbacks (EH._callbacks h ++ [wrapped]) h) ;;
  mret callback.

(** [start], lines 187-204.  [start_running] is line 204, [start_resumed]
    is lines 201-204, where the coroutine resumes after [wait()].  The
    result of [start] is [None] when it returned and the wait when it was
    suspended at line 200. *)
Definition start_running (self : HandlerRef) : M unit :=
  update self (EH.set_running true).

Definition start_resumed (self : HandlerRef) : M unit :=
  update self (EH.set_start_shutdown false) ;;
  event_clear (Ev_handler_shutdown_complete self) ;;
  start_running self.

Definition start (self : HandlerRef) : M (option Wait) :=
  h ← deref self;
  if EH.running h then mret None
  else if EH._start_shutdown h then
    if negb (EH._shutdown_complete h)
    then mret (Some (WaitEvent (Ev_handler_shutdown_complete self)))
    else start_resumed self ;; mret None
  else start_running self ;; mret None.

(** [stop], lines 206-223.  [stop_resumed] is line 223, where the
    coroutine resumes after [asyncio.wait]. *)
Definition stop_resumed (self : HandlerRef) : M Outcome :=
  event_set (Ev_handler_shutdown_complete self) ;;
  mret Return.

Definition stop (self : HandlerRef) : M Outcome :=
  h ← deref self;
  if negb (EH.running h) then mret Return
  else
    update self (EH.set_running false) ;;
    update self (EH.set_start_shutdown true) ;;
    h ← deref self;
    let active_tasks := (map_to_list (EH._tasks h)).*2 in
    match active_tasks with
    | _ :: _ =>
        mret (Suspend (K_handler_stop_resumed self) (WaitTasks active_tasks))
    | [] => stop_resumed self
    end.

End EventHandler.

(* ===================================================================== *)
(** ** [Dispatch] *)
(* ===================================================================== *)

(** [def noop( *a, **kw ): pass]. *)
Definition noop (params : gmap string value) : M unit := mret tt.

Module Dispatch.

(** [on], lines 21-35.  The result is the bound method
    [handler.register]: the handler it is bound to. *)
Definition on (event : string) : M HandlerRef :=
  d ← this;
  match D._handlers d !! event with
  | None => raise ValueError
  | Some handler => mret handler
  end.

(** [trigger], lines 37-40. *)
Definition trigger (event : string) (params : gmap string value) : M unit :=
  update_this (λ d, D.set_queue (D._queue d ++ [(event, params)]) d) ;;
  event_set Ev_resume_processing.

(** [register], lines 42-55. *)
Definition register (event : string) (params : list string) : M unit :=
  d ← this;
  match D._handlers d !! event with
  | Some _ => raise ValueError
  | None =>
      w ← get;
      let handler : HandlerRef := fresh (dom (heap w)) in
      modify (set_heap (<[handler := EH.__init__ event params]> (heap w))) ;;
      update_this (λ d, D.set_handlers (<[event := handler]> (D._handlers d)) d)
  end.

(** [unregister], lines 57-68. *)
Definition unregister (event : string) : M unit :=
  update_this (λ d, D.set_handlers (delete event (D._handlers d)) d).

(** [events], lines 104-107. *)
Definition events (w : World) : nat := length (D._queue (dispatch w)).

(** [self._queue.get_nowait()] on a queue that is not empty, and
    [await self._queue.get()] there, which does not suspend. *)
Definition queue_get : M (option Delivery) := λ w,
  match D._queue (dispatch w) with
  | [] => (w, Ok None)
  | x :: q => (set_dispatch (D.set_queue q (dispatch w)) w, Ok (Some x))
  end.

(** [clear], lines 93-102; [n] bounds the iterations of the [while]. *)
Fixpoint clear_loop (n : nat) : M unit :=
  match n with
  | 0 => mret tt
  | S n' =>
      w ← get;
      if bool_decide (events w ≠ 0) then queue_get ;; clear_loop n'
      else mret tt
  end.

Definition clear : M unit :=
  d ← this;
  if D.running d then raise RuntimeError
  else w ← get; clear_loop (events w).

(** The values of [self._handlers]. *)
Definition handlers_values : M (list HandlerRef) :=
  d ← this; mret (map_to_list (D._handlers d)).*2.

(** [_run], lines 135-148.  [_run_deliver] is lines 139-141; it also
    notes the delivery in [routed].  [_run_loop] is the [while] up to the
    point where the coroutine is suspended or returns; [n] bounds its
    iterations, and [_run] gives it enough. *)
Definition _run_deliver : M unit :=
  got ← queue_get;
  match got with
  | None => mret tt
  | Some (event, params) =>
      modify (λ w, set_routed (routed w ++ [(event, params)]) w) ;;
      d ← this;
      match D._handlers d !! event with
      | Some handler => EventHandler.__call__ handler params
      | None => noop params
      end
  end.

Fixpoint _run_loop (n : nat) : M Outcome :=
  match n with
  | 0 => mret (Yield K_run)
  | S n' =>
      w ← get;
      if D.running (dispatch w) then
        if bool_decide (events w ≠ 0) then _run_deliver ;; _run_loop n'
        else if is_set Ev_resume_processing w
             then event_clear Ev_resume_processing ;; _run_loop n'
             else mret (Suspend K_run_resumed (WaitEvent Ev_resume_processing))
      else event_set Ev_shutdown_complete ;; mret Return
  end.

Definition _run : M Outcome :=
  w ← get; _run_loop (events w + 2).

Definition _run_resumed : M Outcome :=
  event_clear Ev_resume_processing ;; _run.

(** [start], lines 70-91.  [start_handlers] is the [for] of lines 89-90
    followed by line 91; [start_running] is lines 88-91; [start_resumed]
    is lines 84-91, where the coroutine resumes after line 83. *)
Fixpoint start_handlers (hs : list HandlerRef) : M Outcome :=
  match hs with
  | [] => create_task K_run ;; mret Return
  | handler :: rest =>
      r ← EventHandler.start handler;
      match r with
      | None => start_handlers rest
      | Some on => mret (Suspend (K_start_handler_resumed handler rest) on)
      end
  end.

Definition start_handler_resumed (handler : HandlerRef)
    (rest : list HandlerRef) : M Outcome :=
  EventHandler.start_resumed handler ;; start_handlers rest.

Definition start_running : M Outcome :=
  update_this (D.set_running true) ;;
  hs ← handlers_values;
  start_handlers hs.

Definition start_resumed : M Outcome :=
  update_this (D.set_start_shutdown false) ;;
  event_clear Ev_shutdown_complete ;;
  event_clear Ev_resume_processing ;;
  start_running.

Definition start : M Outcome :=
  d ← this;
  if D.running d then mret Return
  else if D._start_shutdown d then
    if negb (D._shutdown_complete d)
    then mret (Suspend K_start_resumed (WaitEvent Ev_shutdown_complete))
    else start_resumed
  else start_running.

(** [stop], lines 109-133.  [stop_handlers_done] is line 133, where the
    coroutine resumes after line 130; [stop_resumed] is the return after
    line 133.  [asyncio.wait] makes a task of each [handler.stop()]. *)
Definition stop_resumed : M Outcome := mret Return.

Definition stop_handlers_done : M Outcome :=
  w ← get;
  if is_set Ev_shutdown_complete w then mret Return
  else mret (Suspend K_stop_resumed (WaitEvent Ev_shutdown_complete)).

Fixpoint stop_tasks (hs : list HandlerRef) : M (list Task) :=
  match hs with
  | [] => mret []
  | handler :: rest =>
      task ← create_task (K_handler_stop handler);
      tasks ← stop_tasks rest;
      mret (task :: tasks)
  end.

Definition stop : M Outcome :=
  d ← this;
  if negb (D.running d) then mret Return
  else
    update_this (D.set_running false) ;;
    update_this (D.set_start_shutdown true) ;;
    event_set Ev_resume_processing ;;
    hs ← handlers_values;
    tasks ← stop_tasks hs;
    match tasks with
    | _ :: _ => mret (Suspend K_stop_handlers_done (WaitTasks tasks))
    | [] => stop_handlers_done
    end.

End Dispatch.

(* ===================================================================== *)
(** ** Running tasks *)
(* ===================================================================== *)

(** The body of a user callback: [yields] turns of the loop, then it
    returns or raises. *)
Definition body (callback : Callback) (yields : nat) : M Outcome :=
  match yields with
  | S n => mret (Yield (K_body callback n))
  | 0 => if cb_raises callback then raise UserError else mret Return
  end.

(** [wrapper(params)] as a task, lines 287-295: bind, note the call in
    [calls], enter the callback. *)
Definition wrapper_task (w : Wrapper) (params : gmap string value)
    : M Outcome :=
  call ← lift (wrapper w params);
  modify (λ s, set_calls (calls s ++ [(cb_name (w_callback w), call)]) s) ;;
  body (w_callback w) (cb_yields (w_callback w)).

Definition run_coro (k : Coro) : M Outcome :=
  match k with
  | K_run => Dispatch._run
  | K_run_resumed => Dispatch._run_resumed
  | K_wrapper w params => wrapper_task w params
  | K_body callback yields => body callback yields
  | K_handler_stop self => EventHandler.stop self
  | K_handler_stop_resumed self => EventHandler.stop_resumed self
  | K_stop => Dispatch.stop
  | K_stop_handlers_done => Dispatch.stop_handlers_done
  | K_stop_resumed => Dispatch.stop_resumed
  | K_start => Dispatch.start
  | K_start_resumed => Dispatch.start_resumed
  | K_start_handler_resumed h rest => Dispatch.start_handler_resumed h rest
  end.

Definition is_finished (w : World) (task : Task) : bool :=
  bool_decide (is_Some (finished w !! task)).

(** Whether a wait is over at once. *)
Definition wait_over (w : World) (on : Wait) : bool :=
  match on with
  | WaitEvent ev => is_set ev w
  | WaitTasks ts => forallb (is_finished w) ts
  end.

(** A task finishes, with an exception or without: its done-callbacks run
    and the tasks that were waiting for it, and now wait for nothing more,
    are woken. *)
Definition finish (task : Task) (r : option exn) : M unit :=
  w ← get;
  let info := tasks w !!! task in
  modify (λ w, set_finished (<[task := r]> (finished w))
                 (set_tasks (delete task (tasks w)) w)) ;;
  for_ (done_callbacks info)
       (λ h, EventHandler._task_done_callback h task) ;;
  w ← get;
  wake (λ on, match on with
              | WaitTasks ts => forallb (is_finished w) ts
              | WaitEvent _ => false
              end).

Definition set_coro (task : Task) (k : Coro) (on : option Wait) : M unit :=
  modify (λ w,
    set_tasks
      (alter (λ i, mkTaskInfo k on (done_callbacks i)) task (tasks w)) w).

Definition reschedule (task : Task) : M unit :=
  modify (λ w, set_ready (ready w ++ [task]) w).

(** One turn of a task: its coroutine runs from where it stands to its next
    suspension, or to its end. *)
Definition step_task (task : Task) (w : World) : World :=
  match tasks w !! task with
  | None => w
  | Some info =>
      match run_coro (coro info) w with
      | (w', Raise e) => (finish task (Some e) w').1
      | (w', Ok Return) => (finish task None w').1
      | (w', Ok (Yield k)) =>
          ((set_coro task k None ;; reschedule task) w').1
      | (w', Ok (Suspend k on)) =>
          if wait_over w' on
          then ((set_coro task k None ;; reschedule task) w').1
          else (set_coro task k (Some on) w').1
      end
  end.

(** One turn of the loop: the task at the front of the ready queue. *)
Definition loop_step (w : World) : option World :=
  match ready w with
  | [] => None
  | task :: rest => Some (step_task task (set_ready rest w))
  end.

(** [loop.run_until_complete(main)], with a bound on the turns: [None] when
    the bound is reached or nothing is ready while [main] is unfinished. *)
Fixpoint run_until_complete (fuel : nat) (main : Task) (w : World)
    : option World :=
  if is_finished w main then Some w
  else match fuel with
       | 0 => None
       | S fuel' =>
           w' ← loop_step w;
           run_until_complete fuel' main w'
       end.

(** The calls a program makes on a dispatcher. *)
Inductive Op : Type :=
  | Register (event : string) (params : list string)
  | Unregister (event : string)
  | Subscribe (event : string) (callback : Callback) (* dispatch.on(e)(cb) *)
  | Trigger (event : string) (params : gmap string value)
  | Clear
  | Start     (* loop.run_until_complete(dispatch.start()) *)
  | Stop.     (* loop.run_until_complete(dispatch.stop()) *)

(** A call that is not a coroutine: the state after it, and its result. *)
Definition call_sync {A} (m : M A) (w : World) : World * result unit :=
  match m w with
  | (w', Ok _) => (w', Ok tt)
  | (w', Raise e) => (w', Raise e)
  end.

Definition run_coroutine (fuel : nat) (k : Coro) (w : World)
    : option World :=
  let '(w1, _) := create_task k w in
  run_until_complete fuel (next_task w) w1.

(** One call of the program: the state after it and the exception it
    raised, if any; [None] when a coroutine is not complete within [fuel]
    turns of the loop. *)
Definition apply_op (fuel : nat) (op : Op) (w : World)
    : option (World * result unit) :=
  match op with
  | Register event params => Some (call_sync (Dispatch.register event params) w)
  | Unregister event => Some (call_sync (Dispatch.unregister event) w)
  | Subscribe event callback =>
      Some (call_sync (register ← Dispatch.on event;
                       EventHandler.register register callback) w)
  | Trigger event params => Some (call_sync (Dispatch.trigger event params) w)
  | Clear => Some (call_sync Dispatch.clear w)
  | Start =>
      w' ← run_coroutine fuel K_start w;
      Some (w', match finished w' !! next_task w with
                | Some (Some e) => Raise e
                | _ => Ok tt
                end)
  | Stop =>
      w' ← run_coroutine fuel K_stop w;
      Some (w', match finished w' !! next_task w with
                | Some (Some e) => Raise e
                | _ => Ok tt
                end)
  end.

(** A program: its calls in order.  The result is the final state and the
    results of the calls. *)
Fixpoint run_program (fuel : nat) (ops : list Op) (w : World)
    : option (World * list (result unit)) :=
  match ops with
  | [] => Some (w, [])
  | op :: ops' =>
      '(w1, r) ← apply_op fuel op w;
      '(w2, rs) ← run_program fuel ops' w1;
      Some (w2, r :: rs)
  end.

(** [n] turns of the loop. *)
Fixpoint turns (n : nat) (w : World) : option World :=
  match n with
  | 0 => Some w
  | S n' => w' ← loop_step w; turns n' w'
  end.

(** The state "shutting down" of a handler: between line 216, where
    [stop] signals that the shutdown has started, and line 223, where it
    signals that it is complete. *)
Definition shutting_down (h : EH.t) : bool :=
  EH._start_shutdown h && negb (EH._shutdown_complete h).

(* ===================================================================== *)
(** ** Inputs that [validate_func] rejects *)
(* ===================================================================== *)

(** A parameter on which the loop of [validate_func] raises. *)
Definition rejected (params : list string) (p : Param) : Prop :=
  kind p = VAR_POSITIONAL ∨ (kind p = VAR_KEYWORD ∧ name p ∈ params).

#[global] Instance rejected_dec params p : Decision (rejected params p).
Proof. unfold rejected. apply _. Defined.

(** The names of the catch-all parameters of a signature. *)
Definition catch_all_names (ps : list Param) : gset string :=
  list_to_set (name <$> filter (λ p, kind p = VAR_KEYWORD) ps).

(* ===================================================================== *)
(** ** The values the wrapper binds *)
(* ===================================================================== *)

(** The kinds a parameter of a validated callback is passed by keyword
    with. *)
Definition by_keyword (p : Param) : Prop :=
  kind p = POSITIONAL_OR_KEYWORD ∨ kind p = KEYWORD_ONLY ∨ kind p = VAR_KEYWORD.

(** The entry of [base] for a parameter. *)
Definition base_value (p : Param) : value := from_option id VNone (default p).

(** The named parameters of a list: those that are not the catch-all. *)
Definition named (ps : list Param) : list string :=
  name <$> filter (λ p, kind p ≠ VAR_KEYWORD) ps.

(* ===================================================================== *)
(** ** Scenario A *)
(* ===================================================================== *)

(** The program of Scenario A. *)
Definition scenario_A (d : value) : list Op :=
  [ Register "my_event" ["foo"; "bar"; "baz"];
    Subscribe "my_event" (handle_my_event d);
    Start;
    Trigger "my_event" (<["foo" := VInt 1]> (<["bar" := VInt 2]> ∅));
    Stop ].

(* ===================================================================== *)
(** ** A handler that is shutting down *)
(* ===================================================================== *)

(** A world in a state where a handler is shutting down with a task in
    flight: [stop()] has been running for five turns of the loop. *)
Definition stopping_world : option World :=
  w ← fst <$> run_program 8
        [ Register "e" ["x"]; Subscribe "e" (slow 5); Start;
          Trigger "e" {["x" := VInt 1]} ] init;
  turns 5 (create_task K_stop w).1.

(* ===================================================================== *)
(** ** Relations between states *)
(* ===================================================================== *)

(** [keeps R m]: the state after [m] is related by [R] to the state
    before, whether [m] raises or not. *)
Definition keeps {A} (R : relation World) (m : M A) : Prop :=
  ∀ w, R w (m w).1.

(** [consumed w w']: from [w] to [w'] the consumer loop has taken some
    deliveries from the front of the queue and routed them, in order. *)
Definition consumed (w w' : World) : Prop :=
  ∃ l, routed w' = (routed w ++ l)%list
       ∧ D._queue (dispatch w) = (l ++ D._queue (dispatch w'))%list.

(** Steps that touch neither the queue nor the record of routed
    deliveries. *)
Definition same_log (w w' : World) : Prop :=
  routed w' = routed w ∧ D._queue (dispatch w') = D._queue (dispatch w).

(** The state after the triggers [ds], in order. *)
Definition trigger_all (ds : list Delivery) (w : World) : World :=
  foldl (λ w d, (Dispatch.trigger d.1 d.2 w).1) w ds.

(* ===================================================================== *)
(** ** The loop's bookkeeping and the task sets *)
(* ===================================================================== *)

(** Handles are given out in increasing order, a task is unfinished or
    finished but not both, and the ready queue holds each task at most
    once and no suspended task. *)
Record ids_ok (w : World) : Prop := mk_ids_ok {
  ids_tasks : ∀ t, is_Some (tasks w !! t) → t < next_task w;
  ids_finished : ∀ t, is_Some (finished w !! t) → t < next_task w;
  ids_ready : ∀ t, t ∈ ready w → t < next_task w;
  ids_disjoint : ∀ t, is_Some (tasks w !! t) → finished w !! t = None;
  ready_nodup : NoDup (ready w);
  ready_waiting :
    ∀ t info, t ∈ ready w → tasks w !! t = Some info → waiting info = None;
}.

(** The same while task [t] is taking its turn from the point [k] of its
    coroutine: it has left the ready queue and is not suspended. *)
Record turn_ok (t : Task) (k : Coro) (w : World) : Prop := mk_turn_ok {
  turn_ids : ids_ok w;
  turn_live : is_Some (tasks w !! t);
  turn_not_ready : t ∉ ready w;
  turn_not_waiting : ∀ info, tasks w !! t = Some info → waiting info = None;
  turn_coro : ∀ info, tasks w !! t = Some info → coro info = k;
}.

Definition keeps_turn (t : Task) (k : Coro) : relation World :=
  λ w w', turn_ok t k w → turn_ok t k w'.

(** Writes outside the loop's bookkeeping. *)
Definition same_loop (w w' : World) : Prop :=
  tasks w' = tasks w ∧ ready w' = ready w ∧ finished w' = finished w
  ∧ next_task w' = next_task w.

(** The tasks [wake p] moves to the ready queue. *)
Definition woken (p : Wait → bool) (w : World) : list Task :=
  (filter (λ ti, should_wake p ti.2 = true) (map_to_list (tasks w))).*1.

(** The coroutine a task runs: of which function it is a point. *)
Inductive Family : Type :=
  | F_run | F_invocation | F_handler_stop (h : HandlerRef) | F_stop | F_start.

Definition family (k : Coro) : Family :=
  match k with
  | K_run | K_run_resumed => F_run
  | K_wrapper _ _ | K_body _ _ => F_invocation
  | K_handler_stop h | K_handler_stop_resumed h => F_handler_stop h
  | K_stop | K_stop_handlers_done | K_stop_resumed => F_stop
  | K_start | K_start_resumed | K_start_handler_resumed _ _ => F_start
  end.

#[global] Instance Family_eq_dec : EqDecision Family.
Proof. solve_decision. Defined.


(** What ties the task sets of the handlers to the tasks of the loop. *)
Record struct_ok (w : World) : Prop := mk_struct_ok {
  (* only invocations have a done-callback, and they have one *)
  cb_invocation :
    ∀ t info, tasks w !! t = Some info →
      if decide (family (coro info) = F_invocation)
      then ∃ h, done_callbacks info = [h]
      else done_callbacks info = [];
  (* [h._tasks] holds exactly the unfinished tasks that will call
     [h._task_done_callback], each under its own id *)
  task_sets :
    ∀ h k t', EH._tasks (heap w !!! h) !! k = Some t'
      ↔ t' = k ∧ ∃ info, tasks w !! k = Some info ∧ done_callbacks info = [h];
  (* a task suspended in [asyncio.wait] waits for a task not finished *)
  waits_pending :
    ∀ t info ts, tasks w !! t = Some info →
      waiting info = Some (WaitTasks ts) →
      ∃ t', t' ∈ ts ∧ finished w !! t' = None;
}.

Record turn_struct (t : Task) (k : Coro) (w : World) : Prop :=
  mk_turn_struct {
  ts_turn : turn_ok t k w;
  ts_struct : struct_ok w;
}.

Definition keeps_struct (t : Task) (k : Coro) : relation World :=
  λ w w', turn_struct t k w → turn_struct t k w'.

(** Writes that leave the loop's bookkeeping and every task set alone. *)
Definition same_struct (w w' : World) : Prop :=
  same_loop w w' ∧ ∀ h, EH._tasks (heap w' !!! h) = EH._tasks (heap w !!! h).

(** One iteration of the loop of [__call__], lines 169-171. *)
Definition spawn (self : HandlerRef) (params : gmap string value)
    (callback : Wrapper) : M unit :=
  task ← create_task (K_wrapper callback params);
  update self (λ h, EH.set_tasks (<[id_ task := task]> (EH._tasks h)) h) ;;
  add_done_callback task self.

(* ===================================================================== *)
(** ** The life cycle of the engine and of its handlers *)
(* ===================================================================== *)

(** The handler object behind a reference. *)
Abbreviation obj w h := (heap w !!! h).

(** The coroutines of [Dispatch.start] and [Dispatch.stop]: the calls the
    program waits for. *)
Definition foreground (k : Coro) : Prop :=
  family k = F_stop ∨ family k = F_start.

(** [Dispatch.stop] past its first suspension. *)
Definition stopping (k : Coro) : Prop :=
  match k with
  | K_stop_handlers_done | K_stop_resumed => True
  | _ => False
  end.

#[global] Instance foreground_dec k : Decision (foreground k).
Proof. unfold foreground. apply _. Defined.

#[global] Instance stopping_dec k : Decision (stopping k).
Proof. destruct k; apply _. Defined.

Record life_ok (w : World) : Prop := mk_life_ok {
  (* a running handler has both shutdown signals cleared *)
  h_running_flags :
    ∀ h, EH.running (obj w h) = true →
      EH._start_shutdown (obj w h) = false
      ∧ EH._shutdown_complete (obj w h) = false;
  h_complete_started :
    ∀ h, EH._shutdown_complete (obj w h) = true →
      EH._start_shutdown (obj w h) = true;
  (* a handler that is not running has no task left, unless its [stop] is
     still waiting for them *)
  h_stopped :
    ∀ h, EH.running (obj w h) = false →
      (EH._tasks (obj w h) = ∅
       ∧ (EH._start_shutdown (obj w h) = true →
          EH._shutdown_complete (obj w h) = true))
      ∨ ∃ t info, tasks w !! t = Some info
                  ∧ coro info = K_handler_stop_resumed h;
  (* [handler.stop()] suspended at line 221 waits for every task left *)
  h_draining :
    ∀ h t info, tasks w !! t = Some info →
      coro info = K_handler_stop_resumed h →
      EH.running (obj w h) = false
      ∧ EH._start_shutdown (obj w h) = true
      ∧ EH._shutdown_complete (obj w h) = false
      ∧ match waiting info with
        | Some (WaitTasks active) =>
            ∀ k, is_Some (EH._tasks (obj w h) !! k) → k ∈ active
        | Some (WaitEvent _) => False
        | None => EH._tasks (obj w h) = ∅
        end;
  h_draining_unique :
    ∀ h t1 t2 i1 i2, tasks w !! t1 = Some i1 → tasks w !! t2 = Some i2 →
      coro i1 = K_handler_stop_resumed h →
      coro i2 = K_handler_stop_resumed h → t1 = t2;
  (* the program calls [start()] and [stop()] one at a time *)
  fg_unique :
    ∀ t1 t2 i1 i2, tasks w !! t1 = Some i1 → tasks w !! t2 = Some i2 →
      foreground (coro i1) → foreground (coro i2) → t1 = t2;
  (* [start()] is never found suspended *)
  fg_start_fresh :
    ∀ t info, tasks w !! t = Some info →
      family (coro info) = F_start → coro info = K_start;
  (* the [handler.stop()] tasks are those [stop()] waits for at line 130 *)
  hstop_owned :
    ∀ t info h, tasks w !! t = Some info →
      family (coro info) = F_handler_stop h →
      ∃ m mi ts, tasks w !! m = Some mi
                 ∧ coro mi = K_stop_handlers_done
                 ∧ waiting mi = Some (WaitTasks ts) ∧ t ∈ ts;
  stopping_not_running :
    ∀ m mi, tasks w !! m = Some mi → stopping (coro mi) →
      D.running (dispatch w) = false;
  (* while the engine is not running, a registered handler is not running
     or is about to be stopped *)
  stopped_handlers :
    D.running (dispatch w) = false →
    ∀ e h, D._handlers (dispatch w) !! e = Some h →
      EH.running (obj w h) = false
      ∨ ∃ t info, tasks w !! t = Some info ∧ coro info = K_handler_stop h;
  (* [stop()] is woken at line 133 by the consumer's signal only *)
  stop_woken :
    ∀ m mi, tasks w !! m = Some mi → coro mi = K_stop_resumed →
      match waiting mi with
      | None => D._shutdown_complete (dispatch w) = true
      | Some on => on = WaitEvent Ev_shutdown_complete
      end;
  (* between calls, a shutdown that has started is complete *)
  idle_complete :
    (∀ m mi, tasks w !! m = Some mi → ¬ stopping (coro mi)) →
    D._start_shutdown (dispatch w) = true →
    D._shutdown_complete (dispatch w) = true;
}.

(** The invariant of the states a program reaches. *)
Record Inv (w : World) : Prop := mk_Inv {
  inv_ids : ids_ok w;
  inv_struct : struct_ok w;
  inv_life : life_ok w;
}.

Record turn_life (t : Task) (k : Coro) (w : World) : Prop := mk_turn_life {
  tl_struct : turn_struct t k w;
  tl_life : life_ok w;
}.

Definition keeps_life (t : Task) (k : Coro) : relation World :=
  λ w w', turn_life t k w → turn_life t k w'.

(** Writes that leave alone everything the invariant reads. *)
Record same_life (w w' : World) : Prop := mk_same_life {
  sl_tasks : tasks w' = tasks w;
  sl_ready : ready w' = ready w;
  sl_finished : finished w' = finished w;
  sl_next : next_task w' = next_task w;
  sl_htasks : ∀ h, EH._tasks (obj w' h) = EH._tasks (obj w h);
  sl_hrunning : ∀ h, EH.running (obj w' h) = EH.running (obj w h);
  sl_hss : ∀ h, EH._start_shutdown (obj w' h) = EH._start_shutdown (obj w h);
  sl_hsc :
    ∀ h, EH._shutdown_complete (obj w' h) = EH._shutdown_complete (obj w h);
  sl_running : D.running (dispatch w') = D.running (dispatch w);
  sl_ss : D._start_shutdown (dispatch w') = D._start_shutdown (dispatch w);
  sl_sc :
    D._shutdown_complete (dispatch w') = D._shutdown_complete (dispatch w);
  sl_handlers : D._handlers (dispatch w') = D._handlers (dispatch w);
}.

(** [struct_ok] without its clause on waits, which does not hold between
    the end of a task and the waking of those that waited for it. *)
Record shape_ok (w : World) : Prop := mk_shape_ok {
  shape_cb :
    ∀ t info, tasks w !! t = Some info →
      if decide (family (coro info) = F_invocation)
      then ∃ h, done_callbacks info = [h]
      else done_callbacks info = [];
  shape_sets :
    ∀ h k t', EH._tasks (obj w h) !! k = Some t'
      ↔ t' = k ∧ ∃ info, tasks w !! k = Some info ∧ done_callbacks info = [h];
}.

(** The tasks of the life cycle: every coroutine but the consumer loop and
    the invocations of callbacks. *)
Definition lifecycle (k : Coro) : Prop :=
  family k ≠ F_run ∧ family k ≠ F_invocation.

(** How the wait of a task changes when others take their turns: not at
    all, or it is over. *)
Definition wait_rel (w' : World) (i i' : TaskInfo) : Prop :=
  waiting i' = waiting i
  ∨ (waiting i' = None
     ∧ ∃ ev, waiting i = Some (WaitEvent ev)
             ∧ (ev = Ev_shutdown_complete →
                D._shutdown_complete (dispatch w') = true))
  ∨ (waiting i' = None
     ∧ ∃ ts, waiting i = Some (WaitTasks ts)
             ∧ ∀ t, t ∈ ts → is_Some (finished w' !! t)).

(** [evolves w w']: what the consumer loop, the invocations, the triggers
    and the waking of tasks do to the state: no task of the life cycle
    appears, disappears or moves; no flag of a handler changes and the task
    set of a handler that is not running does not grow; the engine's
    [running], [_start_shutdown] and registry stay as they are. *)
Record evolves (w w' : World) : Prop := mk_evolves {
  ev_keep :
    ∀ x i, tasks w !! x = Some i → lifecycle (coro i) →
      ∃ i', tasks w' !! x = Some i' ∧ coro i' = coro i ∧ wait_rel w' i i';
  ev_old :
    ∀ x i', tasks w' !! x = Some i' → lifecycle (coro i') →
      ∃ i, tasks w !! x = Some i ∧ coro i = coro i';
  ev_finished :
    ∀ t, is_Some (finished w !! t) → is_Some (finished w' !! t);
  ev_hrunning : ∀ h, EH.running (obj w' h) = EH.running (obj w h);
  ev_hss : ∀ h, EH._start_shutdown (obj w' h) = EH._start_shutdown (obj w h);
  ev_hsc :
    ∀ h, EH._shutdown_complete (obj w' h) = EH._shutdown_complete (obj w h);
  ev_htasks :
    ∀ h, EH.running (obj w h) = false →
      ∀ k, is_Some (EH._tasks (obj w' h) !! k) →
           is_Some (EH._tasks (obj w h) !! k);
  ev_running : D.running (dispatch w') = D.running (dispatch w);
  ev_ss : D._start_shutdown (dispatch w') = D._start_shutdown (dispatch w);
  ev_sc :
    D._shutdown_complete (dispatch w) = true →
    D._shutdown_complete (dispatch w') = true;
  ev_handlers :
    ∀ e h, D._handlers (dispatch w') !! e = Some h →
      D._handlers (dispatch w) !! e = Some h
      ∨ EH.running (obj w' h) = false;
}.

(* ===================================================================== *)
(** ** The end of a turn *)
(* ===================================================================== *)

(** The point where a coroutine is suspended belongs to the same
    function. *)
Definition outcome_in (F : Family) (m : M Outcome) : Prop :=
  ∀ w, match (m w).2 with
       | Ok (Yield k') | Ok (Suspend k' _) => family k' = F
       | _ => True
       end.

(** The state when a task has finished, before the tasks that waited for
    it are woken: the task has left the unfinished tasks, and the task
    sets of the handlers that were to be told. *)
Definition closed (t : Task) (r : option exn) (w : World) : World :=
  let w1 := set_finished (<[t := r]> (finished w))
              (set_tasks (delete t (tasks w)) w) in
  foldl (λ w h, (EventHandler._task_done_callback h t w).1) w1
        (done_callbacks (tasks w !!! t)).

(** The wait of [asyncio.wait(ts)] is over. *)
Definition all_finished (w : World) (on : Wait) : bool :=
  match on with
  | WaitTasks ts => forallb (is_finished w) ts
  | WaitEvent _ => false
  end.

(* ===================================================================== *)
(** ** Turns that leave the life cycle alone *)
(* ===================================================================== *)

(** The relation kept while task [t] takes its turn. *)
Definition keeps_evol (t : Task) (k : Coro) : relation World :=
  λ w w', turn_struct t k w → turn_struct t k w' ∧ evolves w w'.

(** The end of a turn that is not the end of the task. *)
Definition yielded (t : Task) (k' : Coro) (w : World) : World :=
  ((set_coro t k' None ;; reschedule t) w).1.

Definition suspended (t : Task) (k' : Coro) (on : Wait) (w : World) : World :=
  (set_coro t k' (Some on) w).1.

(* ===================================================================== *)
(** ** A change of one handler *)
(* ===================================================================== *)

(** [hchanged h f w w1]: from [w] to [w1] the handler [h] has become
    [f h], and nothing else has changed. *)
Record hchanged (h : HandlerRef) (f : EH.t → EH.t) (w w1 : World) : Prop :=
  mk_hchanged {
  hc_tasks : tasks w1 = tasks w;
  hc_finished : finished w1 = finished w;
  hc_dispatch : dispatch w1 = dispatch w;
  hc_obj : ∀ h', obj w1 h' = if decide (h = h') then f (obj w h) else obj w h';
}.

(** The state of a handler whose shutdown is over. *)
Definition settled (o : EH.t) : Prop :=
  EH._tasks o = ∅
  ∧ (EH._start_shutdown o = true → EH._shutdown_complete o = true).

(* ===================================================================== *)
(** ** Handlers started *)
(* ===================================================================== *)

(** What [handler.start()] makes of a handler that does not have to wait
    for a shutdown to complete. *)
Definition start_obj (o : EH.t) : EH.t :=
  if EH.running o then o
  else if EH._start_shutdown o
       then EH.set_running true
              (EH.set_shutdown_complete false (EH.set_start_shutdown false o))
       else EH.set_running true o.

Definition can_start (o : EH.t) : Prop :=
  EH.running o = false → EH._start_shutdown o = true →
  EH._shutdown_complete o = true.

(** [w1] is [w] with the handlers [hs] started. *)
Record started (hs : list HandlerRef) (w w1 : World) : Prop := mk_started {
  st_tasks : tasks w1 = tasks w;
  st_ready : ready w1 = ready w;
  st_finished : finished w1 = finished w;
  st_next : next_task w1 = next_task w;
  st_dispatch : dispatch w1 = dispatch w;
  st_obj : ∀ h, obj w1 h = if decide (h ∈ hs) then start_obj (obj w h)
                           else obj w h;
}.

(* ===================================================================== *)
(** ** Between calls *)
(* ===================================================================== *)

(** No call of [start()] or [stop()] is under way. *)
Definition idle (w : World) : Prop :=
  ∀ x i, tasks w !! x = Some i → ¬ foreground (coro i).

(* ===================================================================== *)
(** ** What a turn keeps of the other tasks *)
(* ===================================================================== *)

(** [kept t k w w']: while [t] takes its turn no task disappears or moves
    to another point of its coroutine, no task finishes, and the tasks
    that appear are not calls of [start()] or [stop()]. *)
Definition kept (t : Task) (k : Coro) : relation World :=
  λ w w', turn_ok t k w →
    turn_ok t k w'
    ∧ (∀ x i, tasks w !! x = Some i →
              ∃ i', tasks w' !! x = Some i' ∧ coro i' = coro i)
    ∧ (∀ x i', tasks w' !! x = Some i' → tasks w !! x = None →
               ¬ foreground (coro i'))
    ∧ finished w' = finished w.

(* ===================================================================== *)
(** ** A call under way *)
(* ===================================================================== *)

(** The call under way is the task [main] alone. *)
Definition busy (main : Task) (w : World) : Prop :=
  ∀ x i, tasks w !! x = Some i → foreground (coro i) → x = main.

(* ===================================================================== *)
(** ** The states a program reaches *)
(* ===================================================================== *)

(** The calls that are not coroutines. *)
Definition sync (op : Op) : bool :=
  match op with
  | Start | Stop => false
  | _ => true
  end.

(** What happens to the state of a program: between two calls of
    [run_until_complete] it makes a call that is not a coroutine, or makes
    [start()] or [stop()] a task of the loop; the loop gives a turn to the
    task at the front of the ready queue. *)
Inductive transition (w : World) : World → Prop :=
  | transition_sync op w' r :
      idle w → sync op = true → apply_op 0 op w = Some (w', r) →
      transition w w'
  | transition_call k :
      idle w → k = K_start ∨ k = K_stop →
      transition w (create_task k w).1
  | transition_turn w' :
      loop_step w = Some w' → transition w w'.

Definition reachable (w : World) : Prop := rtc transition init w.

(* ===================================================================== *)
(** ** Handlers that stay stopped *)
(* ===================================================================== *)

Definition stays_stopped (h : HandlerRef) : relation World :=
  λ w w', EH.running (obj w h) = false → EH.running (obj w' h) = false.

(* ===================================================================== *)
(** ** Example programs *)
(* ===================================================================== *)

(** A program that has started the engine and triggered an event whose
    callback takes five turns of the loop. *)
Definition busy_program : list Op :=
  [ Register "e" ["x"]; Subscribe "e" (slow 5); Start;
    Trigger "e" {["x" := VInt 1]} ].

(** A program that registers an event while the engine is running. *)
Definition late_program : list Op :=
  [ Register "a" []; Start; Register "b" ["x"]; Subscribe "b" (slow 0) ].

Definition same_dispatch : relation World :=
  λ w w', dispatch w' = dispatch w.

Definition three_deliveries : list Delivery :=
  [ ("e", {["x" := VInt 1]}); ("unknown", ∅); ("e", {["x" := VInt 2]}) ].

(* ===================================================================== *)
(** ** Properties of [validate_func] *)
(* ===================================================================== *)

Lemma validate_loop_rejected ps params expected :
  Exists (rejected params) ps →
  NoDup (name <$> ps) →
  (∀ p, p ∈ ps → name p ∈ expected) →
  validate_loop ps params expected = Raise ValueError.
Proof.
  revert expected.
  induction ps as [|q ps IH]; intros expected Hex Hnd Hin.
  - by apply Exists_nil in Hex.
  - rewrite fmap_cons in Hnd. apply NoDup_cons in Hnd as [Hq Hnd].
    assert (Hrest : ∀ E, (∀ p, p ∈ ps → name p ∈ E) →
              Exists (rejected params) ps →
              validate_loop ps params E = Raise ValueError)
      by (intros E HE Hex'; by apply IH).
    simpl. destruct (kind q) eqn:Hk.
    + apply Exists_cons in Hex as [[?|[? _]]|Hex]; [congruence..|].
      apply Hrest; [|done]. intros p Hp. apply Hin. by right.
    + apply Exists_cons in Hex as [[?|[? _]]|Hex]; [congruence..|].
      apply Hrest; [|done]. intros p Hp. apply Hin. by right.
    + done.
    + apply Exists_cons in Hex as [[?|[? _]]|Hex]; [congruence..|].
      apply Hrest; [|done]. intros p Hp. apply Hin. by right.
    + case_bool_decide as Hm; [done|].
      rewrite bool_decide_eq_true_2 by (apply Hin; by left).
      apply Exists_cons in Hex as [[?|[_ ?]]|Hex]; [congruence|done|].
      apply Hrest; [|done]. intros p Hp.
      apply elem_of_difference. split; [apply Hin; by right|].
      intros Heq%elem_of_singleton. apply Hq. rewrite <- Heq.
      apply list_elem_of_fmap. eauto.
Qed.

Lemma validate_loop_accepted ps params expected :
  ¬ Exists (rejected params) ps →
  NoDup (name <$> ps) →
  (∀ p, p ∈ ps → name p ∈ expected) →
  validate_loop ps params expected = Ok (expected ∖ catch_all_names ps).
Proof.
  revert expected.
  induction ps as [|q ps IH]; intros expected Hex Hnd Hin.
  - simpl. f_equal. unfold catch_all_names. simpl. set_solver.
  - rewrite fmap_cons in Hnd. apply NoDup_cons in Hnd as [Hq Hnd].
    assert (Hhd : ¬ rejected params q) by (intros ?; apply Hex; by left).
    assert (Htl : ¬ Exists (rejected params) ps)
      by (intros ?; apply Hex; by right).
    assert (Hkeep : kind q ≠ VAR_KEYWORD →
              validate_loop ps params expected
              = Ok (expected ∖ catch_all_names (q :: ps))).
    { intros Hk. rewrite IH; [|done..|intros p Hp; apply Hin; by right].
      f_equal. unfold catch_all_names.
      by rewrite filter_cons_False. }
    simpl. destruct (kind q) eqn:Hk; try (by apply Hkeep).
    + exfalso. apply Hhd. by left.
    + case_bool_decide as Hm; [exfalso; apply Hhd; by right|].
      rewrite bool_decide_eq_true_2 by (apply Hin; by left).
      rewrite IH; [|done..|].
      * f_equal. unfold catch_all_names.
        rewrite filter_cons_True by done. rewrite fmap_cons. simpl.
        set_solver.
      * intros p Hp. apply elem_of_difference. split; [apply Hin; by right|].
        intros Heq%elem_of_singleton. apply Hq. rewrite <- Heq.
        apply list_elem_of_fmap. eauto.
Qed.

(** After the loop, what is left of [expected] and is not available is
    empty exactly when every input other than a catch-all is declared by
    the event. *)
Lemma unavailable_empty (sig : Signature) (params : list string) :
  NoDup (name <$> sig) →
  (list_to_set (sig_names sig) ∖ catch_all_names sig)
     ∖ (list_to_set params : gset string) = ∅
  ↔ ∀ p, p ∈ sig → kind p ≠ VAR_KEYWORD → name p ∈ params.
Proof.
  intros Hnd. split.
  - intros Hempty p Hp Hk.
    destruct (decide (name p ∈ params)) as [|Hn]; [done|exfalso].
    assert (Hin : name p ∈ (list_to_set (sig_names sig) ∖ catch_all_names sig)
                    ∖ (list_to_set params : gset string)).
    { apply elem_of_difference. split; [|by rewrite elem_of_list_to_set].
      apply elem_of_difference. split.
      - apply elem_of_list_to_set, list_elem_of_fmap. eauto.
      - unfold catch_all_names. rewrite elem_of_list_to_set.
        intros (q & Hnq & Hq)%list_elem_of_fmap.
        apply list_elem_of_filter in Hq as [Hkq Hq].
        assert (p = q); [|congruence].
        apply list_elem_of_lookup in Hp as [i Hi].
        apply list_elem_of_lookup in Hq as [j Hj].
        assert (i = j); [|congruence].
        eapply NoDup_lookup; [exact Hnd|..].
        + rewrite list_lookup_fmap, Hi. done.
        + rewrite list_lookup_fmap, Hj. simpl. by rewrite Hnq. }
    rewrite Hempty in Hin. set_solver.
  - intros Hall. apply set_eq. intros n. split; [|set_solver].
    intros [[Hn Hc]%elem_of_difference Hp]%elem_of_difference.
    exfalso. apply Hp. apply elem_of_list_to_set.
    apply elem_of_list_to_set, list_elem_of_fmap in Hn as (p & -> & Hin).
    apply Hall; [done|]. intros Hk. apply Hc.
    unfold catch_all_names. apply elem_of_list_to_set, list_elem_of_fmap.
    exists p. split; [done|]. by apply list_elem_of_filter.
Qed.

(** C4: for a callback whose inputs have distinct names, [validate_func]
    raises [ValueError] exactly when an input is variadic positional, or
    the catch-all keyword input has the name of a parameter of the event,
    or an input other than the catch-all is not a parameter of the event;
    otherwise it succeeds. *)
Theorem validate_func_raises_iff (event : string) (callback : Callback)
    (params : list string) :
  sig_wf (cb_sig callback) →
  let sig := cb_sig callback in
  let variadic := ∃ p, p ∈ sig ∧ kind p = VAR_POSITIONAL in
  let collision := ∃ p, p ∈ sig ∧ kind p = VAR_KEYWORD ∧ name p ∈ params in
  let undeclared := ∃ p, p ∈ sig ∧ kind p ≠ VAR_KEYWORD ∧ name p ∉ params in
  (validate_func event callback params = Raise ValueError
   ↔ variadic ∨ collision ∨ undeclared)
  ∧ (¬ (variadic ∨ collision ∨ undeclared) →
     validate_func event callback params = Ok tt).
Proof.
  intros Hwf sig variadic collision undeclared.
  unfold sig_wf, sig_names in Hwf. fold sig in Hwf.
  assert (Hnames : ∀ p, p ∈ sig →
            name p ∈ (list_to_set (sig_names sig) : gset string)).
  { intros p Hp. apply elem_of_list_to_set, list_elem_of_fmap. eauto. }
  assert (Hrej : Exists (rejected params) sig ↔ variadic ∨ collision).
  { rewrite Exists_exists. unfold variadic, collision, rejected.
    split.
    - intros (p & Hp & [?|[? ?]]); [left|right]; eauto.
    - intros [(p & ? & ?)|(p & ? & ? & ?)]; exists p; eauto. }
  unfold validate_func. fold sig.
  destruct (decide (Exists (rejected params) sig)) as [Hex|Hex].
  - rewrite validate_loop_rejected by done. simpl.
    split; [|intros Hno; exfalso; apply Hno; tauto].
    split; [intros _; tauto|done].
  - rewrite validate_loop_accepted by done. simpl.
    pose proof (unavailable_empty sig params Hwf) as Hun.
    case_bool_decide as He.
    + assert (Hnone : ¬ (variadic ∨ collision ∨ undeclared)).
      { intros [Hv|[Hc|(p & Hp & Hk & Hn)]]; [tauto..|].
        apply Hn. by apply (proj1 Hun He). }
      split; [|done]. split; [done|tauto].
    + assert (Hsome : undeclared).
      { unfold undeclared.
        destruct (decide (Exists (λ p, kind p ≠ VAR_KEYWORD ∧ name p ∉ params)
                                 sig)) as [Hx|Hx].
        - apply Exists_exists in Hx as (p & ? & ? & ?). eauto.
        - exfalso. apply He, Hun. intros p Hp Hk.
          destruct (decide (name p ∈ params)); [done|].
          exfalso. apply Hx, Exists_exists. eauto. }
      split; [|intros Hno; exfalso; apply Hno; tauto].
      split; [tauto|done].
Qed.

Lemma validate_func_raises_iff_witness :
  sig_wf (cb_sig masks_x)
  ∧ validate_func "e" masks_x ["x"] = Raise ValueError
  ∧ validate_func "e" only_kwargs ["x"] = Ok tt.
Proof.
  assert (Hwf : ∀ n, sig_wf [Pkw n]).
  { intros n. unfold sig_wf. simpl. apply NoDup_singleton. }
  split; [apply Hwf|]. split.
  - apply (validate_func_raises_iff "e" masks_x ["x"] (Hwf "x")).
    right; left. exists (Pkw "x"). simpl.
    split; [apply list_elem_of_singleton; reflexivity|].
    split; [reflexivity|apply list_elem_of_singleton; reflexivity].
  - apply (validate_func_raises_iff "e" only_kwargs ["x"] (Hwf "kwargs")).
    intros [(p & Hp & Hk)|[(p & Hp & _ & Hn)|(p & Hp & Hk & _)]];
      apply list_elem_of_singleton in Hp; subst p; simpl in *.
    + discriminate.
    + apply list_elem_of_singleton in Hn. discriminate.
    + by apply Hk.
Defined.

(* ===================================================================== *)
(** ** Properties of [partial_bind] and of the wrapper *)
(* ===================================================================== *)

Lemma base_loop_other ps base n :
  n ∉ name <$> ps → base_loop ps base !! n = base !! n.
Proof.
  revert base. induction ps as [|q ps IH]; intros base Hn; [done|].
  rewrite fmap_cons in Hn. apply not_elem_of_cons in Hn as [Hq Hn].
  simpl. destruct (default q); rewrite IH by done;
    by rewrite lookup_insert_ne.
Qed.

Lemma base_loop_lookup ps base p :
  NoDup (name <$> ps) → p ∈ ps →
  base_loop ps base !! name p = Some (base_value p).
Proof.
  revert base. induction ps as [|q ps IH]; intros base Hnd Hp.
  - by apply elem_of_nil in Hp.
  - rewrite fmap_cons in Hnd. apply NoDup_cons in Hnd as [Hq Hnd].
    apply elem_of_cons in Hp as [->|Hp].
    + simpl. unfold base_value.
      destruct (default q); rewrite base_loop_other by done;
        by rewrite lookup_insert_eq.
    + simpl. destruct (default q); by apply IH.
Qed.

Lemma base_loop_dom ps n :
  is_Some (base_loop ps ∅ !! n) → n ∈ name <$> ps.
Proof.
  intros Hs. destruct (decide (n ∈ name <$> ps)) as [|Hn]; [done|].
  rewrite base_loop_other in Hs by done.
  rewrite lookup_empty in Hs. by destruct Hs.
Qed.

Lemma overlay_fold params ks acc n :
  foldl (overlay_step params) acc ks !! n
  = if decide (n ∈ ks)
    then match params !! n with Some v => Some v | None => acc !! n end
    else acc !! n.
Proof.
  revert acc. induction ks as [|k ks IH]; intros acc; [done|].
  simpl. rewrite IH. unfold overlay_step.
  destruct (decide (n = k)) as [->|Hne].
  - rewrite (decide_True (P := k ∈ k :: ks)) by (by left).
    destruct (params !! k) eqn:Hk.
    + destruct (decide (k ∈ ks)); [done|by rewrite lookup_insert_eq].
    + by destruct (decide (k ∈ ks)).
  - destruct (decide (n ∈ ks)) as [Hin|Hin].
    + rewrite (decide_True (P := n ∈ k :: ks)) by (by right).
      destruct (params !! n); [done|].
      destruct (params !! k); [by rewrite lookup_insert_ne|done].
    + rewrite (decide_False (P := n ∈ k :: ks))
        by (intros [?|?]%elem_of_cons; done).
      destruct (params !! k); [by rewrite lookup_insert_ne|done].
Qed.

Lemma elem_of_keys (d : gmap string value) n : n ∈ keys d ↔ is_Some (d !! n).
Proof.
  unfold keys. rewrite list_elem_of_fmap. split.
  - intros ([k v] & -> & Hkv). apply elem_of_map_to_list in Hkv. eauto.
  - intros [v Hv]. exists (n, v). split; [done|].
    by apply elem_of_map_to_list.
Qed.

(** The keyword arguments the wrapper hands to [sig.bind]: for every key of
    [base], the value supplied in [params] or else the one of [base]. *)
Lemma unbound_lookup (base params : gmap string value) n :
  foldl (overlay_step params) base (keys base) !! n
  = match base !! n with
    | Some b => Some (from_option id b (params !! n))
    | None => None
    end.
Proof.
  rewrite overlay_fold. destruct (decide (n ∈ keys base)) as [Hin|Hin].
  - apply elem_of_keys in Hin as [b Hb]. rewrite Hb.
    by destruct (params !! n).
  - destruct (base !! n) eqn:Hb; [|done].
    exfalso. apply Hin, elem_of_keys. eauto.
Qed.

Lemma named_cons_kw q ps : kind q = VAR_KEYWORD → named (q :: ps) = named ps.
Proof. intros Hk. unfold named. rewrite filter_cons_False; naive_solver. Qed.

Lemma named_cons q ps :
  kind q ≠ VAR_KEYWORD → named (q :: ps) = name q :: named ps.
Proof. intros Hk. unfold named. by rewrite filter_cons_True. Qed.

Lemma named_subseteq ps n : n ∈ named ps → n ∈ name <$> ps.
Proof.
  unfold named. intros (p & -> & Hp)%list_elem_of_fmap.
  apply list_elem_of_filter in Hp as [_ Hp].
  apply list_elem_of_fmap. eauto.
Qed.

(** [bind_loop] on keyword arguments that cover every named parameter:
    it does not raise, every named parameter takes its keyword argument,
    and what is left are the keyword arguments of other names. *)
Lemma bind_loop_covered ps kwargs arguments kwargs_param :
  NoDup (name <$> ps) →
  (∀ p, p ∈ ps → by_keyword p) →
  (∀ n, n ∈ named ps → is_Some (kwargs !! n)) →
  ∃ left args' kp',
    bind_loop ps kwargs arguments kwargs_param = Ok (left, args', kp')
    ∧ (∀ n, left !! n = if decide (n ∈ named ps) then None else kwargs !! n)
    ∧ (∀ n, args' !! n
            = if decide (n ∈ named ps) then kwargs !! n else arguments !! n)
    ∧ (kp' = None → kwargs_param = None
                    ∧ ∀ p, p ∈ ps → kind p ≠ VAR_KEYWORD)
    ∧ (∀ p, kp' = Some p → kwargs_param = Some p ∨ 
                            (p ∈ ps ∧ kind p = VAR_KEYWORD)).
Proof.
  revert kwargs arguments kwargs_param.
  induction ps as [|q ps IH]; intros kwargs arguments kwargs_param Hnd Hkinds Hcov.
  - exists kwargs, arguments, kwargs_param. simpl. split_and!; try done.
    + intros ->. split; [done|]. intros p Hp. by apply elem_of_nil in Hp.
    + intros p ->. by left.
  - rewrite fmap_cons in Hnd. apply NoDup_cons in Hnd as [Hq Hnd].
    assert (Hkq : by_keyword q) by (apply Hkinds; by left).
    assert (Hkinds' : ∀ p, p ∈ ps → by_keyword p)
      by (intros p Hp; apply Hkinds; by right).
    destruct (decide (kind q = VAR_KEYWORD)) as [Hkw|Hkw].
    + (* the catch-all *)
      destruct (IH kwargs arguments (Some q) Hnd Hkinds')
        as (left & args' & kp' & Hrun & Hleft & Hargs & Hnone & Hsome).
      { intros n Hn. apply Hcov. by rewrite named_cons_kw. }
      exists left, args', kp'. simpl. rewrite Hkw.
      rewrite named_cons_kw by done. split_and!; try done.
      * intros Hn. by destruct (Hnone Hn).
      * intros p Hp. destruct (Hsome p Hp) as [[= ->]|[? ?]].
        -- right. split; [by left|done].
        -- right. split; [by right|done].
    + (* a named parameter, present among the keyword arguments *)
      destruct (Hcov (name q)) as [v Hv].
      { rewrite named_cons by done. by left. }
      destruct (IH (delete (name q) kwargs) (<[name q := v]> arguments)
                   kwargs_param Hnd Hkinds')
        as (left & args' & kp' & Hrun & Hleft & Hargs & Hnone & Hsome).
      { intros n Hn. rewrite lookup_delete_ne; [apply Hcov|].
        - rewrite named_cons by done. by right.
        - intros <-. by apply Hq, named_subseteq. }
      exists left, args', kp'.
      assert (Hstep : bind_loop (q :: ps) kwargs arguments kwargs_param
                      = bind_loop ps (delete (name q) kwargs)
                          (<[name q := v]> arguments) kwargs_param).
      { simpl. destruct Hkq as [Hk|[Hk|Hk]]; [| |done];
          rewrite Hk; simpl; by rewrite Hv. }
      rewrite Hstep, named_cons by done. split_and!; try done.
      * intros n. rewrite Hleft.
        destruct (decide (n = name q)) as [->|Hne].
        -- rewrite (decide_True (P := name q ∈ name q :: named ps))
             by (by left).
           destruct (decide (name q ∈ named ps)); [done|].
           by rewrite lookup_delete_eq.
        -- rewrite lookup_delete_ne by done.
           destruct (decide (n ∈ named ps)) as [Hin|Hin].
           ++ by rewrite (decide_True (P := n ∈ name q :: named ps))
                by (by right).
           ++ by rewrite (decide_False (P := n ∈ name q :: named ps))
                by (intros [?|?]%elem_of_cons; done).
      * intros n. rewrite Hargs.
        destruct (decide (n = name q)) as [->|Hne].
        -- rewrite (decide_True (P := name q ∈ name q :: named ps))
             by (by left).
           destruct (decide (name q ∈ named ps)) as [Hin|Hin].
           ++ exfalso. by apply Hq, named_subseteq.
           ++ by rewrite lookup_insert_eq.
        -- rewrite lookup_delete_ne by done.
           destruct (decide (n ∈ named ps)) as [Hin|Hin].
           ++ by rewrite (decide_True (P := n ∈ name q :: named ps))
                by (by right).
           ++ rewrite (decide_False (P := n ∈ name q :: named ps))
                by (intros [?|?]%elem_of_cons; done).
              by rewrite lookup_insert_ne.
      * intros Hn. destruct (Hnone Hn) as [? Hall]. split; [done|].
        intros p [->|Hp]%elem_of_cons; [done|by apply Hall].
      * intros p Hp. destruct (Hsome p Hp) as [?|[? ?]]; [by left|].
        right. split; [by right|done].
Qed.

Lemma elem_of_named ps p : p ∈ ps → kind p ≠ VAR_KEYWORD → name p ∈ named ps.
Proof.
  intros Hp Hk. unfold named. apply list_elem_of_fmap. exists p.
  split; [done|]. by apply list_elem_of_filter.
Qed.

Lemma named_not_catch_all ps p :
  NoDup (name <$> ps) → p ∈ ps → kind p = VAR_KEYWORD → name p ∉ named ps.
Proof.
  intros Hnd Hp Hk. unfold named.
  intros (q & Hnq & Hq)%list_elem_of_fmap.
  apply list_elem_of_filter in Hq as [Hkq Hq].
  assert (p = q); [|congruence].
  apply list_elem_of_lookup in Hp as [i Hi].
  apply list_elem_of_lookup in Hq as [j Hj].
  assert (i = j); [|congruence].
  eapply NoDup_lookup; [exact Hnd|..].
  - rewrite list_lookup_fmap, Hi. done.
  - rewrite list_lookup_fmap, Hj. simpl. by rewrite Hnq.
Qed.

(** [sig.bind( **kwargs )] when the keyword arguments are exactly one per
    parameter: it does not raise; every named parameter is bound to its
    keyword argument; anything else bound is the catch-all's dictionary,
    whose keys are names of catch-all parameters. *)
Lemma sig_bind_covered (sig : Signature) (kwargs : gmap string value) :
  NoDup (name <$> sig) →
  (∀ p, p ∈ sig → by_keyword p) →
  (∀ n, is_Some (kwargs !! n) ↔ n ∈ name <$> sig) →
  ∃ arguments,
    sig_bind sig kwargs = Ok arguments
    ∧ (∀ p, p ∈ sig → kind p ≠ VAR_KEYWORD →
         arguments !! name p = kwargs !! name p)
    ∧ (∀ n v, arguments !! n = Some v →
         n ∈ named sig
         ∨ (n ∈ name <$> sig
            ∧ ∃ d, v = VDict d
                   ∧ ∀ m, is_Some (d !! m) →
                          m ∈ name <$> sig ∧ m ∉ named sig)).
Proof.
  intros Hnd Hkinds Hkeys.
  destruct (bind_loop_covered sig kwargs ∅ None Hnd Hkinds)
    as (left & args' & kp' & Hrun & Hleft & Hargs & Hnone & Hsome).
  { intros n Hn. by apply Hkeys, named_subseteq. }
  assert (Hleft_keys : ∀ n, is_Some (left !! n) →
            n ∈ name <$> sig ∧ n ∉ named sig).
  { intros n. rewrite Hleft. destruct (decide (n ∈ named sig)).
    - by intros [? ?].
    - intros Hs. split; [by apply Hkeys|done]. }
  assert (Hargs_named : ∀ p, p ∈ sig → kind p ≠ VAR_KEYWORD →
            args' !! name p = kwargs !! name p).
  { intros p Hp Hk. rewrite Hargs.
    by rewrite decide_True by (by apply elem_of_named). }
  assert (Hargs_other : ∀ n v, args' !! n = Some v → n ∈ named sig).
  { intros n v. rewrite Hargs. destruct (decide (n ∈ named sig)); [done|].
    by rewrite lookup_empty. }
  unfold sig_bind. rewrite Hrun. simpl.
  case_bool_decide as Hempty.
  - exists args'. split_and!; try done.
    intros n v Hv. left. by eapply Hargs_other.
  - destruct kp' as [kp|].
    + destruct (Hsome kp eq_refl) as [?|[Hkp Hkk]]; [done|].
      exists (<[name kp := VDict left]> args'). split_and!; try done.
      * intros p Hp Hk. rewrite lookup_insert_ne; [by apply Hargs_named|].
        intros Heq. eapply named_not_catch_all; [exact Hnd|exact Hkp|done|].
        rewrite Heq. by apply elem_of_named.
      * intros n v. destruct (decide (n = name kp)) as [->|Hne].
        -- rewrite lookup_insert_eq. intros [= <-]. right.
           split; [apply list_elem_of_fmap; eauto|eauto].
        -- rewrite lookup_insert_ne by done. intros Hv. left.
           by eapply Hargs_other.
    + (* something is left and there is no catch-all: impossible here *)
      exfalso. destruct (Hnone eq_refl) as [_ Hall]. apply Hempty.
      apply map_eq. intros n. rewrite lookup_empty.
      destruct (left !! n) eqn:Hn; [|done]. exfalso.
      destruct (Hleft_keys n) as [Hin Hnot]; [eauto|].
      apply list_elem_of_fmap in Hin as (p & -> & Hp).
      apply Hnot, elem_of_named; [done|]. by apply Hall.
Qed.

(** The wrapper of a callback whose parameters are passed by keyword: it
    does not raise, and every named parameter receives the value supplied
    in [params], or else its default, or else [None]. *)
Lemma wrapper_arguments (callback : Callback) (params : gmap string value) :
  sig_wf (cb_sig callback) →
  (∀ p, p ∈ cb_sig callback → by_keyword p) →
  ∃ call,
    wrapper (partial_bind callback) params = Ok call
    ∧ (∀ p, p ∈ cb_sig callback → kind p ≠ VAR_KEYWORD →
         call_arguments call !! name p
         = Some (from_option id (base_value p) (params !! name p)))
    ∧ (∀ n v, call_arguments call !! n = Some v →
         n ∈ named (cb_sig callback)
         ∨ (n ∈ sig_names (cb_sig callback)
            ∧ ∃ d, v = VDict d
                   ∧ ∀ m, is_Some (d !! m) →
                          m ∈ sig_names (cb_sig callback)
                          ∧ m ∉ named (cb_sig callback))).
Proof.
  intros Hwf Hkinds. unfold sig_wf, sig_names in Hwf.
  set (sig := cb_sig callback) in *.
  set (base := base_loop sig ∅).
  set (unbound := foldl (overlay_step params) base (keys base)).
  assert (Hun : ∀ p, p ∈ sig →
            unbound !! name p
            = Some (from_option id (base_value p) (params !! name p))).
  { intros p Hp. unfold unbound. rewrite unbound_lookup.
    unfold base. by rewrite base_loop_lookup. }
  destruct (sig_bind_covered sig unbound Hwf Hkinds)
    as (arguments & Hbind & Hnamed & Hother).
  { intros n. split.
    - unfold unbound. rewrite unbound_lookup.
      destruct (base !! n) eqn:Hb; [|by intros [? ?]].
      intros _. apply base_loop_dom. unfold base in Hb. rewrite Hb. eauto.
    - intros (p & -> & Hp)%list_elem_of_fmap. rewrite Hun; eauto. }
  unfold wrapper, partial_bind. simpl. fold sig. fold base. fold unbound.
  rewrite Hbind. simpl. eexists. split; [done|]. simpl. split.
  - intros p Hp Hk. rewrite Hnamed by done. by apply Hun.
  - done.
Qed.

(* ===================================================================== *)
(** ** The wrapper at call time *)
(* ===================================================================== *)




(** C2, what the code does on Scenario B: the callback [def f( **kwargs )] is
    accepted for the event with parameter [x], and the wrapper called with
    [x = 1] binds without an error; but [x] is not handed to the
    catch-all: the wrapper only maps the keys of its defaults, and the
    callback is called with [kwargs = {"kwargs": None}]. *)
Theorem catch_all_is_not_given_event_params :
  validate_func "e" only_kwargs ["x"] = Ok tt
  ∧ wrapper (partial_bind only_kwargs) {["x" := VInt 1]}
    = Ok {| call_arguments := {["kwargs" := VDict {["kwargs" := VNone]}]};
            call_args := [];
            call_kwargs := {["kwargs" := VNone]} |}.
Proof. split; vm_compute; reflexivity. Qed.

(** C9, Scenario A: the program runs to its end without an exception and
    the callback is called exactly once, with [foo = 1], [bar = 2] and
    [baz] at its declared default; and whatever the parameters supplied,
    the wrapper passes for each input the supplied value, or else the
    default, and nothing for any other name. *)
Theorem scenario_A_invoked_once (d : value) :
  (∃ w, run_program 8 (scenario_A d) init
        = Some (w, [Ok tt; Ok tt; Ok tt; Ok tt; Ok tt])
        ∧ calls w
          = [("handle_my_event",
              {| call_arguments :=
                   {["foo" := VInt 1; "bar" := VInt 2; "baz" := d]};
                 call_args := [VInt 1; VInt 2; d];
                 call_kwargs := ∅ |})])
  ∧ ∀ params, ∃ call,
      wrapper (partial_bind (handle_my_event d)) params = Ok call
      ∧ call_arguments call !! "foo"
        = Some (from_option id VNone (params !! "foo"))
      ∧ call_arguments call !! "bar"
        = Some (from_option id VNone (params !! "bar"))
      ∧ call_arguments call !! "baz"
        = Some (from_option id d (params !! "baz"))
      ∧ ∀ n, n ∉ ["foo"; "bar"; "baz"] → call_arguments call !! n = None.
Proof.
  split.
  - eexists. split; vm_compute; reflexivity.
  - intros params.
    assert (Hwf : sig_wf (cb_sig (handle_my_event d))).
    { unfold sig_wf. apply (bool_decide_unpack _). vm_compute. exact I. }
    assert (Hin : ∀ q, q ∈ cb_sig (handle_my_event d) →
              q = P "foo" ∨ q = P "bar" ∨ q = Pd "baz" d).
    { intros q Hq. simpl in Hq.
      repeat (apply elem_of_cons in Hq as [Hq|Hq]; [tauto|]).
      by apply elem_of_nil in Hq. }
    assert (Hkinds : ∀ q, q ∈ cb_sig (handle_my_event d) → by_keyword q).
    { intros q Hq. destruct (Hin q Hq) as [ -> | [ -> | -> ] ]; by left. }
    destruct (wrapper_arguments (handle_my_event d) params Hwf Hkinds)
      as (call & Hcall & Hnamed & Hother).
    exists call. split; [done|]. split_and!.
    + apply (Hnamed (P "foo")); [simpl; repeat constructor|done].
    + apply (Hnamed (P "bar")); [simpl; repeat constructor|done].
    + apply (Hnamed (Pd "baz" d)); [simpl; repeat constructor|done].
    + intros n Hn. destruct (call_arguments call !! n) as [v|] eqn:Hv; [|done].
      exfalso. apply Hn.
      destruct (Hother n v Hv) as [Hnm|[Hnm _]].
      * apply named_subseteq in Hnm. exact Hnm.
      * exact Hnm.
Qed.

(* ===================================================================== *)
(** ** Registration and unknown events *)
(* ===================================================================== *)

Lemma M_bind_eq {A B} (m : M A) (k : A → M B) (w : World) :
  (m ≫= k) w = match m w with
               | (w', Ok a) => k a w'
               | (w', Raise e) => (w', Raise e)
               end.
Proof. reflexivity. Qed.

Lemma M_ret_eq {A} (a : A) (w : World) : (mret a : M A) w = (w, Ok a).
Proof. reflexivity. Qed.

(** Unfolds the primitives that only read or write fields. *)
Ltac mrun :=
  repeat progress
    (rewrite ?M_bind_eq, ?M_ret_eq;
     unfold get, modify, raise, lift, this, update_this, deref, update,
            write_flag, event_clear, noop;
     cbn [fst snd]).

(** C3, as stated, does not hold: in a state where the handler is
    shutting down (its [stop()] waits for a task in flight),
    [EventHandler.register] does not fail: it returns the callback and
    appends its wrapper to the callbacks. *)
Lemma register_while_shutting_down :
  ∃ w, stopping_world = Some w
       ∧ shutting_down (heap w !!! 0) = true
       ∧ (EventHandler.register 0 (slow 0) w).2 = Ok (slow 0)
       ∧ EH._callbacks (heap (EventHandler.register 0 (slow 0) w).1 !!! 0)
         = [partial_bind (slow 5); partial_bind (slow 0)].
Proof.
  assert (H : match stopping_world with
              | Some w =>
                  shutting_down (heap w !!! 0) = true
                  ∧ (EventHandler.register 0 (slow 0) w).2 = Ok (slow 0)
                  ∧ EH._callbacks
                      (heap (EventHandler.register 0 (slow 0) w).1 !!! 0)
                    = [partial_bind (slow 5); partial_bind (slow 0)]
              | None => False
              end)
    by (vm_compute; split_and!; reflexivity).
  destruct stopping_world as [w|]; [|done]. exists w. split; [done|exact H].
Qed.

(** C3, amended: in every state of the handler, [EventHandler.register]
    validates the callback against the event's parameters; when the
    validation succeeds it appends the bound wrapper to the callbacks,
    changes nothing else and returns the callback itself; when it fails the
    exception is raised and the state is unchanged. *)
Theorem handler_register_in_any_state (self : HandlerRef)
    (callback : Callback) (w : World) :
  let h := heap w !!! self in
  match validate_func (EH._event h) callback (EH._params h) with
  | Ok _ =>
      EventHandler.register self callback w
      = (set_heap
           (<[self := EH.set_callbacks
                        (EH._callbacks h ++ [partial_bind callback]) h]>
              (heap w)) w,
         Ok callback)
  | Raise e => EventHandler.register self callback w = (w, Raise e)
  end.
Proof.
  intros h. unfold EventHandler.register, EventHandler._validate.
  mrun. fold h. by destruct (validate_func _ _ _).
Qed.

(** C8: [trigger] never raises and only appends the delivery to the queue;
    for an event that is not registered, [on] raises [ValueError], and the
    consumer loop takes a delivery of that event off the queue and drops
    it, raising nothing and making no task. *)
Theorem unknown_event_safety (event : string) (params : gmap string value)
    (w : World) :
  (∃ w', Dispatch.trigger event params w = (w', Ok tt)
         ∧ D._queue (dispatch w')
           = (D._queue (dispatch w) ++ [(event, params)])%list)
  ∧ (D._handlers (dispatch w) !! event = None →
     Dispatch.on event w = (w, Raise ValueError)
     ∧ ∀ q, D._queue (dispatch w) = (event, params) :: q →
         Dispatch._run_deliver w
         = (set_routed (routed w ++ [(event, params)])
              (set_dispatch (D.set_queue q (dispatch w)) w), Ok tt)).
Proof.
  split.
  - unfold Dispatch.trigger, event_set. mrun.
    destruct (is_set _ _); mrun; eauto.
  - intros Hnone. split.
    + unfold Dispatch.on. mrun. by rewrite Hnone.
    + intros q Hq. unfold Dispatch._run_deliver, Dispatch.queue_get.
      mrun. rewrite Hq. mrun. cbn. by rewrite Hnone.
Qed.

Lemma unknown_event_safety_witness :
  Dispatch.on "unknown" init = (init, Raise ValueError)
  ∧ ∃ w, Dispatch.trigger "unknown" ∅ init = (w, Ok tt)
         ∧ (Dispatch._run_deliver w).2 = Ok tt
         ∧ tasks (Dispatch._run_deliver w).1 = ∅.
Proof.
  destruct (unknown_event_safety "unknown" ∅ init) as [(w & Htr & Hq) Hun].
  destruct (Hun eq_refl) as [Hon _].
  split; [exact Hon|].
  exists w. split; [exact Htr|].
  assert (w = (Dispatch.trigger "unknown" ∅ init).1) as -> by (by rewrite Htr).
  split; vm_compute; reflexivity.
Defined.

(* ===================================================================== *)
(** ** First-in first-out delivery *)
(* ===================================================================== *)

Section keeps.
Context (R : relation World) `{!PreOrder R}.

Lemma keeps_ret {A} (a : A) : keeps R (mret a).
Proof. intros w. reflexivity. Qed.

Lemma keeps_bind {A B} (m : M A) (k : A → M B) :
  keeps R m → (∀ a, keeps R (k a)) → keeps R (m ≫= k).
Proof.
  intros Hm Hk w. rewrite M_bind_eq.
  specialize (Hm w). destruct (m w) as [w' [a|e]]; [|done].
  etrans; [exact Hm|apply Hk].
Qed.

Lemma keeps_raise {A} e : keeps R (raise e : M A).
Proof. intros w. reflexivity. Qed.

Lemma keeps_lift {A} (r : result A) : keeps R (lift r).
Proof. intros w. reflexivity. Qed.

Lemma keeps_get : keeps R get.
Proof. intros w. reflexivity. Qed.

Lemma keeps_this : keeps R this.
Proof. intros w. reflexivity. Qed.

Lemma keeps_deref self : keeps R (deref self).
Proof. intros w. reflexivity. Qed.

Lemma keeps_for_ {A} (l : list A) (body : A → M unit) :
  (∀ x, keeps R (body x)) → keeps R (for_ l body).
Proof.
  intros Hb. induction l as [|x l IH]; simpl.
  - apply keeps_ret.
  - apply keeps_bind; [apply Hb|by intros _].
Qed.
End keeps.

(** Splits a goal [keeps R m] along the structure of [m], leaving the
    primitive writes. *)
Ltac keeps_step :=
  lazymatch goal with
  | |- keeps _ (mret _) => apply keeps_ret; try apply _
  | |- keeps _ (raise _) => apply keeps_raise; try apply _
  | |- keeps _ (lift _) => apply keeps_lift; try apply _
  | |- keeps _ get => apply keeps_get; try apply _
  | |- keeps _ this => apply keeps_this; try apply _
  | |- keeps _ (deref _) => apply keeps_deref; try apply _
  | |- keeps _ (noop _) => apply keeps_ret; try apply _
  | |- keeps _ (for_ _ _) => apply keeps_for_; [try apply _|intros ?]
  | |- keeps _ (_ ≫= _) => apply keeps_bind; [try apply _| |intros ?]
  | |- keeps _ (if ?b then _ else _) => destruct b
  | |- keeps _ (match ?x with _ => _ end) => destruct x
  end.

#[global] Instance consumed_preorder : PreOrder consumed.
Proof.
  split.
  - intros w. exists []. by rewrite app_nil_r.
  - intros w1 w2 w3 (l1 & Hr1 & Hq1) (l2 & Hr2 & Hq2).
    exists (l1 ++ l2)%list. rewrite Hr2, Hr1, Hq1, Hq2.
    by rewrite !app_assoc.
Qed.

Lemma same_log_consumed {A} (m : M A) :
  (∀ w, same_log w (m w).1) → keeps consumed m.
Proof.
  intros H w. destruct (H w) as [Hr Hq]. exists [].
  by rewrite Hr, Hq, app_nil_r.
Qed.

Create HintDb fifo discriminated.

Lemma consumed_create_task k : keeps consumed (create_task k).
Proof. by apply same_log_consumed. Qed.

Lemma consumed_add_done_callback t h : keeps consumed (add_done_callback t h).
Proof. by apply same_log_consumed. Qed.

Lemma consumed_wake p : keeps consumed (wake p).
Proof. by apply same_log_consumed. Qed.

Lemma consumed_write_flag ev v : keeps consumed (write_flag ev v).
Proof. apply same_log_consumed. intros w. by destruct ev. Qed.

Lemma consumed_update self f : keeps consumed (update self f).
Proof. by apply same_log_consumed. Qed.

Lemma consumed_set_coro t k on : keeps consumed (set_coro t k on).
Proof. by apply same_log_consumed. Qed.

Lemma consumed_reschedule t : keeps consumed (reschedule t).
Proof. by apply same_log_consumed. Qed.

#[global] Hint Resolve consumed_create_task consumed_add_done_callback
  consumed_wake consumed_write_flag consumed_update consumed_set_coro
  consumed_reschedule : fifo.

Lemma consumed_event_set ev : keeps consumed (event_set ev).
Proof. unfold event_set. repeat keeps_step; auto with fifo. Qed.

Lemma consumed_event_clear ev : keeps consumed (event_clear ev).
Proof. unfold event_clear. auto with fifo. Qed.

#[global] Hint Resolve consumed_event_set consumed_event_clear : fifo.

(** The flags of the dispatcher are written without touching the queue. *)
Lemma consumed_set_running v : keeps consumed (update_this (D.set_running v)).
Proof. by apply same_log_consumed. Qed.

Lemma consumed_set_start_shutdown v :
  keeps consumed (update_this (D.set_start_shutdown v)).
Proof. by apply same_log_consumed. Qed.

#[global] Hint Resolve consumed_set_running consumed_set_start_shutdown : fifo.

Lemma consumed_call self params :
  keeps consumed (EventHandler.__call__ self params).
Proof. unfold EventHandler.__call__. repeat keeps_step; auto with fifo. Qed.

Lemma consumed_task_done self fut :
  keeps consumed (EventHandler._task_done_callback self fut).
Proof. unfold EventHandler._task_done_callback. auto with fifo. Qed.

Lemma consumed_handler_start_resumed self :
  keeps consumed (EventHandler.start_resumed self).
Proof.
  unfold EventHandler.start_resumed, EventHandler.start_running.
  repeat keeps_step; auto with fifo.
Qed.

Lemma consumed_handler_start self : keeps consumed (EventHandler.start self).
Proof.
  pose proof consumed_handler_start_resumed.
  unfold EventHandler.start, EventHandler.start_running.
  repeat keeps_step; auto with fifo.
Qed.

Lemma consumed_handler_stop_resumed self :
  keeps consumed (EventHandler.stop_resumed self).
Proof. unfold EventHandler.stop_resumed. repeat keeps_step; auto with fifo. Qed.

Lemma consumed_handler_stop self : keeps consumed (EventHandler.stop self).
Proof.
  pose proof consumed_handler_stop_resumed.
  unfold EventHandler.stop. repeat keeps_step; auto with fifo.
Qed.

#[global] Hint Resolve consumed_call consumed_task_done
  consumed_handler_start_resumed consumed_handler_start
  consumed_handler_stop_resumed consumed_handler_stop : fifo.

(** The one place where the queue is read: the delivery taken from its
    front is the one added to the record. *)
Lemma consumed_run_deliver : keeps consumed Dispatch._run_deliver.
Proof.
  intros w. unfold Dispatch._run_deliver, Dispatch.queue_get.
  rewrite M_bind_eq.
  destruct (D._queue (dispatch w)) as [|[event params] q] eqn:Hq.
  { reflexivity. }
  rewrite M_bind_eq. unfold modify at 1. cbn [fst snd].
  match goal with
  | |- consumed w (?m ?w1).1 =>
      assert (Hm : keeps consumed m);
      [|assert (Hstep : consumed w w1);
        [|etrans; [exact Hstep|apply Hm]]]
  end.
  - repeat keeps_step; auto with fifo.
  - exists [(event, params)]. by rewrite Hq.
Qed.

#[global] Hint Resolve consumed_run_deliver : fifo.

Lemma consumed_run_loop n : keeps consumed (Dispatch._run_loop n).
Proof.
  induction n as [|n IH]; simpl; repeat keeps_step; auto with fifo.
Qed.

#[global] Hint Resolve consumed_run_loop : fifo.

Lemma consumed_start_handlers hs : keeps consumed (Dispatch.start_handlers hs).
Proof.
  induction hs as [|h hs IH]; simpl; repeat keeps_step; auto with fifo.
Qed.

#[global] Hint Resolve consumed_start_handlers : fifo.

Lemma consumed_stop_tasks hs : keeps consumed (Dispatch.stop_tasks hs).
Proof.
  induction hs as [|h hs IH]; simpl; repeat keeps_step; auto with fifo.
Qed.

#[global] Hint Resolve consumed_stop_tasks : fifo.

Lemma consumed_run_coro k : keeps consumed (run_coro k).
Proof.
  destruct k; simpl;
    unfold Dispatch._run_resumed, Dispatch._run, wrapper_task, body,
      Dispatch.stop, Dispatch.stop_handlers_done, Dispatch.stop_resumed,
      Dispatch.start, Dispatch.start_resumed, Dispatch.start_running,
      Dispatch.start_handler_resumed, Dispatch.handlers_values;
    repeat keeps_step; auto with fifo.
  by apply same_log_consumed.
Qed.

Lemma consumed_finish t r : keeps consumed (finish t r).
Proof.
  unfold finish. repeat keeps_step; auto with fifo.
  by apply same_log_consumed.
Qed.

Lemma consumed_step_task t w : consumed w (step_task t w).
Proof.
  unfold step_task. destruct (tasks w !! t) as [info|]; [|reflexivity].
  pose proof (consumed_run_coro (coro info) w) as Hrun.
  destruct (run_coro (coro info) w) as [w' [[ | k on | k]|e]]; simpl in Hrun.
  - etrans; [exact Hrun|apply consumed_finish].
  - destruct (wait_over w' on).
    + etrans; [exact Hrun|].
      apply (keeps_bind consumed); auto with fifo.
    + etrans; [exact Hrun|apply consumed_set_coro].
  - etrans; [exact Hrun|].
    apply (keeps_bind consumed); auto with fifo.
  - etrans; [exact Hrun|apply consumed_finish].
Qed.

Lemma consumed_turns n w w' : turns n w = Some w' → consumed w w'.
Proof.
  revert w. induction n as [|n IH]; intros w; simpl.
  - intros [= ->]. reflexivity.
  - unfold loop_step. destruct (ready w) as [|t rest]; [done|]. simpl.
    intros Hn. etrans; [|by apply IH].
    etrans; [|apply consumed_step_task]. exists []. by rewrite app_nil_r.
Qed.

Lemma trigger_log event params w :
  routed (Dispatch.trigger event params w).1 = routed w
  ∧ D._queue (dispatch (Dispatch.trigger event params w).1)
    = (D._queue (dispatch w) ++ [(event, params)])%list.
Proof.
  unfold Dispatch.trigger, event_set. mrun.
  by destruct (is_set _ _).
Qed.

Lemma trigger_all_log ds w :
  routed (trigger_all ds w) = routed w
  ∧ D._queue (dispatch (trigger_all ds w))
    = (D._queue (dispatch w) ++ ds)%list.
Proof.
  revert w. induction ds as [|[event params] ds IH]; intros w; simpl.
  - by rewrite app_nil_r.
  - destruct (IH (Dispatch.trigger event params w).1) as [Hr Hq].
    destruct (trigger_log event params w) as [Hr1 Hq1].
    rewrite Hr, Hq, Hr1, Hq1. by rewrite <- app_assoc.
Qed.

(** C6: after the triggers [ds], in that order, and any number of turns
    of the loop, the deliveries routed since are a prefix of the queue as
    it was followed by [ds], in that order, and the queue holds the rest:
    the consumer loop routes deliveries first in, first out, whatever else
    the loop runs. *)
Theorem deliveries_are_routed_in_trigger_order (ds : list Delivery)
    (n : nat) (w w' : World) :
  turns n (trigger_all ds w) = Some w' →
  ∃ k, routed w'
       = (routed w ++ take k (D._queue (dispatch w) ++ ds))%list
       ∧ D._queue (dispatch w') = drop k (D._queue (dispatch w) ++ ds)%list.
Proof.
  intros Hturns. apply consumed_turns in Hturns as (l & Hr & Hq).
  destruct (trigger_all_log ds w) as [Hr0 Hq0].
  rewrite Hr0 in Hr. rewrite Hq0 in Hq.
  exists (length l). rewrite Hq.
  by rewrite take_app_length, drop_app_length.
Qed.

(* ===================================================================== *)
(** ** The loop's bookkeeping and the task sets *)
(* ===================================================================== *)

#[global] Instance keeps_turn_preorder t k : PreOrder (keeps_turn t k).
Proof.
  split; [intros w H; exact H|intros w1 w2 w3 H1 H2 H; apply H2, H1, H].
Qed.

Lemma same_loop_turn {A} t k0 (m : M A) :
  (∀ w, same_loop w (m w).1) → keeps (keeps_turn t k0) m.
Proof.
  intros H w [[] ? ? ? ?]. destruct (H w) as (Ht & Hr & Hf & Hn).
  split; [split|..]; rewrite ?Ht, ?Hr, ?Hf, ?Hn; done.
Qed.

Create HintDb turn discriminated.

Lemma turn_create_task t k0 k : keeps (keeps_turn t k0) (create_task k).
Proof.
  intros w [[Hit Hif Hir Hd Hnd Hw] Hlive Hnr Hnw Hco].
  assert (Hfresh : tasks w !! next_task w = None).
  { destruct (tasks w !! next_task w) eqn:E; [|done].
    assert (next_task w < next_task w) by (apply Hit; eauto). lia. }
  assert (Hne : t ≠ next_task w).
  { intros ->. rewrite Hfresh in Hlive. by destruct Hlive. }
  unfold create_task. cbn. split; [split|..]; cbn.
  - intros t' [i Hi]. destruct (decide (t' = next_task w)) as [->|]; [lia|].
    rewrite lookup_insert_ne in Hi by done.
    assert (t' < next_task w) by (apply Hit; eauto). lia.
  - intros t' Ht'. assert (t' < next_task w) by auto. lia.
  - intros t' [Ht'|Ht']%elem_of_app.
    + assert (t' < next_task w) by auto. lia.
    + apply list_elem_of_singleton in Ht'. lia.
  - intros t' [i Hi]. destruct (decide (t' = next_task w)) as [->|].
    + destruct (finished w !! next_task w) eqn:E; [|done].
      assert (next_task w < next_task w) by (apply Hif; eauto). lia.
    + rewrite lookup_insert_ne in Hi by done. apply Hd. eauto.
  - apply NoDup_app. split_and!; [done| |apply NoDup_singleton].
    intros t' Ht' ->%list_elem_of_singleton.
    assert (next_task w < next_task w) by auto. lia.
  - intros t' i Ht' Hi. destruct (decide (t' = next_task w)) as [->|].
    + rewrite lookup_insert_eq in Hi. by injection Hi as <-.
    + rewrite lookup_insert_ne in Hi by done.
      apply elem_of_app in Ht' as [Ht'|Ht'%list_elem_of_singleton]; [|done].
      by eapply Hw.
  - by rewrite lookup_insert_ne.
  - intros [?|?%list_elem_of_singleton]%elem_of_app; done.
  - intros i. rewrite lookup_insert_ne by done. apply Hnw.
  - intros i. rewrite lookup_insert_ne by done. apply Hco.
Qed.

Lemma lookup_alter_info (f : TaskInfo → TaskInfo) (m : gmap Task TaskInfo) t t' :
  alter f t m !! t' = (if decide (t = t') then f else id) <$> m !! t'.
Proof.
  destruct (decide (t = t')) as [->|].
  - by rewrite lookup_alter_eq.
  - rewrite lookup_alter_ne by done. by destruct (m !! t').
Qed.

Lemma turn_add_done_callback t k0 t' h :
  keeps (keeps_turn t k0) (add_done_callback t' h).
Proof.
  intros w [[Hit Hif Hir Hd Hnd Hw] Hlive Hnr Hnw Hco].
  unfold add_done_callback, modify. cbn.
  assert (Hsome : ∀ x, is_Some (alter
            (λ i, mkTaskInfo (coro i) (waiting i) (done_callbacks i ++ [h]))
            t' (tasks w) !! x) → is_Some (tasks w !! x)).
  { intros x. rewrite lookup_alter_info. by rewrite fmap_is_Some. }
  assert (Hwait : ∀ x i, alter
            (λ i, mkTaskInfo (coro i) (waiting i) (done_callbacks i ++ [h]))
            t' (tasks w) !! x = Some i →
            ∃ i0, tasks w !! x = Some i0 ∧ waiting i = waiting i0
                  ∧ coro i = coro i0).
  { intros x i. rewrite lookup_alter_info.
    destruct (tasks w !! x) as [i0|]; [|done]. simpl.
    intros [= <-]. exists i0. split; [done|]. by destruct (decide _). }
  split; [split|..]; cbn; eauto.
  - intros x i Hx Hi. destruct (Hwait x i Hi) as (i0 & Hi0 & -> & _). eauto.
  - rewrite lookup_alter_info. by rewrite fmap_is_Some.
  - intros i Hi. destruct (Hwait t i Hi) as (i0 & Hi0 & -> & _). eauto.
  - intros i Hi. destruct (Hwait t i Hi) as (i0 & Hi0 & _ & ->). eauto.
Qed.

Lemma turn_update t k0 self f : keeps (keeps_turn t k0) (update self f).
Proof. by apply same_loop_turn. Qed.

Lemma turn_update_this t k0 f : keeps (keeps_turn t k0) (update_this f).
Proof. by apply same_loop_turn. Qed.

Lemma turn_write_flag t k0 ev v : keeps (keeps_turn t k0) (write_flag ev v).
Proof. apply same_loop_turn. intros w. by destruct ev. Qed.

Lemma turn_queue_get t k0 : keeps (keeps_turn t k0) Dispatch.queue_get.
Proof.
  apply same_loop_turn. intros w. unfold Dispatch.queue_get.
  by destruct (D._queue _).
Qed.

Lemma turn_set_routed t k0 (f : World → list Delivery) :
  keeps (keeps_turn t k0) (modify (λ w, set_routed (f w) w)).
Proof. by apply same_loop_turn. Qed.

Lemma turn_set_calls t k0 (f : World → list (string * Call)) :
  keeps (keeps_turn t k0) (modify (λ w, set_calls (f w) w)).
Proof. by apply same_loop_turn. Qed.

Lemma turn_set_heap t k0 (f : World → gmap HandlerRef EH.t) :
  keeps (keeps_turn t k0) (modify (λ w, set_heap (f w) w)).
Proof. by apply same_loop_turn. Qed.

Lemma elem_of_woken p w t :
  t ∈ woken p w ↔ ∃ i, tasks w !! t = Some i ∧ should_wake p i = true.
Proof.
  unfold woken. rewrite list_elem_of_fmap. split.
  - intros ([t' i] & -> & [Hp Hi%elem_of_map_to_list]%list_elem_of_filter).
    eauto.
  - intros (i & Hi & Hp). exists (t, i). split; [done|].
    apply list_elem_of_filter. split; [done|by apply elem_of_map_to_list].
Qed.

Lemma NoDup_woken p w : NoDup (woken p w).
Proof.
  unfold woken. 
  eapply NoDup_fmap_fst.
  - intros t i1 i2 [_ H1%elem_of_map_to_list]%list_elem_of_filter
                   [_ H2%elem_of_map_to_list]%list_elem_of_filter.
    congruence.
  - apply NoDup_filter, NoDup_map_to_list.
Qed.

Lemma wake_eq p w :
  wake p w
  = (set_ready (ready w ++ woken p w)
       (set_tasks ((λ i, if should_wake p i
                         then mkTaskInfo (coro i) None (done_callbacks i)
                         else i) <$> tasks w) w), Ok tt).
Proof. reflexivity. Qed.

Lemma lookup_wake p w t :
  tasks (wake p w).1 !! t
  = (λ i, if should_wake p i
          then mkTaskInfo (coro i) None (done_callbacks i) else i)
      <$> tasks w !! t.
Proof. rewrite wake_eq. cbn. by rewrite lookup_fmap. Qed.

Lemma turn_wake t k0 p : keeps (keeps_turn t k0) (wake p).
Proof.
  intros w [[Hit Hif Hir Hd Hnd Hw] Hlive Hnr Hnw Hco].
  assert (Hwoken : ∀ x, x ∈ woken p w →
            ∃ i on, tasks w !! x = Some i ∧ waiting i = Some on).
  { intros x (i & Hi & Hp)%elem_of_woken. unfold should_wake in Hp.
    destruct (waiting i) eqn:E; [eauto|done]. }
  split; [split|..].
  - intros x. rewrite lookup_wake, fmap_is_Some. apply Hit.
  - apply Hif.
  - rewrite wake_eq. cbn. intros x [?|Hx]%elem_of_app; [auto|].
    destruct (Hwoken x Hx) as (i & on & Hi & _). apply Hit. eauto.
  - intros x. rewrite lookup_wake, fmap_is_Some. apply Hd.
  - rewrite wake_eq. cbn. apply NoDup_app. split_and!; [done| |apply NoDup_woken].
    intros x Hx Hx'. destruct (Hwoken x Hx') as (i & on & Hi & Hon).
    rewrite (Hw x i Hx Hi) in Hon. done.
  - intros x i' Hx. rewrite lookup_wake.
    destruct (tasks w !! x) as [i|] eqn:Hi; [|done]. simpl. intros [= <-].
    destruct (should_wake p i) eqn:Hp; [done|].
    rewrite wake_eq in Hx. cbn in Hx.
    apply elem_of_app in Hx as [Hx|Hx]; [by eapply Hw|].
    apply elem_of_woken in Hx as (i2 & Hi2 & Hp2). congruence.
  - rewrite lookup_wake, fmap_is_Some. done.
  - rewrite wake_eq. cbn. intros [?|Hx]%elem_of_app; [done|].
    destruct (Hwoken t Hx) as (i & on & Hi & Hon).
    rewrite (Hnw i Hi) in Hon. done.
  - intros i'. rewrite lookup_wake.
    destruct (tasks w !! t) as [i|] eqn:Hi; [|done]. simpl. intros [= <-].
    destruct (should_wake p i); [done|]. by apply Hnw.
  - intros i'. rewrite lookup_wake.
    destruct (tasks w !! t) as [i|] eqn:Hi; [|done]. simpl. intros [= <-].
    destruct (should_wake p i); cbn; by apply Hco.
Qed.

#[global] Hint Resolve turn_create_task turn_add_done_callback turn_update
  turn_update_this turn_write_flag turn_queue_get turn_set_routed
  turn_set_calls turn_set_heap turn_wake : turn.

Lemma turn_event_set t k0 ev : keeps (keeps_turn t k0) (event_set ev).
Proof. unfold event_set. repeat keeps_step; auto with turn. Qed.

Lemma turn_event_clear t k0 ev : keeps (keeps_turn t k0) (event_clear ev).
Proof. unfold event_clear. auto with turn. Qed.

#[global] Hint Resolve turn_event_set turn_event_clear : turn.

Lemma turn_call t k0 self params :
  keeps (keeps_turn t k0) (EventHandler.__call__ self params).
Proof. unfold EventHandler.__call__. repeat keeps_step; auto with turn. Qed.

Lemma turn_task_done t k0 self fut :
  keeps (keeps_turn t k0) (EventHandler._task_done_callback self fut).
Proof. unfold EventHandler._task_done_callback. auto with turn. Qed.

Lemma turn_handler_start_resumed t k0 self :
  keeps (keeps_turn t k0) (EventHandler.start_resumed self).
Proof.
  unfold EventHandler.start_resumed, EventHandler.start_running.
  repeat keeps_step; auto with turn.
Qed.

Lemma turn_handler_start t k0 self :
  keeps (keeps_turn t k0) (EventHandler.start self).
Proof.
  pose proof turn_handler_start_resumed.
  unfold EventHandler.start, EventHandler.start_running.
  repeat keeps_step; auto with turn.
Qed.

Lemma turn_handler_stop_resumed t k0 self :
  keeps (keeps_turn t k0) (EventHandler.stop_resumed self).
Proof. unfold EventHandler.stop_resumed. repeat keeps_step; auto with turn. Qed.

Lemma turn_handler_stop t k0 self :
  keeps (keeps_turn t k0) (EventHandler.stop self).
Proof.
  pose proof turn_handler_stop_resumed.
  unfold EventHandler.stop. repeat keeps_step; auto with turn.
Qed.

#[global] Hint Resolve turn_call turn_task_done turn_handler_start_resumed
  turn_handler_start turn_handler_stop_resumed turn_handler_stop : turn.

Lemma turn_run_deliver t k0 : keeps (keeps_turn t k0) Dispatch._run_deliver.
Proof. unfold Dispatch._run_deliver. repeat keeps_step; auto with turn. Qed.

#[global] Hint Resolve turn_run_deliver : turn.

Lemma turn_run_loop t k0 n : keeps (keeps_turn t k0) (Dispatch._run_loop n).
Proof. induction n as [|n IH]; simpl; repeat keeps_step; auto with turn. Qed.

Lemma turn_start_handlers t k0 hs :
  keeps (keeps_turn t k0) (Dispatch.start_handlers hs).
Proof. induction hs as [|h hs IH]; simpl; repeat keeps_step; auto with turn. Qed.

Lemma turn_stop_tasks t k0 hs : keeps (keeps_turn t k0) (Dispatch.stop_tasks hs).
Proof. induction hs as [|h hs IH]; simpl; repeat keeps_step; auto with turn. Qed.

#[global] Hint Resolve turn_run_loop turn_start_handlers turn_stop_tasks : turn.

Lemma turn_run_coro t k0 k : keeps (keeps_turn t k0) (run_coro k).
Proof.
  destruct k; simpl;
    unfold Dispatch._run_resumed, Dispatch._run, wrapper_task, body,
      Dispatch.stop, Dispatch.stop_handlers_done, Dispatch.stop_resumed,
      Dispatch.start, Dispatch.start_resumed, Dispatch.start_running,
      Dispatch.start_handler_resumed, Dispatch.handlers_values;
    repeat keeps_step; auto with turn.
Qed.

(** The end of a turn. *)
Lemma ids_finish t k0 r w : turn_ok t k0 w → ids_ok (finish t r w).1.
Proof.
  intros Hturn.
  set (w1 := set_finished (<[t := r]> (finished w))
               (set_tasks (delete t (tasks w)) w)).
  (* once [t] has left the unfinished tasks, any other live task can stand
     for the one taking its turn *)
  assert (H1 : ids_ok w1).
  { destruct Hturn as [[Hit Hif Hir Hd Hnd Hw] Hlive Hnr Hnw Hco].
    split; cbn.
    - intros x [i Hi]. apply lookup_delete_Some in Hi as [_ Hi]. eauto.
    - intros x [i Hi]. destruct (decide (x = t)) as [->|]; [auto|].
      rewrite lookup_insert_ne in Hi by done. eauto.
    - done.
    - intros x [i Hi]. apply lookup_delete_Some in Hi as [Hne Hi].
      rewrite lookup_insert_ne by done. eauto.
    - done.
    - intros x i Hx Hi. apply lookup_delete_Some in Hi as [Hne Hi]. eauto. }
  assert (Hids : ∀ (m : M unit), 
            (∀ w, same_loop w (m w).1) → ∀ w, ids_ok w → ids_ok (m w).1).
  { intros m Hm w0 [? ? ? ? ? ?]. destruct (Hm w0) as (Ht & Hr & Hf & Hn).
    split; rewrite ?Ht, ?Hr, ?Hf, ?Hn; done. }
  assert (Hwake : ∀ p w, ids_ok w → ids_ok (wake p w).1).
  { clear. intros p w [Hit Hif Hir Hd Hnd Hw].
    assert (Hwoken : ∀ x, x ∈ woken p w →
              ∃ i on, tasks w !! x = Some i ∧ waiting i = Some on).
    { intros x (i & Hi & Hp)%elem_of_woken. unfold should_wake in Hp.
      destruct (waiting i) eqn:E; [eauto|done]. }
    split.
    - intros x. rewrite lookup_wake, fmap_is_Some. apply Hit.
    - apply Hif.
    - rewrite wake_eq. cbn. intros x [?|Hx]%elem_of_app; [auto|].
      destruct (Hwoken x Hx) as (i & on & Hi & _). apply Hit. eauto.
    - intros x. rewrite lookup_wake, fmap_is_Some. apply Hd.
    - rewrite wake_eq. cbn.
      apply NoDup_app. split_and!; [done| |apply NoDup_woken].
      intros x Hx Hx'. destruct (Hwoken x Hx') as (i & on & Hi & Hon).
      rewrite (Hw x i Hx Hi) in Hon. done.
    - intros x i' Hx. rewrite lookup_wake.
      destruct (tasks w !! x) as [i|] eqn:Hi; [|done]. simpl. intros [= <-].
      destruct (should_wake p i) eqn:Hp; [done|].
      rewrite wake_eq in Hx. cbn in Hx.
      apply elem_of_app in Hx as [Hx|Hx]; [by eapply Hw|].
      apply elem_of_woken in Hx as (i2 & Hi2 & Hp2). congruence. }
  unfold finish. rewrite M_bind_eq. unfold get at 1. cbn [fst snd].
  rewrite M_bind_eq. unfold modify at 1. cbn [fst snd]. fold w1.
  rewrite M_bind_eq.
  set (cbs := for_ _ _).
  assert (Hcbs : ∀ w, same_loop w (cbs w).1).
  { subst cbs. generalize (done_callbacks (tasks w !!! t)). clear.
    intros l. induction l as [|h l IH]; intros w; [done|].
    simpl. rewrite M_bind_eq.
    unfold EventHandler._task_done_callback at 1, update at 1, modify at 1.
    cbn [fst snd].
    destruct (IH (set_heap
                    (<[h:=EH.set_tasks (delete (id_ t) (EH._tasks (heap w !!! h)))
                            (heap w !!! h)]> (heap w)) w))
      as (? & ? & ? & ?).
    done. }
  pose proof (Hids cbs Hcbs w1 H1) as H2.
  destruct (cbs w1) as [w2 [[]|e]]; [|exact H2].
  cbn [fst snd] in H2. rewrite M_bind_eq. unfold get at 1. cbn [fst snd].
  by apply Hwake.
Qed.

#[global] Instance keeps_struct_preorder t k : PreOrder (keeps_struct t k).
Proof.
  split; [intros w H; exact H|intros w1 w2 w3 H1 H2 H; apply H2, H1, H].
Qed.

Create HintDb struct discriminated.

Lemma same_struct_keeps {A} t k0 (m : M A) :
  (∀ w, same_struct w (m w).1) → keeps (keeps_struct t k0) m.
Proof.
  intros H w [Hturn [Hcb Hts Hwp]].
  destruct (H w) as [Hloop Htasks]. split.
  - by apply (same_loop_turn t k0 m (λ w, proj1 (H w)) w).
  - destruct Hloop as (Ht & Hr & Hf & Hn). split.
    + intros x i. rewrite Ht. apply Hcb.
    + intros h k t'. rewrite Htasks, Ht. apply Hts.
    + intros x i ts. rewrite Ht, Hf. apply Hwp.
Qed.

Lemma lookup_total_update (heap : gmap HandlerRef EH.t) self o h :
  <[self := o]> heap !!! h = if decide (self = h) then o else heap !!! h.
Proof.
  destruct (decide (self = h)) as [->|].
  - by rewrite lookup_total_insert_eq.
  - by rewrite lookup_total_insert_ne.
Qed.

Lemma struct_update t k0 self f :
  (∀ o, EH._tasks (f o) = EH._tasks o) →
  keeps (keeps_struct t k0) (update self f).
Proof.
  intros Hf. apply same_struct_keeps. intros w. split; [done|].
  intros h. cbn. rewrite lookup_total_update.
  destruct (decide (self = h)) as [->|]; [apply Hf|done].
Qed.

Lemma struct_update_this t k0 f : keeps (keeps_struct t k0) (update_this f).
Proof. by apply same_struct_keeps. Qed.

Lemma struct_write_flag t k0 ev v : keeps (keeps_struct t k0) (write_flag ev v).
Proof.
  apply same_struct_keeps. intros w. destruct ev; try done.
  split; [done|]. intros h'. cbn. rewrite lookup_total_update.
  by destruct (decide (h = h')) as [->|].
Qed.

Lemma struct_queue_get t k0 : keeps (keeps_struct t k0) Dispatch.queue_get.
Proof.
  apply same_struct_keeps. intros w. unfold Dispatch.queue_get.
  by destruct (D._queue _).
Qed.

Lemma struct_set_routed t k0 (f : World → list Delivery) :
  keeps (keeps_struct t k0) (modify (λ w, set_routed (f w) w)).
Proof. by apply same_struct_keeps. Qed.

Lemma struct_set_calls t k0 (f : World → list (string * Call)) :
  keeps (keeps_struct t k0) (modify (λ w, set_calls (f w) w)).
Proof. by apply same_struct_keeps. Qed.

Lemma struct_wake t k0 p : keeps (keeps_struct t k0) (wake p).
Proof.
  intros w [Hturn [Hcb Hts Hwp]]. split; [by apply turn_wake|].
  split.
  - intros x i'. rewrite lookup_wake.
    destruct (tasks w !! x) as [i|] eqn:Hi; [|done]. simpl. intros [= <-].
    specialize (Hcb x i Hi). by destruct (should_wake p i).
  - intros h k t'. rewrite wake_eq. cbn. rewrite Hts, lookup_fmap.
    split; intros [-> (i & Hi & Hd)]; (split; [done|]).
    + rewrite Hi. simpl. eexists. split; [done|].
      by destruct (should_wake p i).
    + destruct (tasks w !! k) as [i0|]; [|done]. simpl in Hi.
      injection Hi as <-. exists i0. split; [done|].
      by destruct (should_wake p i0).
  - intros x i' ts. rewrite lookup_wake.
    destruct (tasks w !! x) as [i|] eqn:Hi; [|done]. simpl. intros [= <-].
    destruct (should_wake p i); [done|]. cbn. eauto.
Qed.

(** A new task that is not an invocation. *)
Lemma struct_create_task t k0 k :
  family k ≠ F_invocation → keeps (keeps_struct t k0) (create_task k).
Proof.
  intros Hk w [Hturn [Hcb Hts Hwp]]. split; [by apply turn_create_task|].
  assert (Hfresh : tasks w !! next_task w = None).
  { destruct (tasks w !! next_task w) eqn:E; [|done].
    assert (next_task w < next_task w)
      by (apply (ids_tasks w (turn_ids t k0 w Hturn)); eauto). lia. }
  unfold create_task. split; cbn.
  - intros x i. destruct (decide (x = next_task w)) as [->|].
    + rewrite lookup_insert_eq. intros [= <-]. cbn. by rewrite decide_False.
    + rewrite lookup_insert_ne by done. apply Hcb.
  - intros h k' t'. rewrite Hts.
    split; intros [-> (i & Hi & Hd)]; (split; [done|]).
    + exists i. split; [|done]. rewrite lookup_insert_ne; [done|congruence].
    + destruct (decide (k' = next_task w)) as [->|].
      * rewrite lookup_insert_eq in Hi. injection Hi as <-. done.
      * rewrite lookup_insert_ne in Hi by done. eauto.
  - intros x i ts. destruct (decide (x = next_task w)) as [->|].
    + rewrite lookup_insert_eq. by intros [= <-].
    + rewrite lookup_insert_ne by done. apply Hwp.
Qed.

#[global] Hint Resolve struct_update_this struct_write_flag struct_queue_get
  struct_set_routed struct_set_calls struct_wake : struct.

#[global] Hint Extern 1 (keeps (keeps_struct _ _) (update _ _)) =>
  apply struct_update; intros []; reflexivity : struct.

#[global] Hint Extern 1 (keeps (keeps_struct _ _) (create_task _)) =>
  apply struct_create_task; discriminate : struct.

Lemma struct_event_set t k0 ev : keeps (keeps_struct t k0) (event_set ev).
Proof. unfold event_set. repeat keeps_step; auto with struct. Qed.

Lemma struct_event_clear t k0 ev : keeps (keeps_struct t k0) (event_clear ev).
Proof. unfold event_clear. auto with struct. Qed.

#[global] Hint Resolve struct_event_set struct_event_clear : struct.

Lemma spawn_eq self params callback w :
  spawn self params callback w
  = (mkWorld (dispatch w)
       (<[self := EH.set_tasks
                    (<[next_task w := next_task w]>
                       (EH._tasks (heap w !!! self))) (heap w !!! self)]>
          (heap w))
       (<[next_task w :=
            mkTaskInfo (K_wrapper callback params) None [self]]> (tasks w))
       (ready w ++ [next_task w]) (finished w) (S (next_task w))
       (calls w) (routed w), Ok tt).
Proof.
  unfold spawn, create_task, update, add_done_callback, modify.
  rewrite !M_bind_eq. cbn. f_equal. f_equal.
  by rewrite alter_insert_eq.
Qed.

Lemma struct_spawn t k0 self params callback :
  keeps (keeps_struct t k0) (spawn self params callback).
Proof.
  intros w [Hturn [Hcb Hts Hwp]]. split.
  { assert (Hk : keeps (keeps_turn t k0) (spawn self params callback))
      by (unfold spawn; repeat keeps_step; auto with turn).
    by apply Hk. }
  assert (Hfresh : tasks w !! next_task w = None).
  { destruct (tasks w !! next_task w) eqn:E; [|done].
    assert (next_task w < next_task w)
      by (apply (ids_tasks w (turn_ids t k0 w Hturn)); eauto). lia. }
  rewrite spawn_eq. split; cbn.
  - intros x i. destruct (decide (x = next_task w)) as [->|].
    + rewrite lookup_insert_eq. intros [= <-]. cbn.
      rewrite decide_True by done. eauto.
    + rewrite lookup_insert_ne by done. apply Hcb.
  - intros h k t'. rewrite lookup_total_update.
    destruct (decide (k = next_task w)) as [->|Hk].
    + rewrite lookup_insert_eq.
      destruct (decide (self = h)) as [->|Hh]; cbn.
      * rewrite lookup_insert_eq. split.
        -- intros [= <-]. eauto.
        -- by intros [-> _].
      * rewrite Hts, Hfresh. split.
        -- by intros [_ (? & ? & _)].
        -- intros [_ (i & [= <-] & Hd)]. cbn in Hd. congruence.
    + rewrite (lookup_insert_ne (tasks w)) by done.
      destruct (decide (self = h)) as [->|Hh]; cbn.
      * rewrite lookup_insert_ne by done. apply Hts.
      * apply Hts.
  - intros x i ts. destruct (decide (x = next_task w)) as [->|].
    + rewrite lookup_insert_eq. by intros [= <-].
    + rewrite lookup_insert_ne by done. apply Hwp.
Qed.

Lemma struct_call t k0 self params :
  keeps (keeps_struct t k0) (EventHandler.__call__ self params).
Proof.
  unfold EventHandler.__call__.
  apply (keeps_bind (keeps_struct t k0)); [by intros w|intros h].
  destruct (negb _); [by intros w|].
  apply (keeps_for_ (keeps_struct t k0)). intros callback.
  apply struct_spawn.
Qed.

#[global] Hint Resolve struct_call : struct.

Lemma struct_handler_start_resumed t k0 self :
  keeps (keeps_struct t k0) (EventHandler.start_resumed self).
Proof.
  unfold EventHandler.start_resumed, EventHandler.start_running.
  repeat keeps_step; auto with struct.
Qed.

Lemma struct_handler_start t k0 self :
  keeps (keeps_struct t k0) (EventHandler.start self).
Proof.
  pose proof struct_handler_start_resumed.
  unfold EventHandler.start, EventHandler.start_running.
  repeat keeps_step; auto with struct.
Qed.

Lemma struct_handler_stop_resumed t k0 self :
  keeps (keeps_struct t k0) (EventHandler.stop_resumed self).
Proof.
  unfold EventHandler.stop_resumed. repeat keeps_step; auto with struct.
Qed.

Lemma struct_handler_stop t k0 self :
  keeps (keeps_struct t k0) (EventHandler.stop self).
Proof.
  pose proof struct_handler_stop_resumed.
  unfold EventHandler.stop. repeat keeps_step; auto with struct.
Qed.

#[global] Hint Resolve struct_handler_start_resumed struct_handler_start
  struct_handler_stop_resumed struct_handler_stop : struct.

Lemma struct_run_deliver t k0 : keeps (keeps_struct t k0) Dispatch._run_deliver.
Proof. unfold Dispatch._run_deliver. repeat keeps_step; auto with struct. Qed.

#[global] Hint Resolve struct_run_deliver : struct.

Lemma struct_run_loop t k0 n : keeps (keeps_struct t k0) (Dispatch._run_loop n).
Proof. induction n as [|n IH]; simpl; repeat keeps_step; auto with struct. Qed.

Lemma struct_start_handlers t k0 hs :
  keeps (keeps_struct t k0) (Dispatch.start_handlers hs).
Proof.
  induction hs as [|h hs IH]; simpl; repeat keeps_step; auto with struct.
Qed.

Lemma struct_stop_tasks t k0 hs : keeps (keeps_struct t k0) (Dispatch.stop_tasks hs).
Proof.
  induction hs as [|h hs IH]; simpl; repeat keeps_step; auto with struct.
Qed.

#[global] Hint Resolve struct_run_loop struct_start_handlers
  struct_stop_tasks : struct.

Lemma struct_run_coro t k0 k : keeps (keeps_struct t k0) (run_coro k).
Proof.
  destruct k; simpl;
    unfold Dispatch._run_resumed, Dispatch._run, wrapper_task, body,
      Dispatch.stop, Dispatch.stop_handlers_done, Dispatch.stop_resumed,
      Dispatch.start, Dispatch.start_resumed, Dispatch.start_running,
      Dispatch.start_handler_resumed, Dispatch.handlers_values;
    repeat keeps_step; auto with struct.
Qed.

(* ===================================================================== *)
(** ** The life cycle of the engine and of its handlers *)
(* ===================================================================== *)

#[global] Instance keeps_life_preorder t k : PreOrder (keeps_life t k).
Proof.
  split; [intros w H; exact H|intros w1 w2 w3 H1 H2 H; apply H2, H1, H].
Qed.

Lemma same_life_struct w w' : same_life w w' → same_struct w w'.
Proof. intros []. by repeat split. Qed.

Lemma same_life_ok w w' : same_life w w' → life_ok w → life_ok w'.
Proof.
  intros [Ht Hr Hf Hn Hht Hhr Hhss Hhsc Hdr Hdss Hdsc Hdh] Hl.
  destruct Hl as [L1 L2 L3 L4 L5 L6 L7 L8 L9 L10 L11 L12].
  split.
  - intros h. rewrite Hhr, Hhss, Hhsc. apply L1.
  - intros h. rewrite Hhsc, Hhss. apply L2.
  - intros h. rewrite Hhr, Hht, Hhss, Hhsc, Ht. apply L3.
  - intros h t info. rewrite Ht, Hhr, Hhss, Hhsc, Hht. apply L4.
  - intros h t1 t2 i1 i2. rewrite Ht. apply L5.
  - intros t1 t2 i1 i2. rewrite Ht. apply L6.
  - intros t info. rewrite Ht. apply L7.
  - intros t info h. rewrite Ht. apply L8.
  - intros m mi. rewrite Ht, Hdr. apply L9.
  - rewrite Hdr, Hdh. intros Hd e h He. rewrite Hhr, Ht. by apply (L10 Hd e h).
  - intros m mi. rewrite Ht, Hdsc. apply L11.
  - rewrite Ht, Hdss, Hdsc. apply L12.
Qed.

Lemma same_life_Inv w w' : same_life w w' → Inv w → Inv w'.
Proof.
  intros Hs [Hi Hst Hl]. pose proof (same_life_struct _ _ Hs) as [Hloop Hts].
  destruct Hs as [Ht Hr Hf Hn Hht Hhr Hhss Hhsc Hdr Hdss Hdsc Hdh].
  split.
  - destruct Hi. split; rewrite ?Ht, ?Hr, ?Hf, ?Hn; done.
  - destruct Hst as [Hcb Htk Hwp]. split.
    + intros x i. rewrite Ht. apply Hcb.
    + intros h k t'. rewrite Hht, Ht. apply Htk.
    + intros x i ts. rewrite Ht, Hf. apply Hwp.
  - eapply same_life_ok; [|done]. by split.
Qed.

Lemma same_life_keeps {A} t k0 (m : M A) :
  (∀ w, same_life w (m w).1) → keeps (keeps_life t k0) m.
Proof.
  intros H w [Hst Hl]. split.
  - apply (same_struct_keeps t k0 m); [|done].
    intros w0. apply same_life_struct, H.
  - eapply same_life_ok; [apply H|done].
Qed.

Create HintDb life discriminated.

Lemma life_queue_get t k0 : keeps (keeps_life t k0) Dispatch.queue_get.
Proof.
  apply same_life_keeps. intros w. unfold Dispatch.queue_get.
  by destruct (D._queue _).
Qed.

Lemma life_set_routed t k0 (f : World → list Delivery) :
  keeps (keeps_life t k0) (modify (λ w, set_routed (f w) w)).
Proof. by apply same_life_keeps. Qed.

Lemma life_set_calls t k0 (f : World → list (string * Call)) :
  keeps (keeps_life t k0) (modify (λ w, set_calls (f w) w)).
Proof. by apply same_life_keeps. Qed.

Lemma life_clear_resume t k0 :
  keeps (keeps_life t k0) (event_clear Ev_resume_processing).
Proof. by apply same_life_keeps. Qed.

#[global] Hint Resolve life_queue_get life_set_routed life_set_calls
  life_clear_resume : life.

Lemma struct_shape w : struct_ok w → shape_ok w.
Proof. intros []. by split. Qed.

Lemma lifecycle_stop_resumed h : lifecycle (K_handler_stop_resumed h).
Proof. by split. Qed.

Lemma lifecycle_handler_stop h : lifecycle (K_handler_stop h).
Proof. by split. Qed.

Lemma lifecycle_foreground k : foreground k → lifecycle k.
Proof. intros [H|H]; split; rewrite H; done. Qed.

Lemma lifecycle_stopping k : stopping k → lifecycle k.
Proof. by destruct k; intros []; split. Qed.

Lemma lifecycle_family_hstop k h : family k = F_handler_stop h → lifecycle k.
Proof. intros H. split; rewrite H; done. Qed.

Lemma lifecycle_family_start k : family k = F_start → lifecycle k.
Proof. intros H. split; rewrite H; done. Qed.

#[global] Hint Resolve lifecycle_stop_resumed lifecycle_handler_stop
  lifecycle_foreground lifecycle_stopping lifecycle_family_hstop
  lifecycle_family_start : life.

Lemma life_evolves w w' :
  evolves w w' → ids_ok w' → shape_ok w' → life_ok w → life_ok w'.
Proof.
  intros [Hkeep Hold Hfin Hhr Hhss Hhsc Hht Hdr Hdss Hdsc Hdh] Hids Hst Hl.
  destruct Hl as [L1 L2 L3 L4 L5 L6 L7 L8 L9 L10 L11 L12].
  (* a task of the life cycle found after is the same task before *)
  assert (Hback : ∀ x i', tasks w' !! x = Some i' → lifecycle (coro i') →
            ∃ i, tasks w !! x = Some i ∧ coro i = coro i'
                 ∧ wait_rel w' i i').
  { intros x i' Hi' Hlc. destruct (Hold x i' Hi' Hlc) as (i & Hi & Hc).
    destruct (Hkeep x i Hi) as (i2 & Hi2 & _ & Hw); [by rewrite Hc|].
    assert (i2 = i') as -> by congruence. eauto. }
  (* a task all of whose awaited tasks are finished waits for none of the
     tasks a handler still holds *)
  assert (Hempty : ∀ h (ts : list Task),
            (∀ k, is_Some (EH._tasks (obj w' h) !! k) → k ∈ ts) →
            (∀ t, t ∈ ts → is_Some (finished w' !! t)) →
            EH._tasks (obj w' h) = ∅).
  { intros h ts Hsub Hall. apply map_eq. intros k. rewrite lookup_empty.
    destruct (EH._tasks (obj w' h) !! k) as [t'|] eqn:Hk; [|done].
    exfalso. assert (Hin : k ∈ ts) by (apply Hsub; eauto).
    apply (shape_sets w' Hst) in Hk as [_ (i & Hi & _)].
    pose proof (ids_disjoint w' Hids k (ex_intro _ i Hi)) as Hnone.
    destruct (Hall k Hin) as [? Hf]. congruence. }
  split.
  - intros h. rewrite Hhr, Hhss, Hhsc. apply L1.
  - intros h. rewrite Hhsc, Hhss. apply L2.
  - intros h. rewrite Hhr, Hhss, Hhsc. intros Hr.
    destruct (L3 h Hr) as [[He Hs]|(t & i & Hi & Hc)].
    + left. split; [|done]. apply map_eq. intros k. rewrite lookup_empty.
      destruct (EH._tasks (obj w' h) !! k) eqn:Hk; [|done].
      destruct (Hht h Hr k) as [? Hk']; [by rewrite Hk|].
      by rewrite He, lookup_empty in Hk'.
    + right. destruct (Hkeep t i Hi) as (i' & Hi' & Hc' & _).
      { rewrite Hc. auto with life. }
      exists t, i'. split; [done|congruence].
  - intros h t i' Hi' Hc'. rewrite Hhr, Hhss, Hhsc.
    destruct (Hback t i' Hi') as (i & Hi & Hc & Hw).
    { rewrite Hc'. auto with life. }
    destruct (L4 h t i Hi) as (Hr & Hs & Hcpl & Hwait); [congruence|].
    split_and!; [done..|].
    destruct Hw as [->|[[-> (ev & Hev & _)]|[-> (ts & Hts & Hall)]]].
    + destruct (waiting i) as [[ev|active]|].
      * done.
      * intros k Hk. apply Hwait. by apply Hht.
      * apply map_eq. intros k. rewrite lookup_empty.
        destruct (EH._tasks (obj w' h) !! k) eqn:Hk; [|done].
        destruct (Hht h Hr k) as [? Hk']; [by rewrite Hk|].
        by rewrite Hwait, lookup_empty in Hk'.
    + by rewrite Hev in Hwait.
    + rewrite Hts in Hwait. apply (Hempty h ts); [|done].
      intros k Hk. apply Hwait. by apply Hht.
  - intros h t1 t2 i1 i2 H1 H2 Hc1 Hc2.
    destruct (Hold t1 i1 H1) as (j1 & Hj1 & Hcj1);
      [rewrite Hc1; auto with life|].
    destruct (Hold t2 i2 H2) as (j2 & Hj2 & Hcj2);
      [rewrite Hc2; auto with life|].
    apply (L5 h t1 t2 j1 j2); congruence.
  - intros t1 t2 i1 i2 H1 H2 Hf1 Hf2.
    destruct (Hold t1 i1 H1) as (j1 & Hj1 & Hcj1); [auto with life|].
    destruct (Hold t2 i2 H2) as (j2 & Hj2 & Hcj2); [auto with life|].
    apply (L6 t1 t2 j1 j2); congruence.
  - intros t i' Hi' Hf.
    destruct (Hold t i' Hi') as (i & Hi & Hc); [eauto with life|].
    rewrite <- Hc. apply (L7 t i Hi). by rewrite Hc.
  - intros t i' h Hi' Hf.
    destruct (Hold t i' Hi') as (i & Hi & Hc); [eauto with life|].
    destruct (L8 t i h Hi) as (m & mi & ts & Hm & Hcm & Hwm & Hin);
      [by rewrite Hc|].
    destruct (Hkeep m mi Hm) as (mi' & Hmi' & Hcm' & Hw).
    { rewrite Hcm. by split. }
    exists m, mi', ts. split_and!; [done|congruence| |done].
    destruct Hw as [->|[[_ (ev & Hev & _)]|[_ (ts' & Hts' & Hall)]]].
    + done.
    + congruence.
    + exfalso. assert (ts' = ts) as -> by congruence.
      destruct (Hall t Hin) as [? Hft].
      pose proof (ids_disjoint w' Hids t (ex_intro _ i' Hi')). congruence.
  - intros m mi' Hm Hs. rewrite Hdr.
    destruct (Hold m mi' Hm) as (mi & Hmi & Hc); [auto with life|].
    apply (L9 m mi Hmi). by rewrite Hc.
  - rewrite Hdr. intros Hd e h He.
    destruct (Hdh e h He) as [He'|?]; [|by left].
    rewrite Hhr. destruct (L10 Hd e h He') as [?|(t & i & Hi & Hc)]; [by left|].
    right. destruct (Hkeep t i Hi) as (i' & Hi' & Hc' & _).
    { rewrite Hc. auto with life. }
    exists t, i'. split; [done|congruence].
  - intros m mi' Hm Hc'.
    destruct (Hback m mi' Hm) as (mi & Hmi & Hc & Hw).
    { rewrite Hc'. by split. }
    pose proof (L11 m mi Hmi) as Hw0. rewrite Hc, Hc' in Hw0.
    specialize (Hw0 eq_refl).
    destruct Hw as [->|[[-> (ev & Hev & Hsc)]|[-> (ts & Hts & _)]]].
    + destruct (waiting mi); [done|auto].
    + rewrite Hev in Hw0. injection Hw0 as ->. auto.
    + rewrite Hts in Hw0. done.
  - intros Hnone. rewrite Hdss. intros Hs. apply Hdsc, L12; [|done].
    intros m mi Hmi Hst'.
    destruct (Hkeep m mi Hmi) as (mi' & Hmi' & Hc' & _); [auto with life|].
    apply (Hnone m mi' Hmi'). by rewrite Hc'.
Qed.

(* ===================================================================== *)
(** ** A turn of a task, from start to end *)
(* ===================================================================== *)

Lemma outcome_in_bind {A} F (m : M A) (k : A → M Outcome) :
  (∀ a, outcome_in F (k a)) → outcome_in F (m ≫= k).
Proof.
  intros Hk w. rewrite M_bind_eq. destruct (m w) as [w' [a|e]]; [|done].
  apply Hk.
Qed.

Ltac outcome_step :=
  lazymatch goal with
  | |- outcome_in _ (mret _) => by intros ?
  | |- outcome_in _ (raise _) => by intros ?
  | |- outcome_in _ (_ ≫= _) => apply outcome_in_bind; intros ?
  | |- outcome_in _ (if ?b then _ else _) => destruct b
  | |- outcome_in _ (match ?x with _ => _ end) => destruct x
  end.

Lemma outcome_run_loop n : outcome_in F_run (Dispatch._run_loop n).
Proof. induction n as [|n IH]; simpl; repeat outcome_step; done. Qed.

Lemma outcome_start_handlers hs :
  outcome_in F_start (Dispatch.start_handlers hs).
Proof. induction hs as [|h hs IH]; simpl; repeat outcome_step; done. Qed.

Lemma outcome_run_coro k : outcome_in (family k) (run_coro k).
Proof.
  pose proof outcome_run_loop. pose proof outcome_start_handlers.
  destruct k; simpl;
    unfold Dispatch._run_resumed, Dispatch._run, wrapper_task, body,
      Dispatch.stop, Dispatch.stop_handlers_done, Dispatch.stop_resumed,
      Dispatch.start, Dispatch.start_resumed, Dispatch.start_running,
      Dispatch.start_handler_resumed, Dispatch.handlers_values,
      EventHandler.stop, EventHandler.stop_resumed;
    repeat outcome_step; done.
Qed.

Lemma finish_eq t r w :
  finish t r w = wake (all_finished (closed t r w)) (closed t r w).
Proof.
  unfold finish, closed. rewrite M_bind_eq. unfold get at 1. cbn [fst snd].
  rewrite M_bind_eq. unfold modify at 1. cbn [fst snd].
  generalize (set_finished (<[t:=r]> (finished w))
                (set_tasks (delete t (tasks w)) w)).
  generalize (done_callbacks (tasks w !!! t)).
  intros l. induction l as [|h l IH]; intros w1.
  - reflexivity.
  - cbn [for_ foldl]. rewrite !M_bind_eq.
    unfold EventHandler._task_done_callback at 1, update at 1, modify at 1.
    cbn [fst snd]. rewrite <- M_bind_eq. rewrite IH. reflexivity.
Qed.

Lemma closed_callbacks t l w1 :
  let w2 := foldl (λ w h, (EventHandler._task_done_callback h t w).1) w1 l in
  same_loop w1 w2
  ∧ dispatch w2 = dispatch w1
  ∧ ∀ h, obj w2 h
         = if decide (h ∈ l)
           then EH.set_tasks (delete t (EH._tasks (obj w1 h))) (obj w1 h)
           else obj w1 h.
Proof.
  revert w1. induction l as [|h0 l IH]; intros w1; cbn [foldl].
  - split_and!; [done..|]. intros h.
    by rewrite decide_False by apply not_elem_of_nil.
  - destruct (IH (EventHandler._task_done_callback h0 t w1).1)
      as (Hloop & Hd & Hobj).
    split_and!; [done..|].
    intros h. rewrite Hobj. cbn. rewrite !lookup_total_update.
    destruct (decide (h0 = h)) as [->|Hne].
    + rewrite (decide_True (P := h ∈ h :: l)) by (by left).
      destruct (decide (h ∈ l)); [|done]. cbn.
      by rewrite delete_delete_eq.
    + destruct (decide (h ∈ l)).
      * by rewrite (decide_True (P := h ∈ h0 :: l)) by (by right).
      * rewrite (decide_False (P := h ∈ h0 :: l)); [done|].
        intros [?|?]%elem_of_cons; done.
Qed.

Lemma ids_wake p w : ids_ok w → ids_ok (wake p w).1.
Proof.
  intros [Hit Hif Hir Hd Hnd Hw].
  assert (Hwoken : ∀ x, x ∈ woken p w →
            ∃ i on, tasks w !! x = Some i ∧ waiting i = Some on).
  { intros x (i & Hi & Hp)%elem_of_woken. unfold should_wake in Hp.
    destruct (waiting i) eqn:E; [eauto|done]. }
  split.
  - intros x. rewrite lookup_wake, fmap_is_Some. apply Hit.
  - apply Hif.
  - rewrite wake_eq. cbn. intros x [?|Hx]%elem_of_app; [auto|].
    destruct (Hwoken x Hx) as (i & on & Hi & _). apply Hit. eauto.
  - intros x. rewrite lookup_wake, fmap_is_Some. apply Hd.
  - rewrite wake_eq. cbn.
    apply NoDup_app. split_and!; [done| |apply NoDup_woken].
    intros x Hx Hx'. destruct (Hwoken x Hx') as (i & on & Hi & Hon).
    rewrite (Hw x i Hx Hi) in Hon. done.
  - intros x i' Hx. rewrite lookup_wake.
    destruct (tasks w !! x) as [i|] eqn:Hi; [|done]. simpl. intros [= <-].
    destruct (should_wake p i) eqn:Hp; [done|].
    rewrite wake_eq in Hx. cbn in Hx.
    apply elem_of_app in Hx as [Hx|Hx]; [by eapply Hw|].
    apply elem_of_woken in Hx as (i2 & Hi2 & Hp2). congruence.
Qed.

Lemma same_loop_ids w w' : same_loop w w' → ids_ok w → ids_ok w'.
Proof.
  intros (Ht & Hr & Hf & Hn) []. split; rewrite ?Ht, ?Hr, ?Hf, ?Hn; done.
Qed.

Lemma ids_closed t k0 r w : turn_ok t k0 w → ids_ok (closed t r w).
Proof.
  intros [[Hit Hif Hir Hd Hnd Hw] Hlive Hnr Hnw Hco]. unfold closed.
  match goal with
  | |- ids_ok (foldl _ ?w1 ?l) =>
      destruct (closed_callbacks t l w1) as (Hloop & _);
      apply (same_loop_ids w1); [exact Hloop|]
  end.
  split; cbn.
  - intros x [i Hi]. apply lookup_delete_Some in Hi as [_ Hi]. eauto.
  - intros x [i Hi]. destruct (decide (x = t)) as [->|]; [auto|].
    rewrite lookup_insert_ne in Hi by done. eauto.
  - done.
  - intros x [i Hi]. apply lookup_delete_Some in Hi as [Hne Hi].
    rewrite lookup_insert_ne by done. eauto.
  - done.
  - intros x i Hx Hi. apply lookup_delete_Some in Hi as [Hne Hi]. eauto.
Qed.

Lemma closed_tasks t r w : tasks (closed t r w) = delete t (tasks w).
Proof.
  unfold closed.
  match goal with
  | |- tasks (foldl _ ?w1 ?l) = _ =>
      destruct (closed_callbacks t l w1) as ((Ht & _) & _)
  end.
  by rewrite Ht.
Qed.

Lemma closed_finished t r w : finished (closed t r w) = <[t := r]> (finished w).
Proof.
  unfold closed.
  match goal with
  | |- finished (foldl _ ?w1 ?l) = _ =>
      destruct (closed_callbacks t l w1) as ((_ & _ & Hf & _) & _)
  end.
  by rewrite Hf.
Qed.

Lemma closed_ready t r w : ready (closed t r w) = ready w.
Proof.
  unfold closed.
  match goal with
  | |- ready (foldl _ ?w1 ?l) = _ =>
      destruct (closed_callbacks t l w1) as ((_ & Hr & _) & _)
  end.
  by rewrite Hr.
Qed.

Lemma closed_dispatch t r w : dispatch (closed t r w) = dispatch w.
Proof.
  unfold closed.
  match goal with
  | |- dispatch (foldl _ ?w1 ?l) = _ =>
      destruct (closed_callbacks t l w1) as (_ & Hd & _)
  end.
  by rewrite Hd.
Qed.

Lemma closed_obj t r w h :
  obj (closed t r w) h
  = if decide (h ∈ done_callbacks (tasks w !!! t))
    then EH.set_tasks (delete t (EH._tasks (obj w h))) (obj w h)
    else obj w h.
Proof.
  unfold closed.
  match goal with
  | |- obj (foldl _ ?w1 ?l) h = _ =>
      destruct (closed_callbacks t l w1) as (_ & _ & Ho)
  end.
  by rewrite Ho.
Qed.

Lemma shape_closed t k0 r w : turn_struct t k0 w → shape_ok (closed t r w).
Proof.
  intros [Hturn [Hcb Hts Hwp]]. split.
  - intros x i. rewrite closed_tasks. intros [_ Hi]%lookup_delete_Some.
    exact (Hcb x i Hi).
  - intros h k t'. rewrite closed_tasks, closed_obj.
    destruct (turn_live t k0 w Hturn) as [it Hit].
    rewrite (lookup_total_correct _ _ _ Hit).
    destruct (decide (k = t)) as [->|Hk].
    + rewrite lookup_delete_eq. split; [|by intros [_ (? & ? & _)]].
      destruct (decide (h ∈ done_callbacks it)) as [Hin|Hnin]; cbn.
      * by rewrite lookup_delete_eq.
      * intros Ht. apply Hts in Ht as [_ (i & Hi & Hd)].
        assert (i = it) as -> by congruence.
        exfalso. apply Hnin. rewrite Hd. by apply list_elem_of_singleton.
    + rewrite lookup_delete_ne by done.
      destruct (decide (h ∈ done_callbacks it)); cbn.
      * rewrite lookup_delete_ne by done. apply Hts.
      * apply Hts.
Qed.

Lemma forallb_finished_false w ts :
  forallb (is_finished w) ts = false →
  ∃ t', t' ∈ ts ∧ finished w !! t' = None.
Proof.
  induction ts as [|t ts IH]; [done|]. cbn [forallb].
  intros [Ht|Hts]%andb_false_iff.
  - exists t. split; [by left|]. unfold is_finished in Ht.
    apply bool_decide_eq_false in Ht.
    destruct (finished w !! t) eqn:E; [|done]. exfalso. apply Ht. eauto.
  - destruct (IH Hts) as (t' & ? & ?). exists t'. split; [by right|done].
Qed.

Lemma forallb_finished_true w ts :
  forallb (is_finished w) ts = true →
  ∀ t, t ∈ ts → is_Some (finished w !! t).
Proof.
  rewrite forallb_forall. intros H t Ht.
  apply list_elem_of_In in Ht. apply H in Ht.
  by apply bool_decide_eq_true in Ht.
Qed.

(** Waking the tasks whose awaited tasks have all finished. *)
Lemma struct_wake_finished w :
  shape_ok w → struct_ok (wake (all_finished w) w).1.
Proof.
  intros [Hcb Hts]. split.
  - intros x i'. rewrite lookup_wake.
    destruct (tasks w !! x) as [i|] eqn:Hi; [|done]. simpl. intros [= <-].
    specialize (Hcb x i Hi). by destruct (should_wake _ i).
  - intros h k t'. rewrite wake_eq. cbn. rewrite Hts, lookup_fmap.
    split; intros [-> (i & Hi & Hd)]; (split; [done|]).
    + rewrite Hi. simpl. eexists. split; [done|].
      by destruct (should_wake _ i).
    + destruct (tasks w !! k) as [i0|]; [|done]. simpl in Hi.
      injection Hi as <-. exists i0. split; [done|].
      by destruct (should_wake _ i0).
  - intros x i' ts. rewrite lookup_wake.
    destruct (tasks w !! x) as [i|] eqn:Hi; [|done]. simpl. intros [= <-].
    destruct (should_wake _ i) eqn:Hsw; [done|]. cbn. intros Hts'.
    unfold should_wake in Hsw. rewrite Hts' in Hsw. cbn in Hsw.
    by apply forallb_finished_false.
Qed.

Lemma evolves_wake_finished w : evolves w (wake (all_finished w) w).1.
Proof.
  split; try done.
  - intros x i Hi _. rewrite lookup_wake, Hi. cbn. eexists. split; [done|].
    destruct (should_wake _ i) eqn:Hsw; cbn; [|by split; [|left]].
    split; [done|]. unfold should_wake in Hsw.
    destruct (waiting i) as [[ev|ts]|] eqn:Hwi; try done.
    right; right. split; [done|]. exists ts. split; [done|].
    cbn in Hsw. cbn. by apply forallb_finished_true.
  - intros x i'. rewrite lookup_wake.
    destruct (tasks w !! x) as [i|]; [|done]. cbn. intros [= <-] _.
    exists i. split; [done|]. by destruct (should_wake _ i).
  - intros e h He. by left.
Qed.

(** A task finishes: what is left to check is the state [closed]. *)
Lemma base_finish t k0 r w :
  turn_struct t k0 w → ids_ok (finish t r w).1 ∧ struct_ok (finish t r w).1.
Proof.
  intros Hts. rewrite finish_eq.
  pose proof (ids_closed t k0 r w (ts_turn t k0 w Hts)) as Hids.
  pose proof (shape_closed t k0 r w Hts) as Hshape.
  split; [by apply ids_wake|by apply struct_wake_finished].
Qed.

Lemma life_finish t k0 r w :
  turn_struct t k0 w → life_ok (closed t r w) → life_ok (finish t r w).1.
Proof.
  intros Hts Hlife. destruct (base_finish t k0 r w Hts) as [Hids Hst].
  rewrite finish_eq in *.
  eapply life_evolves; [apply evolves_wake_finished|done| |done].
  by apply struct_shape.
Qed.

Lemma Inv_finish t k0 r w :
  turn_struct t k0 w → life_ok (closed t r w) → Inv (finish t r w).1.
Proof.
  intros Hts Hlife. destruct (base_finish t k0 r w Hts).
  split; [done..|by eapply life_finish].
Qed.

(** A task that is not an invocation tells no handler when it ends. *)
Lemma closed_obj_plain t k0 r w h :
  turn_struct t k0 w → family k0 ≠ F_invocation →
  obj (closed t r w) h = obj w h.
Proof.
  intros [Hturn Hst] Hf. rewrite closed_obj.
  destruct (turn_live t k0 w Hturn) as [it Hit].
  rewrite (lookup_total_correct _ _ _ Hit).
  pose proof (cb_invocation w Hst t it Hit) as Hcb.
  rewrite (turn_coro t k0 w Hturn it Hit) in Hcb.
  rewrite decide_False in Hcb by done. rewrite Hcb.
  by rewrite decide_False by apply not_elem_of_nil.
Qed.

(* ===================================================================== *)
(** ** Turns of the consumer loop and of the invocations *)
(* ===================================================================== *)

Lemma wait_rel_refl w i : wait_rel w i i.
Proof. by left. Qed.

Lemma evolves_refl w : evolves w w.
Proof.
  split; try done.
  - intros x i Hi _. exists i. split_and!; [done..|apply wait_rel_refl].
  - intros x i Hi _. by exists i.
  - intros e h He. by left.
Qed.

Lemma evolves_trans w1 w2 w3 : evolves w1 w2 → evolves w2 w3 → evolves w1 w3.
Proof.
  intros [K1 O1 F1 R1 S1 C1 T1 DR1 DS1 DC1 DH1]
         [K2 O2 F2 R2 S2 C2 T2 DR2 DS2 DC2 DH2].
  split.
  - intros x i Hi Hlc.
    destruct (K1 x i Hi Hlc) as (i' & Hi' & Hc' & Hw1).
    destruct (K2 x i' Hi') as (i'' & Hi'' & Hc'' & Hw2); [by rewrite Hc'|].
    exists i''. split_and!; [done|congruence|].
    unfold wait_rel in *.
    destruct Hw2 as [Hsame|[[Hn (ev & Hev & Hsc)]|[Hn (ts & Hts & Hall)]]].
    + rewrite Hsame.
      destruct Hw1 as [?|[[Hn1 (ev & Hev & Hsc)]|[Hn1 (ts & Hts & Hall)]]].
      * by left.
      * right; left. split; [done|]. exists ev. split; [done|]. auto.
      * right; right. split; [done|]. exists ts. split; [done|]. auto.
    + destruct Hw1 as [?|[[Hn1 _]|[Hn1 _]]]; [|congruence..].
      right; left. split; [done|]. exists ev. split; [congruence|done].
    + destruct Hw1 as [?|[[Hn1 _]|[Hn1 _]]]; [|congruence..].
      right; right. split; [done|]. exists ts. split; [congruence|done].
  - intros x i'' Hi'' Hlc.
    destruct (O2 x i'' Hi'' Hlc) as (i' & Hi' & Hc').
    destruct (O1 x i' Hi') as (i & Hi & Hc); [by rewrite Hc'|].
    exists i. split; [done|congruence].
  - auto.
  - intros h. by rewrite R2, R1.
  - intros h. by rewrite S2, S1.
  - intros h. by rewrite C2, C1.
  - intros h Hr k Hk. apply T1; [done|]. apply T2; [by rewrite R1|done].
  - by rewrite DR2, DR1.
  - by rewrite DS2, DS1.
  - auto.
  - intros e h He. destruct (DH2 e h He) as [He'|?]; [|by right].
    destruct (DH1 e h He') as [?|Hr]; [by left|]. right. by rewrite R2.
Qed.

#[global] Instance evolves_preorder : PreOrder evolves.
Proof. split; [exact evolves_refl|exact evolves_trans]. Qed.

#[global] Instance keeps_evol_preorder t k : PreOrder (keeps_evol t k).
Proof.
  split.
  - intros w H. split; [done|reflexivity].
  - intros w1 w2 w3 H1 H2 H. destruct (H1 H) as [H' E1].
    destruct (H2 H') as [H'' E2]. split; [done|by etrans].
Qed.

Lemma same_life_evolves w w' : same_life w w' → evolves w w'.
Proof.
  intros [Ht Hr Hf Hn Hht Hhr Hhss Hhsc Hdr Hdss Hdsc Hdh].
  split; try done.
  - intros x i Hi _. rewrite Ht. exists i.
    split_and!; [done..|apply wait_rel_refl].
  - intros x i. rewrite Ht. intros Hi _. by exists i.
  - intros t. by rewrite Hf.
  - intros h _ k. by rewrite Hht.
  - by rewrite Hdsc.
  - intros e h. rewrite Hdh. by left.
Qed.

Lemma same_life_evol {A} t k0 (m : M A) :
  (∀ w, same_life w (m w).1) → keeps (keeps_evol t k0) m.
Proof.
  intros H w Hts. split.
  - apply (same_struct_keeps t k0 m); [|done].
    intros w0. apply same_life_struct, H.
  - apply same_life_evolves, H.
Qed.

Create HintDb evol discriminated.

Lemma evol_queue_get t k0 : keeps (keeps_evol t k0) Dispatch.queue_get.
Proof.
  apply same_life_evol. intros w. unfold Dispatch.queue_get.
  by destruct (D._queue _).
Qed.

Lemma evol_set_routed t k0 (f : World → list Delivery) :
  keeps (keeps_evol t k0) (modify (λ w, set_routed (f w) w)).
Proof. by apply same_life_evol. Qed.

Lemma evol_set_calls t k0 (f : World → list (string * Call)) :
  keeps (keeps_evol t k0) (modify (λ w, set_calls (f w) w)).
Proof. by apply same_life_evol. Qed.

Lemma evol_clear_resume t k0 :
  keeps (keeps_evol t k0) (event_clear Ev_resume_processing).
Proof. by apply same_life_evol. Qed.

#[global] Hint Resolve evol_queue_get evol_set_routed evol_set_calls
  evol_clear_resume : evol.

(** Setting one of the two events of the engine: the flag, then the tasks
    that waited for it. *)
Lemma evolves_event_set ev w :
  ev = Ev_resume_processing ∨ ev = Ev_shutdown_complete →
  evolves w (event_set ev w).1.
Proof.
  intros Hev. unfold event_set. rewrite M_bind_eq. unfold get at 1.
  cbn [fst snd]. destruct (is_set ev w) eqn:Hset; [reflexivity|].
  rewrite M_bind_eq.
  set (w1 := (write_flag ev true w).1).
  assert (H1 : evolves w w1).
  { subst w1. destruct Hev as [->| ->].
    - by apply same_life_evolves.
    - split; try done.
      + intros x i Hi _. exists i. split_and!; [done..|apply wait_rel_refl].
      + intros x i Hi _. by exists i.
      + intros e h He. by left. }
  assert (Hsc : ev = Ev_shutdown_complete →
            D._shutdown_complete (dispatch w1) = true).
  { intros ->. done. }
  change ((write_flag ev true w)) with (w1, Ok tt : result unit).
  cbn [fst snd]. etrans; [exact H1|].
  split; try done.
  - intros x i Hi _. rewrite lookup_wake, Hi. cbn. eexists. split; [done|].
    destruct (should_wake _ i) eqn:Hsw; cbn; [|by split; [|left]].
    split; [done|]. unfold should_wake in Hsw.
    destruct (waiting i) as [on|] eqn:Hwi; [|done].
    apply bool_decide_eq_true in Hsw as ->.
    right; left. split; [done|]. exists ev. split; [done|]. exact Hsc.
  - intros x i'. rewrite lookup_wake.
    destruct (tasks w1 !! x) as [i|]; [|done]. cbn. intros [= <-] _.
    exists i. split; [done|]. by destruct (should_wake _ i).
  - intros e h He. by left.
Qed.

Lemma evol_event_set t k0 ev :
  ev = Ev_resume_processing ∨ ev = Ev_shutdown_complete →
  keeps (keeps_evol t k0) (event_set ev).
Proof.
  intros Hev w Hts. split.
  - by apply struct_event_set.
  - by apply evolves_event_set.
Qed.

#[global] Hint Extern 1 (keeps (keeps_evol _ _) (event_set _)) =>
  apply evol_event_set; auto : evol.

Lemma fresh_task t k0 w : turn_ok t k0 w → tasks w !! next_task w = None.
Proof.
  intros Hturn. destruct (tasks w !! next_task w) eqn:E; [|done].
  assert (next_task w < next_task w)
    by (apply (ids_tasks w (turn_ids t k0 w Hturn)); eauto). lia.
Qed.

Lemma evolves_spawn t k0 self params callback w :
  turn_ok t k0 w → EH.running (obj w self) = true →
  evolves w (spawn self params callback w).1
  ∧ EH.running (obj (spawn self params callback w).1 self) = true.
Proof.
  intros Hturn Hrun. pose proof (fresh_task t k0 w Hturn) as Hfresh.
  rewrite spawn_eq. cbn [fst]. split.
  - split; cbn; try done.
    + intros x i Hi _. exists i. split_and!; [|done|apply wait_rel_refl].
      rewrite lookup_insert_ne; [done|congruence].
    + intros x i'. destruct (decide (x = next_task w)) as [->|].
      * rewrite lookup_insert_eq. intros [= <-] [_ Hl]. by cbn in Hl.
      * rewrite lookup_insert_ne by done. intros Hi _. by exists i'.
    + intros h. rewrite lookup_total_update. by destruct (decide _) as [->|].
    + intros h. rewrite lookup_total_update. by destruct (decide _) as [->|].
    + intros h. rewrite lookup_total_update. by destruct (decide _) as [->|].
    + intros h Hr k. rewrite lookup_total_update.
      destruct (decide (self = h)) as [->|]; [congruence|done].
    + intros e h He. by left.
  - cbn. by rewrite lookup_total_insert_eq.
Qed.

Lemma call_eq self params w :
  EventHandler.__call__ self params w
  = if EH.running (obj w self)
    then for_ (EH._callbacks (obj w self)) (spawn self params) w
    else (w, Raise RuntimeError).
Proof.
  unfold EventHandler.__call__, deref. rewrite M_bind_eq. cbn [fst snd].
  by destruct (EH.running (obj w self)).
Qed.

Lemma evol_call t k0 self params :
  keeps (keeps_evol t k0) (EventHandler.__call__ self params).
Proof.
  intros w Hts. rewrite call_eq.
  destruct (EH.running (obj w self)) eqn:Hrun.
  2:{ split; [done|reflexivity]. }
  generalize (EH._callbacks (obj w self)). intros l.
  revert w Hts Hrun. induction l as [|cb l IH]; intros w Hts Hrun.
  - split; [done|reflexivity].
  - cbn [for_]. rewrite M_bind_eq.
    destruct (evolves_spawn t k0 self params cb w) as [Hev Hrun'];
      [apply Hts|done|].
    pose proof (struct_spawn t k0 self params cb w Hts) as Hts'.
    rewrite spawn_eq in *. cbn [fst snd] in *.
    destruct (IH _ Hts' Hrun') as [Hts'' Hev'].
    split; [done|by etrans].
Qed.

#[global] Hint Resolve evol_call : evol.

Lemma evol_run_deliver t k0 : keeps (keeps_evol t k0) Dispatch._run_deliver.
Proof. unfold Dispatch._run_deliver. repeat keeps_step; auto with evol. Qed.

#[global] Hint Resolve evol_run_deliver : evol.

Lemma evol_run_loop t k0 n : keeps (keeps_evol t k0) (Dispatch._run_loop n).
Proof. induction n as [|n IH]; simpl; repeat keeps_step; auto with evol. Qed.

#[global] Hint Resolve evol_run_loop : evol.

(** The coroutines outside the life cycle. *)
Lemma evol_run_coro t k0 k :
  ¬ lifecycle k → keeps (keeps_evol t k0) (run_coro k).
Proof.
  intros Hk.
  destruct k; simpl; try (exfalso; apply Hk; by split);
    unfold Dispatch._run_resumed, Dispatch._run, wrapper_task, body;
    repeat keeps_step; auto with evol.
Qed.

(** The start of a turn: the task at the front of the ready queue. *)
Lemma turn_begin t rest info w :
  Inv w → ready w = t :: rest → tasks w !! t = Some info →
  turn_struct t (coro info) (set_ready rest w) ∧ life_ok (set_ready rest w).
Proof.
  intros [[Hit Hif Hir Hd Hnd Hw] [Hcb Hts Hwp] Hl] Hready Hinfo.
  rewrite Hready in *. apply NoDup_cons in Hnd as [Hnin Hnd].
  split.
  - split; [split; [split|..]|split]; cbn.
    + done.
    + done.
    + intros x Hx. apply Hir. by right.
    + done.
    + done.
    + intros x i Hx Hi. apply (Hw x i); [by right|done].
    + eauto.
    + done.
    + intros i Hi. apply (Hw t i); [by left|done].
    + intros i Hi. congruence.
    + done.
    + done.
    + done.
  - destruct Hl. by split.
Qed.

Lemma lookup_set_coro t k' on w x :
  tasks (set_coro t k' on w).1 !! x
  = (if decide (t = x)
     then λ i, mkTaskInfo k' on (done_callbacks i) else id) <$> tasks w !! x.
Proof. unfold set_coro, modify. cbn. apply lookup_alter_info. Qed.

Lemma base_suspended t k0 k' on w :
  turn_struct t k0 w → family k' = family k0 → wait_over w on = false →
  ids_ok (suspended t k' on w) ∧ struct_ok (suspended t k' on w).
Proof.
  intros [[[Hit Hif Hir Hd Hnd Hw] Hlive Hnr Hnw Hco] [Hcb Hts Hwp]] Hfam Hover.
  unfold suspended. split; split.
  - intros x. rewrite lookup_set_coro, fmap_is_Some. apply Hit.
  - done.
  - done.
  - intros x. rewrite lookup_set_coro, fmap_is_Some. apply Hd.
  - done.
  - intros x i' Hx. rewrite lookup_set_coro.
    destruct (decide (t = x)) as [->|]; [done|].
    destruct (tasks w !! x) as [i|] eqn:Hi; [|done]. cbn. intros [= <-].
    by eapply Hw.
  - intros x i'. rewrite lookup_set_coro.
    destruct (tasks w !! x) as [i|] eqn:Hi; [|done]. cbn. intros [= <-].
    destruct (decide (t = x)) as [->|]; [|exact (Hcb x i Hi)].
    cbn. rewrite Hfam, <- (Hco i Hi). exact (Hcb x i Hi).
  - intros h k t'. cbn. rewrite Hts.
    split; intros [-> (i & Hi & Hdc)]; (split; [done|]).
    + exists (if decide (t = k)
              then mkTaskInfo k' (Some on) (done_callbacks i) else i).
      split; [|by destruct (decide _)].
      rewrite lookup_alter_info. rewrite Hi. cbn. by destruct (decide _).
    + rewrite lookup_alter_info in Hi.
      destruct (tasks w !! k) as [i0|]; [|done]. cbn in Hi.
      injection Hi as <-. exists i0. split; [done|].
      by destruct (decide _).
  - intros x i' ts. rewrite lookup_set_coro.
    destruct (tasks w !! x) as [i|] eqn:Hi; [|done]. cbn. intros [= <-].
    destruct (decide (t = x)) as [->|]; [|apply (Hwp x i ts Hi)].
    cbn. intros [= ->]. cbn in Hover. by apply forallb_finished_false.
Qed.

Lemma base_yielded t k0 k' w :
  turn_struct t k0 w → family k' = family k0 →
  ids_ok (yielded t k' w) ∧ struct_ok (yielded t k' w).
Proof.
  intros [[[Hit Hif Hir Hd Hnd Hw] Hlive Hnr Hnw Hco] [Hcb Hts Hwp]] Hfam.
  unfold yielded. rewrite M_bind_eq.
  change (set_coro t k' None w) with ((set_coro t k' None w).1, Ok tt : result unit).
  cbn [fst snd]. unfold reschedule, modify. cbn [fst snd].
  split; split; cbn [tasks ready finished next_task heap set_ready].
  - intros x. rewrite lookup_set_coro, fmap_is_Some. apply Hit.
  - done.
  - intros x [?| ->%list_elem_of_singleton]%elem_of_app; auto.
  - intros x. rewrite lookup_set_coro, fmap_is_Some. apply Hd.
  - apply NoDup_app. split_and!; [done| |apply NoDup_singleton].
    by intros x Hx ->%list_elem_of_singleton.
  - intros x i' Hx. rewrite lookup_set_coro.
    destruct (tasks w !! x) as [i|] eqn:Hi; [|done]. cbn. intros [= <-].
    destruct (decide (t = x)) as [->|]; [done|].
    apply elem_of_app in Hx as [Hx|Hx%list_elem_of_singleton]; [|done].
    by eapply Hw.
  - intros x i'. rewrite lookup_set_coro.
    destruct (tasks w !! x) as [i|] eqn:Hi; [|done]. cbn. intros [= <-].
    destruct (decide (t = x)) as [->|]; [|exact (Hcb x i Hi)].
    cbn. rewrite Hfam, <- (Hco i Hi). exact (Hcb x i Hi).
  - intros h k t'. cbn. rewrite Hts.
    split; intros [-> (i & Hi & Hdc)]; (split; [done|]).
    + exists (if decide (t = k)
              then mkTaskInfo k' None (done_callbacks i) else i).
      split; [|by destruct (decide _)].
      rewrite lookup_alter_info. rewrite Hi. cbn. by destruct (decide _).
    + rewrite lookup_alter_info in Hi.
      destruct (tasks w !! k) as [i0|]; [|done]. cbn in Hi.
      injection Hi as <-. exists i0. split; [done|].
      by destruct (decide _).
  - intros x i' ts. rewrite lookup_set_coro.
    destruct (tasks w !! x) as [i|] eqn:Hi; [|done]. cbn. intros [= <-].
    destruct (decide (t = x)) as [->|]; [done|apply (Hwp x i ts Hi)].
Qed.

(** The state at the end of the turn of [t], by the outcome of its
    coroutine. *)
Lemma step_task_eq t info w :
  tasks w !! t = Some info →
  step_task t w
  = match run_coro (coro info) w with
    | (w', Raise e) => (finish t (Some e) w').1
    | (w', Ok Return) => (finish t None w').1
    | (w', Ok (Yield k)) => yielded t k w'
    | (w', Ok (Suspend k on)) =>
        if wait_over w' on then yielded t k w' else suspended t k on w'
    end.
Proof. intros Hi. unfold step_task. by rewrite Hi. Qed.

Lemma evolves_set_coro t k0 k' on w :
  turn_ok t k0 w → ¬ lifecycle k0 → ¬ lifecycle k' →
  evolves w (set_coro t k' on w).1.
Proof.
  intros Hturn Hk0 Hk'. destruct (turn_live t k0 w Hturn) as [it Hit].
  pose proof (turn_coro t k0 w Hturn it Hit) as Hco.
  split; try done.
  - intros x i Hi Hlc. rewrite lookup_set_coro, Hi. cbn.
    destruct (decide (t = x)) as [->|].
    + exfalso. apply Hk0. assert (i = it) as -> by congruence.
      by rewrite <- Hco.
    + exists i. split_and!; [done..|apply wait_rel_refl].
  - intros x i'. rewrite lookup_set_coro.
    destruct (tasks w !! x) as [i|]; [|done]. cbn. intros [= <-].
    destruct (decide (t = x)) as [->|]; cbn; [done|]. intros _. by exists i.
  - intros e h He. by left.
Qed.

Lemma evolves_ready l w : evolves w (set_ready l w).
Proof.
  split; try done.
  - intros x i Hi _. exists i. split_and!; [done..|apply wait_rel_refl].
  - intros x i Hi _. by exists i.
  - intros e h He. by left.
Qed.

Lemma evolves_yielded t k0 k' w :
  turn_ok t k0 w → ¬ lifecycle k0 → ¬ lifecycle k' →
  evolves w (yielded t k' w).
Proof.
  intros Hturn Hk0 Hk'. etrans; [by apply (evolves_set_coro t k0 k' None)|].
  unfold yielded. rewrite M_bind_eq.
  change (set_coro t k' None w) with ((set_coro t k' None w).1, Ok tt : result unit).
  cbn [fst snd]. apply evolves_ready.
Qed.

Lemma evolves_closed t k0 r w :
  turn_ok t k0 w → ¬ lifecycle k0 → evolves w (closed t r w).
Proof.
  intros Hturn Hk0. destruct (turn_live t k0 w Hturn) as [it Hit].
  pose proof (turn_coro t k0 w Hturn it Hit) as Hco.
  split.
  - intros x i Hi Hlc. rewrite closed_tasks. exists i.
    split_and!; [|done|apply wait_rel_refl].
    rewrite lookup_delete_ne; [done|]. intros <-.
    apply Hk0. assert (i = it) as -> by congruence. by rewrite <- Hco.
  - intros x i'. rewrite closed_tasks.
    intros [_ Hi]%lookup_delete_Some _. by exists i'.
  - intros x Hx. rewrite closed_finished.
    destruct (decide (t = x)) as [->|]; [by rewrite lookup_insert_eq|].
    by rewrite lookup_insert_ne.
  - intros h. rewrite closed_obj. by destruct (decide _).
  - intros h. rewrite closed_obj. by destruct (decide _).
  - intros h. rewrite closed_obj. by destruct (decide _).
  - intros h _ k. rewrite closed_obj. destruct (decide _); [|done]. cbn.
    intros [x [_ Hx]%lookup_delete_Some]. eauto.
  - by rewrite closed_dispatch.
  - by rewrite closed_dispatch.
  - by rewrite closed_dispatch.
  - intros e h. rewrite closed_dispatch. by left.
Qed.

(** A turn of the consumer loop or of an invocation keeps the
    invariant. *)
Lemma Inv_step_background t rest info w :
  Inv w → ready w = t :: rest → tasks w !! t = Some info →
  ¬ lifecycle (coro info) →
  Inv (step_task t (set_ready rest w)).
Proof.
  intros HInv Hready Hinfo Hnlc.
  destruct (turn_begin t rest info w HInv Hready Hinfo) as [Hts0 Hl0].
  rewrite (step_task_eq t info) by done.
  destruct (evol_run_coro t (coro info) (coro info) Hnlc _ Hts0) as [Hts Hev].
  pose proof (outcome_run_coro (coro info) (set_ready rest w)) as Hout.
  destruct (run_coro (coro info) (set_ready rest w)) as [w' r].
  cbn [fst snd] in *.
  assert (Hnl' : ∀ k', family k' = family (coro info) → ¬ lifecycle k').
  { intros k' Hf [H1 H2]. apply Hnlc. split; by rewrite <- Hf. }
  assert (Hfin : ∀ r, Inv (finish t r w').1).
  { intros r0. apply (Inv_finish t (coro info)); [done|].
    eapply life_evolves; [|by eapply ids_closed, Hts
                          |by eapply shape_closed|exact Hl0].
    etrans; [exact Hev|]. eapply evolves_closed; [apply Hts|done]. }
  assert (Hyield : ∀ k', family k' = family (coro info) →
            Inv (yielded t k' w')).
  { intros k' Hf. destruct (base_yielded t (coro info) k' w' Hts Hf).
    split; [done..|].
    eapply life_evolves; [|done|by apply struct_shape|exact Hl0].
    etrans; [exact Hev|]. eapply evolves_yielded; [apply Hts|auto..]. }
  destruct r as [[ |k' on|k']|e]; [apply Hfin| |by apply Hyield|apply Hfin].
  destruct (wait_over w' on) eqn:Hover; [by apply Hyield|].
  destruct (base_suspended t (coro info) k' on w' Hts Hout Hover).
  split; [done..|].
  eapply life_evolves; [|done|by apply struct_shape|exact Hl0].
  etrans; [exact Hev|]. eapply evolves_set_coro; [apply Hts|auto..].
Qed.

(* ===================================================================== *)
(** ** Turns of [stop] past its first suspension and of [handler.stop] *)
(* ===================================================================== *)

Lemma foreground_not_invocation k : foreground k → family k ≠ F_invocation.
Proof. intros [H|H]; rewrite H; done. Qed.

Lemma foreground_not_hstop k h : foreground k → family k ≠ F_handler_stop h.
Proof. intros [H|H]; rewrite H; done. Qed.

(** While the call in the foreground takes its turn, no [handler.stop()]
    is left. *)
Lemma no_handler_stop t k0 w :
  turn_ok t k0 w → life_ok w → foreground k0 →
  ∀ x i h, tasks w !! x = Some i → family (coro i) ≠ F_handler_stop h.
Proof.
  intros Hturn Hl Hfg x i h Hi Hf.
  destruct (hstop_owned w Hl x i h Hi Hf) as (m & mi & ts & Hm & Hcm & Hwm & _).
  destruct (turn_live t k0 w Hturn) as [it Hit].
  assert (m = t) as ->.
  { apply (fg_unique w Hl m t mi it Hm Hit).
    - rewrite Hcm. by left.
    - by rewrite (turn_coro t k0 w Hturn it Hit). }
  assert (mi = it) as -> by congruence.
  rewrite (turn_not_waiting t k0 w Hturn it Hit) in Hwm. done.
Qed.

(** While the call in the foreground takes its turn, a registered handler
    of an engine that is not running is not running. *)
Lemma registered_stopped t k0 w :
  turn_ok t k0 w → life_ok w → foreground k0 →
  D.running (dispatch w) = false →
  ∀ e h, D._handlers (dispatch w) !! e = Some h →
         EH.running (obj w h) = false.
Proof.
  intros Hturn Hl Hfg Hd e h He.
  destruct (stopped_handlers w Hl Hd e h He) as [?|(x & i & Hi & Hc)]; [done|].
  exfalso. apply (no_handler_stop t k0 w Hturn Hl Hfg x i h Hi).
  by rewrite Hc.
Qed.

(** The call in the foreground returns, in a state [w1] that differs from
    [w] in the flags of the engine only. *)
Lemma life_closed_fg t k0 r w w1 :
  turn_struct t k0 w → life_ok w → foreground k0 →
  tasks w1 = tasks w → heap w1 = heap w →
  (D._start_shutdown (dispatch w1) = true →
   D._shutdown_complete (dispatch w1) = true) →
  (D.running (dispatch w1) = false →
   ∀ e h, D._handlers (dispatch w1) !! e = Some h →
          EH.running (obj w h) = false) →
  life_ok (closed t r w1).
Proof.
  intros Hts Hl Hfg Htk Hhp Hidle Hreg.
  pose proof (no_handler_stop t k0 w (ts_turn _ _ _ Hts) Hl Hfg) as Hno.
  destruct (turn_live _ _ _ (ts_turn _ _ _ Hts)) as [it Hit].
  pose proof (turn_coro _ _ _ (ts_turn _ _ _ Hts) it Hit) as Hcot.
  assert (Hobj : ∀ h, obj (closed t r w1) h = obj w h).
  { intros h. rewrite closed_obj, Htk, Hhp.
    rewrite (lookup_total_correct _ _ _ Hit).
    pose proof (cb_invocation w (ts_struct _ _ _ Hts) t it Hit) as Hcb.
    rewrite Hcot in Hcb.
    rewrite decide_False in Hcb by (by apply foreground_not_invocation).
    rewrite Hcb. by rewrite decide_False by apply not_elem_of_nil. }
  assert (Htasks : ∀ x i, tasks (closed t r w1) !! x = Some i
                          ↔ x ≠ t ∧ tasks w !! x = Some i).
  { intros x i. rewrite closed_tasks, Htk, lookup_delete_Some.
    split; intros [? ?]; (split; [congruence|done]). }
  assert (Honly : ∀ x i, x ≠ t → tasks w !! x = Some i →
                         ¬ foreground (coro i)).
  { intros x i Hx Hi Hf. apply Hx.
    apply (fg_unique w Hl x t i it Hi Hit Hf). by rewrite Hcot. }
  destruct Hl as [L1 L2 L3 L4 L5 L6 L7 L8 L9 L10 L11 L12].
  split.
  - intros h. rewrite Hobj. apply L1.
  - intros h. rewrite Hobj. apply L2.
  - intros h. rewrite Hobj. intros Hr.
    destruct (L3 h Hr) as [?|(x & i & Hi & Hc)]; [by left|].
    exfalso. apply (Hno x i h Hi). by rewrite Hc.
  - intros h x i [_ Hi]%Htasks Hc.
    exfalso. apply (Hno x i h Hi). by rewrite Hc.
  - intros h t1 t2 i1 i2 [_ H1]%Htasks [_ H2]%Htasks.
    exact (L5 h t1 t2 i1 i2 H1 H2).
  - intros t1 t2 i1 i2 [_ H1]%Htasks [_ H2]%Htasks.
    exact (L6 t1 t2 i1 i2 H1 H2).
  - intros x i [_ Hi]%Htasks. exact (L7 x i Hi).
  - intros x i h [_ Hi]%Htasks Hf. exfalso. by apply (Hno x i h Hi).
  - intros m mi [Hm Hi]%Htasks Hs. exfalso.
    apply (Honly m mi Hm Hi). left. by destruct (coro mi).
  - rewrite closed_dispatch. intros Hd e h He. rewrite Hobj. left.
    by apply (Hreg Hd e h).
  - intros m mi [Hm Hi]%Htasks Hc. exfalso.
    apply (Honly m mi Hm Hi). rewrite Hc. by left.
  - rewrite closed_dispatch. intros _. exact Hidle.
Qed.

(** The only task that may be past the first suspension of [stop] is the
    one in the foreground. *)
Lemma idle_while_fresh t k0 w :
  turn_ok t k0 w → life_ok w → foreground k0 → ¬ stopping k0 →
  D._start_shutdown (dispatch w) = true →
  D._shutdown_complete (dispatch w) = true.
Proof.
  intros Hturn Hl Hfg Hns. apply (idle_complete w Hl).
  intros m mi Hm Hst. destruct (turn_live t k0 w Hturn) as [it Hit].
  assert (m = t) as ->.
  { apply (fg_unique w Hl m t mi it Hm Hit).
    - apply lifecycle_stopping in Hst as Hlc.
      destruct (coro mi); try done; by left.
    - by rewrite (turn_coro t k0 w Hturn it Hit). }
  assert (mi = it) as -> by congruence.
  apply Hns. by rewrite <- (turn_coro t k0 w Hturn it Hit).
Qed.

(** The bookkeeping after a turn, whatever the coroutine. *)
Lemma base_step t rest info w :
  Inv w → ready w = t :: rest → tasks w !! t = Some info →
  ids_ok (step_task t (set_ready rest w))
  ∧ struct_ok (step_task t (set_ready rest w)).
Proof.
  intros HInv Hready Hinfo.
  destruct (turn_begin t rest info w HInv Hready Hinfo) as [Hts0 Hl0].
  rewrite (step_task_eq t info) by done.
  pose proof (struct_run_coro t (coro info) (coro info) _ Hts0) as Hts.
  pose proof (outcome_run_coro (coro info) (set_ready rest w)) as Hout.
  destruct (run_coro (coro info) (set_ready rest w)) as [w' r].
  cbn [fst snd] in *.
  destruct r as [[ |k' on|k']|e].
  - by apply (base_finish t (coro info)).
  - destruct (wait_over w' on) eqn:Hover.
    + by apply (base_yielded t (coro info)).
    + by apply (base_suspended t (coro info)).
  - by apply (base_yielded t (coro info)).
  - by apply (base_finish t (coro info)).
Qed.

(** What is left to prove of a turn: the life cycle, from the state after
    the coroutine has run. *)
Lemma Inv_step_from t rest info w :
  Inv w → ready w = t :: rest → tasks w !! t = Some info →
  (∀ w' r, run_coro (coro info) (set_ready rest w) = (w', r) →
     turn_struct t (coro info) (set_ready rest w) →
     life_ok (set_ready rest w) →
     turn_struct t (coro info) w' →
     match r with
     | Ok Return | Raise _ => ∀ r', life_ok (closed t r' w')
     | Ok (Yield k') => life_ok (yielded t k' w')
     | Ok (Suspend k' on) =>
         if wait_over w' on then life_ok (yielded t k' w')
         else life_ok (suspended t k' on w')
     end) →
  Inv (step_task t (set_ready rest w)).
Proof.
  intros HInv Hready Hinfo Hlife.
  destruct (base_step t rest info w HInv Hready Hinfo) as [Hids Hst].
  split; [done..|].
  destruct (turn_begin t rest info w HInv Hready Hinfo) as [Hts0 Hl0].
  rewrite (step_task_eq t info) by done.
  pose proof (struct_run_coro t (coro info) (coro info) _ Hts0) as Hts.
  specialize (Hlife (run_coro (coro info) (set_ready rest w)).1
                    (run_coro (coro info) (set_ready rest w)).2).
  destruct (run_coro (coro info) (set_ready rest w)) as [w' r].
  cbn [fst snd] in *. specialize (Hlife eq_refl Hts0 Hl0 Hts).
  destruct r as [[ |k' on|k']|e].
  - by apply (life_finish t (coro info)).
  - by destruct (wait_over w' on).
  - done.
  - by apply (life_finish t (coro info)).
Qed.

(** [stop()] resumed after line 133: it returns. *)
Lemma Inv_step_stop_resumed t rest info w :
  Inv w → ready w = t :: rest → tasks w !! t = Some info →
  coro info = K_stop_resumed →
  Inv (step_task t (set_ready rest w)).
Proof.
  intros HInv Hready Hinfo Hco.
  apply (Inv_step_from t rest info w HInv Hready Hinfo).
  rewrite Hco. intros w' r [= <- <-] Hts0 Hl0 _ r'.
  apply (life_closed_fg t K_stop_resumed r' (set_ready rest w));
    [done|done|by left|done|done| |].
  2:{ by apply (registered_stopped t K_stop_resumed);
        [apply Hts0|done|left]. }
  intros _. destruct (turn_live _ _ _ (ts_turn _ _ _ Hts0)) as [it Hit].
  pose proof (stop_woken _ Hl0 t it Hit
                (turn_coro _ _ _ (ts_turn _ _ _ Hts0) it Hit)) as Hw.
  by rewrite (turn_not_waiting _ _ _ (ts_turn _ _ _ Hts0) it Hit) in Hw.
Qed.

(** [stop()] suspended at line 133, in a state [w1] that differs from [w]
    in the flags of the engine only. *)
Lemma life_suspended_stop t k0 w w1 :
  turn_struct t k0 w → life_ok w → family k0 = F_stop →
  tasks w1 = tasks w → heap w1 = heap w →
  D.running (dispatch w1) = false →
  (∀ e h, D._handlers (dispatch w1) !! e = Some h →
          EH.running (obj w h) = false) →
  life_ok (suspended t K_stop_resumed (WaitEvent Ev_shutdown_complete) w1).
Proof.
  intros Hts Hl Hfam Htk Hhp Hnr Hreg.
  assert (Hfg : foreground k0) by (by left).
  pose proof (no_handler_stop t _ w (ts_turn _ _ _ Hts) Hl Hfg) as Hno.
  destruct (turn_live _ _ _ (ts_turn _ _ _ Hts)) as [it Hit].
  pose proof (turn_coro _ _ _ (ts_turn _ _ _ Hts) it Hit) as Hcot.
  assert (Hlook : ∀ x i', tasks (suspended t K_stop_resumed
                             (WaitEvent Ev_shutdown_complete) w1) !! x = Some i' →
            (x = t ∧ coro i' = K_stop_resumed
             ∧ waiting i' = Some (WaitEvent Ev_shutdown_complete))
            ∨ (x ≠ t ∧ tasks w !! x = Some i')).
  { intros x i'. unfold suspended. rewrite lookup_set_coro, Htk.
    destruct (tasks w !! x) as [i|] eqn:Hi; [|done]. cbn. intros [= <-].
    destruct (decide (t = x)) as [->|]; [by left|by right]. }
  assert (Hobj : ∀ h, obj (suspended t K_stop_resumed
                             (WaitEvent Ev_shutdown_complete) w1) h = obj w h).
  { intros h. unfold suspended. cbn. by rewrite Hhp. }
  assert (Honly : ∀ x i, x ≠ t → tasks w !! x = Some i →
                         ¬ foreground (coro i)).
  { intros x i Hx Hi Hf. apply Hx.
    apply (fg_unique w Hl x t i it Hi Hit Hf). by rewrite Hcot. }
  destruct Hl as [L1 L2 L3 L4 L5 L6 L7 L8 L9 L10 L11 L12].
  split.
  - intros h. rewrite Hobj. apply L1.
  - intros h. rewrite Hobj. apply L2.
  - intros h. rewrite Hobj. intros Hr.
    destruct (L3 h Hr) as [?|(x & i & Hi & Hc)]; [by left|].
    exfalso. apply (Hno x i h Hi). by rewrite Hc.
  - intros h x i' Hi' Hc'.
    destruct (Hlook x i' Hi') as [(-> & Hc & _)|[_ Hi]]; [congruence|].
    exfalso. apply (Hno x i' h Hi). by rewrite Hc'.
  - intros h t1 t2 i1 i2 H1 H2 Hc1 Hc2.
    destruct (Hlook t1 i1 H1) as [(-> & Hc & _)|[_ Hi1]]; [congruence|].
    exfalso. apply (Hno t1 i1 h Hi1). by rewrite Hc1.
  - intros t1 t2 i1 i2 H1 H2 Hf1 Hf2.
    destruct (Hlook t1 i1 H1) as [(-> & _)|[Hn1 Hi1]];
      destruct (Hlook t2 i2 H2) as [(-> & _)|[Hn2 Hi2]]; try done.
    + exfalso. by apply (Honly t2 i2).
    + exfalso. by apply (Honly t1 i1).
    + exfalso. by apply (Honly t1 i1).
  - intros x i' Hi' Hf.
    destruct (Hlook x i' Hi') as [(-> & Hc & _)|[Hx Hi]].
    + by rewrite Hc in Hf.
    + exfalso. apply (Honly x i' Hx Hi). by right.
  - intros x i' h Hi' Hf.
    destruct (Hlook x i' Hi') as [(-> & Hc & _)|[_ Hi]].
    + by rewrite Hc in Hf.
    + exfalso. by apply (Hno x i' h Hi).
  - intros m mi Hm Hs. exact Hnr.
  - intros Hd e h He. rewrite Hobj. left. by apply (Hreg e h).
  - intros m mi Hm Hc.
    destruct (Hlook m mi Hm) as [(-> & _ & ->)|[Hx Hi]]; [done|].
    exfalso. apply (Honly m mi Hx Hi). rewrite Hc. by left.
  - intros Hnone. exfalso.
    apply (Hnone t (mkTaskInfo K_stop_resumed
                      (Some (WaitEvent Ev_shutdown_complete))
                      (done_callbacks it))); [|done].
    unfold suspended. rewrite lookup_set_coro, Htk, Hit. cbn.
    by rewrite decide_True.
Qed.

(** [stop()] resumed at line 133, after the handlers have stopped. *)
Lemma Inv_step_stop_handlers_done t rest info w :
  Inv w → ready w = t :: rest → tasks w !! t = Some info →
  coro info = K_stop_handlers_done →
  Inv (step_task t (set_ready rest w)).
Proof.
  intros HInv Hready Hinfo Hco.
  apply (Inv_step_from t rest info w HInv Hready Hinfo).
  rewrite Hco. cbn [run_coro]. unfold Dispatch.stop_handlers_done.
  intros w' r. rewrite M_bind_eq. unfold get at 1. cbn [fst snd].
  destruct (is_set Ev_shutdown_complete (set_ready rest w)) eqn:Hset.
  - intros [= <- <-] Hts0 Hl0 _ r'.
    apply (life_closed_fg t K_stop_handlers_done r' (set_ready rest w));
      [done|done|by left|done|done| |].
    + intros _. exact Hset.
    + by apply (registered_stopped t K_stop_handlers_done);
        [apply Hts0|done|left].
  - intros [= <- <-] Hts0 Hl0 _. cbn [wait_over]. rewrite Hset.
    assert (Hd : D.running (dispatch (set_ready rest w)) = false).
    { destruct (turn_live _ _ _ (ts_turn _ _ _ Hts0)) as [it Hit].
      apply (stopping_not_running _ Hl0 t it Hit).
      by rewrite (turn_coro _ _ _ (ts_turn _ _ _ Hts0) it Hit). }
    apply (life_suspended_stop t K_stop_handlers_done (set_ready rest w));
      [done..|].
    by apply (registered_stopped t K_stop_handlers_done);
      [apply Hts0|done|left|].
Qed.

Lemma hchanged_refl h w : hchanged h id w w.
Proof. split; try done. intros h'. by destruct (decide _) as [->|]. Qed.

Lemma hchanged_update h f w : hchanged h f w (update h f w).1.
Proof. split; try done. intros h'. cbn. apply lookup_total_update. Qed.

Lemma hchanged_trans h f g w w1 w2 :
  hchanged h f w w1 → hchanged h g w1 w2 → hchanged h (g ∘ f) w w2.
Proof.
  intros [T1 F1 D1 O1] [T2 F2 D2 O2]. split; try congruence.
  intros h'. rewrite O2. destruct (decide (h = h')) as [->|].
  - rewrite O1. by rewrite decide_True.
  - rewrite O1. by rewrite decide_False.
Qed.

(** A [handler.stop()] returns. *)
Lemma life_closed_hstop t k0 h f r w w1 :
  turn_struct t k0 w → life_ok w → family k0 = F_handler_stop h →
  hchanged h f w w1 →
  EH.running (f (obj w h)) = false →
  (EH._shutdown_complete (f (obj w h)) = true →
   EH._start_shutdown (f (obj w h)) = true) →
  (settled (f (obj w h))
   ∨ ∃ x i, x ≠ t ∧ tasks w !! x = Some i
            ∧ coro i = K_handler_stop_resumed h) →
  (∀ x i, x ≠ t → tasks w !! x = Some i →
          coro i = K_handler_stop_resumed h → f (obj w h) = obj w h) →
  life_ok (closed t r w1).
Proof.
  intros [Hturn Hst] Hl Hfam [Htk Hfi Hdi Hob] Hrun Hcs Hset Hsame.
  destruct (turn_live _ _ _ Hturn) as [it Hit].
  pose proof (turn_coro _ _ _ Hturn it Hit) as Hcot.
  assert (Hobj : ∀ h', obj (closed t r w1) h'
                       = if decide (h = h') then f (obj w h) else obj w h').
  { intros h'. rewrite closed_obj, Htk.
    rewrite (lookup_total_correct _ _ _ Hit).
    pose proof (cb_invocation w Hst t it Hit) as Hcb.
    rewrite Hcot, Hfam in Hcb. rewrite decide_False in Hcb by done.
    rewrite Hcb. rewrite decide_False by apply not_elem_of_nil. apply Hob. }
  assert (Htasks : ∀ x i, tasks (closed t r w1) !! x = Some i
                          ↔ x ≠ t ∧ tasks w !! x = Some i).
  { intros x i. rewrite closed_tasks, Htk, lookup_delete_Some.
    split; intros [? ?]; (split; [congruence|done]). }
  assert (Hdisp : dispatch (closed t r w1) = dispatch w)
    by (by rewrite closed_dispatch).
  assert (Hnfg : ¬ foreground k0).
  { intros [H|H]; rewrite Hfam in H; done. }
  destruct Hl as [L1 L2 L3 L4 L5 L6 L7 L8 L9 L10 L11 L12].
  split.
  - intros h'. rewrite Hobj. destruct (decide (h = h')) as [->|]; [|apply L1].
    by rewrite Hrun.
  - intros h'. rewrite Hobj. destruct (decide (h = h')) as [->|]; [|apply L2].
    exact Hcs.
  - intros h'. rewrite Hobj. destruct (decide (h = h')) as [->|].
    + intros _. destruct Hset as [?|(x & i & Hx & Hi & Hc)]; [by left|].
      right. exists x, i. split; [|done]. by apply Htasks.
    + intros Hr. destruct (L3 h' Hr) as [?|(x & i & Hi & Hc)]; [by left|].
      right. exists x, i. split; [|done]. apply Htasks. split; [|done].
      intros ->. assert (i = it) as -> by congruence.
      rewrite Hcot in Hc. rewrite Hc in Hfam. cbn in Hfam. congruence.
  - intros h' x i [Hx Hi]%Htasks Hc. rewrite Hobj.
    destruct (decide (h = h')) as [->|]; [|exact (L4 h' x i Hi Hc)].
    rewrite (Hsame x i Hx Hi Hc). exact (L4 h' x i Hi Hc).
  - intros h' t1 t2 i1 i2 [_ H1]%Htasks [_ H2]%Htasks.
    exact (L5 h' t1 t2 i1 i2 H1 H2).
  - intros t1 t2 i1 i2 [_ H1]%Htasks [_ H2]%Htasks.
    exact (L6 t1 t2 i1 i2 H1 H2).
  - intros x i [_ Hi]%Htasks. exact (L7 x i Hi).
  - intros x i h' [_ Hi]%Htasks Hf.
    destruct (L8 x i h' Hi Hf) as (m & mi & ts & Hm & Hcm & Hwm & Hin).
    exists m, mi, ts. split_and!; [|done..]. apply Htasks. split; [|done].
    intros ->. assert (mi = it) as -> by congruence.
    apply Hnfg. rewrite <- Hcot, Hcm. by left.
  - intros m mi [_ Hm]%Htasks. rewrite Hdisp. exact (L9 m mi Hm).
  - rewrite Hdisp. intros Hd e h' He. rewrite Hobj.
    destruct (decide (h = h')) as [->|]; [by left|].
    destruct (L10 Hd e h' He) as [?|(x & i & Hi & Hc)]; [by left|].
    right. exists x, i. split; [|done]. apply Htasks. split; [|done].
    intros ->. assert (i = it) as -> by congruence.
    rewrite Hcot in Hc. rewrite Hc in Hfam. cbn in Hfam. congruence.
  - intros m mi [_ Hm]%Htasks. rewrite Hdisp. exact (L11 m mi Hm).
  - rewrite Hdisp. intros Hnone. apply L12. intros m mi Hm Hs.
    apply (Hnone m mi); [|done]. apply Htasks. split; [|done].
    intros ->. assert (mi = it) as -> by congruence.
    apply Hnfg. rewrite <- Hcot. left. by destruct (coro it).
Qed.

(** [handler.stop()] suspended at line 221. *)
Lemma life_suspended_hstop t h w w1 :
  turn_struct t (K_handler_stop h) w → life_ok w →
  EH.running (obj w h) = true →
  hchanged h (EH.set_start_shutdown true ∘ EH.set_running false) w w1 →
  life_ok (suspended t (K_handler_stop_resumed h)
             (WaitTasks (map_to_list (EH._tasks (obj w h))).*2) w1).
Proof.
  intros [Hturn Hst] Hl Hrun [Htk Hfi Hdi Hob].
  set (active := (map_to_list (EH._tasks (obj w h))).*2).
  destruct (turn_live _ _ _ Hturn) as [it Hit].
  pose proof (turn_coro _ _ _ Hturn it Hit) as Hcot.
  assert (Hlook : ∀ x i',
            tasks (suspended t (K_handler_stop_resumed h)
                     (WaitTasks active) w1) !! x = Some i' →
            (x = t ∧ coro i' = K_handler_stop_resumed h
             ∧ waiting i' = Some (WaitTasks active))
            ∨ (x ≠ t ∧ tasks w !! x = Some i')).
  { intros x i'. unfold suspended. rewrite lookup_set_coro, Htk.
    destruct (tasks w !! x) as [i|] eqn:Hi; [|done]. cbn. intros [= <-].
    destruct (decide (t = x)) as [->|]; [by left|by right]. }
  assert (Hmine : tasks (suspended t (K_handler_stop_resumed h)
                           (WaitTasks active) w1) !! t
                  = Some (mkTaskInfo (K_handler_stop_resumed h)
                            (Some (WaitTasks active)) (done_callbacks it))).
  { unfold suspended. rewrite lookup_set_coro, Htk, Hit. cbn.
    by rewrite decide_True. }
  assert (Hkeep : ∀ x i, x ≠ t → tasks w !! x = Some i →
            tasks (suspended t (K_handler_stop_resumed h)
                     (WaitTasks active) w1) !! x = Some i).
  { intros x i Hx Hi. unfold suspended. rewrite lookup_set_coro, Htk, Hi.
    cbn. by rewrite decide_False by congruence. }
  assert (Hobj : ∀ h', obj (suspended t (K_handler_stop_resumed h)
                              (WaitTasks active) w1) h'
                       = if decide (h = h')
                         then EH.set_start_shutdown true
                                (EH.set_running false (obj w h))
                         else obj w h') by exact Hob.
  assert (Hdisp : dispatch (suspended t (K_handler_stop_resumed h)
                              (WaitTasks active) w1) = dispatch w)
    by exact Hdi.
  assert (Hnone : ∀ x i, tasks w !! x = Some i →
            coro i ≠ K_handler_stop_resumed h).
  { intros x i Hi Hc.
    destruct (h_draining w Hl h x i Hi Hc) as (Hr & _). congruence. }
  pose proof (h_running_flags w Hl h Hrun) as [Hss Hsc].
  destruct Hl as [L1 L2 L3 L4 L5 L6 L7 L8 L9 L10 L11 L12].
  split.
  - intros h'. rewrite Hobj. destruct (decide (h = h')) as [->|]; [|apply L1].
    done.
  - intros h'. rewrite Hobj. destruct (decide (h = h')) as [->|]; [|apply L2].
    done.
  - intros h'. rewrite Hobj. destruct (decide (h = h')) as [->|].
    + intros _. right. eauto.
    + intros Hr. destruct (L3 h' Hr) as [?|(x & i & Hi & Hc)]; [by left|].
      right. exists x, i. split; [|done]. apply Hkeep; [|done].
      intros ->. assert (i = it) as -> by congruence. congruence.
  - intros h' x i' Hi' Hc'. rewrite Hobj.
    destruct (Hlook x i' Hi') as [(-> & Hc & Hw)|[Hx Hi]].
    + assert (h' = h) as -> by congruence. rewrite decide_True by done.
      cbn. split_and!; [done..|]. rewrite Hw. intros k [t' Hk].
      apply (task_sets w Hst) in Hk as Hk'. destruct Hk' as [-> _].
      unfold active. apply list_elem_of_fmap. exists (k, k).
      split; [done|]. by apply elem_of_map_to_list.
    + destruct (decide (h = h')) as [->|]; [|exact (L4 h' x i' Hi Hc')].
      exfalso. by apply (Hnone x i' Hi).
  - intros h' t1 t2 i1 i2 H1 H2 Hc1 Hc2.
    destruct (Hlook t1 i1 H1) as [(-> & Hc1' & _)|[Hx1 Hi1]];
      destruct (Hlook t2 i2 H2) as [(-> & Hc2' & _)|[Hx2 Hi2]]; try done.
    + exfalso. apply (Hnone t2 i2 Hi2). congruence.
    + exfalso. apply (Hnone t1 i1 Hi1). congruence.
    + exact (L5 h' t1 t2 i1 i2 Hi1 Hi2 Hc1 Hc2).
  - intros t1 t2 i1 i2 H1 H2 Hf1 Hf2.
    destruct (Hlook t1 i1 H1) as [(-> & Hc1' & _)|[Hx1 Hi1]].
    { rewrite Hc1' in Hf1. by destruct Hf1. }
    destruct (Hlook t2 i2 H2) as [(-> & Hc2' & _)|[Hx2 Hi2]].
    { rewrite Hc2' in Hf2. by destruct Hf2. }
    exact (L6 t1 t2 i1 i2 Hi1 Hi2 Hf1 Hf2).
  - intros x i' Hi' Hf.
    destruct (Hlook x i' Hi') as [(-> & Hc & _)|[_ Hi]].
    + by rewrite Hc in Hf.
    + exact (L7 x i' Hi Hf).
  - intros x i' h' Hi' Hf.
    assert (Hown : ∃ m mi ts, tasks w !! m = Some mi
                     ∧ coro mi = K_stop_handlers_done
                     ∧ waiting mi = Some (WaitTasks ts) ∧ x ∈ ts).
    { destruct (Hlook x i' Hi') as [(-> & Hc & _)|[_ Hi]].
      - apply (L8 t it h Hit). by rewrite Hcot.
      - exact (L8 x i' h' Hi Hf). }
    destruct Hown as (m & mi & ts & Hm & Hcm & Hwm & Hin).
    exists m, mi, ts. split_and!; [|done..]. apply Hkeep; [|done].
    intros ->. assert (mi = it) as -> by congruence. congruence.
  - intros m mi Hm Hs. rewrite Hdisp.
    destruct (Hlook m mi Hm) as [(-> & Hc & _)|[_ Hi]].
    + by rewrite Hc in Hs.
    + exact (L9 m mi Hi Hs).
  - rewrite Hdisp. intros Hd e h' He. rewrite Hobj.
    destruct (decide (h = h')) as [->|]; [by left|].
    destruct (L10 Hd e h' He) as [?|(x & i & Hi & Hc)]; [by left|].
    right. exists x, i. split; [|done]. apply Hkeep; [|done].
    intros ->. assert (i = it) as -> by congruence.
    rewrite Hcot in Hc. congruence.
  - intros m mi Hm Hc. rewrite Hdisp.
    destruct (Hlook m mi Hm) as [(-> & Hc' & _)|[_ Hi]]; [congruence|].
    exact (L11 m mi Hi Hc).
  - rewrite Hdisp. intros Hnone'. apply L12. intros m mi Hm Hs.
    apply (Hnone' m mi); [|done]. apply Hkeep; [|done].
    intros ->. assert (mi = it) as -> by congruence.
    rewrite Hcot in Hs. done.
Qed.

(** Waking the tasks that wait for an event. *)
Lemma evolves_wake_event ev w :
  (ev = Ev_shutdown_complete → D._shutdown_complete (dispatch w) = true) →
  evolves w (wake (λ on, bool_decide (on = WaitEvent ev)) w).1.
Proof.
  intros Hsc. split; try done.
  - intros x i Hi _. rewrite lookup_wake, Hi. cbn. eexists. split; [done|].
    destruct (should_wake _ i) eqn:Hsw; cbn; [|by split; [|left]].
    split; [done|]. unfold should_wake in Hsw.
    destruct (waiting i) as [on|] eqn:Hwi; [|done].
    apply bool_decide_eq_true in Hsw as ->.
    right; left. split; [done|]. exists ev. split; [done|]. exact Hsc.
  - intros x i'. rewrite lookup_wake.
    destruct (tasks w !! x) as [i|]; [|done]. cbn. intros [= <-] _.
    exists i. split; [done|]. by destruct (should_wake _ i).
  - intros e h He. by left.
Qed.

(** The turn goes on after tasks have been woken. *)
Lemma turn_life_wake_event t k0 ev w :
  (ev = Ev_shutdown_complete → D._shutdown_complete (dispatch w) = true) →
  turn_struct t k0 w → life_ok w →
  let w' := (wake (λ on, bool_decide (on = WaitEvent ev)) w).1 in
  turn_struct t k0 w' ∧ life_ok w'.
Proof.
  intros Hsc Hts Hl w'.
  pose proof (struct_wake t k0 (λ on, bool_decide (on = WaitEvent ev)) w Hts)
    as Hts'.
  split; [done|].
  eapply life_evolves; [by apply evolves_wake_event| | |done].
  - apply Hts'.
  - apply struct_shape, Hts'.
Qed.

(** [event.set()] on the completion event of a handler: the tasks waiting
    for it are woken, and the flag is set. *)
Lemma event_set_handler_eq h w :
  event_set (Ev_handler_shutdown_complete h) w
  = if EH._shutdown_complete (obj w h) then (w, Ok tt)
    else update h (EH.set_shutdown_complete true)
           (wake (λ on, bool_decide
                          (on = WaitEvent (Ev_handler_shutdown_complete h)))
                 w).1.
Proof.
  unfold event_set. rewrite M_bind_eq. unfold get at 1. cbn [fst snd].
  cbn [is_set]. by destruct (EH._shutdown_complete (obj w h)).
Qed.

Lemma values_nil (m : gmap nat Task) : (map_to_list m).*2 = [] → m = ∅.
Proof.
  intros H. apply map_to_list_empty_iff.
  by destruct (map_to_list m).
Qed.

(** [handler.stop()] resumed at line 223. *)
Lemma Inv_step_handler_stop_resumed t rest info h w :
  Inv w → ready w = t :: rest → tasks w !! t = Some info →
  coro info = K_handler_stop_resumed h →
  Inv (step_task t (set_ready rest w)).
Proof.
  intros HInv Hready Hinfo Hco.
  apply (Inv_step_from t rest info w HInv Hready Hinfo).
  rewrite Hco. cbn [run_coro]. unfold EventHandler.stop_resumed.
  intros w' r. rewrite M_bind_eq, event_set_handler_eq.
  intros Hrun Hts0 Hl0 _.
  destruct (turn_live _ _ _ (ts_turn _ _ _ Hts0)) as [it Hit].
  pose proof (turn_coro _ _ _ (ts_turn _ _ _ Hts0) it Hit) as Hcot.
  destruct (h_draining _ Hl0 h t it Hit Hcot) as (Hr & Hss & Hsc & _).
  rewrite Hsc in Hrun. 
  set (wa := (wake _ (set_ready rest w)).1) in *.
  destruct (turn_life_wake_event t (K_handler_stop_resumed h)
              (Ev_handler_shutdown_complete h) (set_ready rest w))
    as [Htsa Hla]; [done..|]. fold wa in Htsa, Hla.
  assert (Hrun' : (update h (EH.set_shutdown_complete true) wa).1 = w'
                  ∧ r = Ok Return).
  { destruct (update h (EH.set_shutdown_complete true) wa) as [w2 [[]|e]] eqn:E;
      cbn in Hrun; [|done]. by injection Hrun as <- <-. }
  destruct Hrun' as [<- ->]. intros r'.
  destruct (turn_live _ _ _ (ts_turn _ _ _ Htsa)) as [ita Hita].
  pose proof (turn_coro _ _ _ (ts_turn _ _ _ Htsa) ita Hita) as Hcota.
  destruct (h_draining _ Hla h t ita Hita Hcota) as (Hra & Hssa & Hsca & Hwa).
  rewrite (turn_not_waiting _ _ _ (ts_turn _ _ _ Htsa) ita Hita) in Hwa.
  eapply (life_closed_hstop t _ h (EH.set_shutdown_complete true));
    [exact Htsa|exact Hla|done|apply hchanged_update|..].
  - done.
  - done.
  - left. split; [done|done].
  - intros x i Hx Hi Hc. exfalso. apply Hx.
    exact (h_draining_unique _ Hla h x t i ita Hi Hita Hc Hcota).
Qed.

(** [handler.stop()] from its beginning. *)
Lemma Inv_step_handler_stop t rest info h w :
  Inv w → ready w = t :: rest → tasks w !! t = Some info →
  coro info = K_handler_stop h →
  Inv (step_task t (set_ready rest w)).
Proof.
  intros HInv Hready Hinfo Hco.
  apply (Inv_step_from t rest info w HInv Hready Hinfo).
  rewrite Hco. cbn [run_coro]. unfold EventHandler.stop.
  intros w' r. rewrite M_bind_eq. unfold deref at 1. cbn [fst snd].
  set (w0 := set_ready rest w).
  intros Hrun Hts0 Hl0 _.
  destruct (turn_live _ _ _ (ts_turn _ _ _ Hts0)) as [it Hit].
  pose proof (turn_coro _ _ _ (ts_turn _ _ _ Hts0) it Hit) as Hcot.
  destruct (EH.running (obj w0 h)) eqn:Hr; cbn [negb] in Hrun.
  - (* running: the handler stops *)
    pose proof (h_running_flags _ Hl0 h Hr) as [Hss Hsc].
    rewrite !M_bind_eq in Hrun. unfold update at 1, modify at 1 in Hrun.
    cbn [fst snd] in Hrun.
    rewrite !M_bind_eq in Hrun. unfold update at 1, modify at 1 in Hrun.
    cbn [fst snd] in Hrun.
    rewrite !M_bind_eq in Hrun. unfold deref at 1 in Hrun.
    cbn [fst snd] in Hrun.
    match type of Hrun with
    | context [map_to_list (EH._tasks (obj ?ww h))] => set (w1 := ww) in *
    end.
    assert (H1 : hchanged h (EH.set_start_shutdown true ∘ EH.set_running false)
                   w0 w1).
    { eapply hchanged_trans; apply hchanged_update. }
    assert (Htasks1 : EH._tasks (obj w1 h) = EH._tasks (obj w0 h)).
    { rewrite (hc_obj _ _ _ _ H1). by rewrite decide_True. }
    rewrite Htasks1 in Hrun.
    destruct ((map_to_list (EH._tasks (obj w0 h))).*2) as [|a active] eqn:Hact.
    + (* nothing to wait for *)
      apply values_nil in Hact. unfold EventHandler.stop_resumed in Hrun.
      rewrite M_bind_eq, event_set_handler_eq in Hrun.
      assert (Hsc1 : EH._shutdown_complete (obj w1 h) = false).
      { rewrite (hc_obj _ _ _ _ H1). by rewrite decide_True. }
      rewrite Hsc1 in Hrun.
      set (p := λ on, bool_decide
                   (on = WaitEvent (Ev_handler_shutdown_complete h))) in *.
      destruct (turn_life_wake_event t (K_handler_stop h)
                  (Ev_handler_shutdown_complete h) w0)
        as [Htsa Hla]; [done..|]. fold p in Htsa, Hla.
      set (wa := (wake p w0).1) in *.
      assert (Hw' : hchanged h (EH.set_shutdown_complete true
                                ∘ (EH.set_start_shutdown true
                                   ∘ EH.set_running false)) wa w'
                    ∧ r = Ok Return).
      { cbn in Hrun. injection Hrun as <- <-. split; [|done].
        split; try done. intros h'. cbn.
        rewrite !lookup_total_update.
        destruct (decide (h = h')) as [->|]; [|done].
        by rewrite !decide_True by done. }
      destruct Hw' as [Hw' ->]. intros r'.
      assert (Hobja : obj wa h = obj w0 h) by done.
      eapply (life_closed_hstop t _ h _ r' wa w');
        [exact Htsa|exact Hla|done|exact Hw'|..].
      * done.
      * done.
      * left. split; [exact Hact|done].
      * intros x i Hx Hi Hc. exfalso.
        destruct (h_draining _ Hla h x i Hi Hc) as (Hr' & _).
        rewrite Hobja in Hr'. congruence.
    + (* wait for the tasks left *)
      injection Hrun as <- <-.
      assert (Hover : wait_over w1 (WaitTasks (a :: active)) = false).
      { assert (Hin : a ∈ (map_to_list (EH._tasks (obj w0 h))).*2)
          by (rewrite Hact; by left).
        apply list_elem_of_fmap in Hin as ([k t'] & Ha & Hk).
        apply elem_of_map_to_list in Hk. cbn in Ha. subst a.
        apply (task_sets _ (ts_struct _ _ _ Hts0)) in Hk
          as [-> (i & Hi & _)].
        cbn [wait_over forallb]. apply andb_false_iff. left.
        apply bool_decide_eq_false. intros [? Hf].
        rewrite (hc_finished _ _ _ _ H1) in Hf.
        pose proof (ids_disjoint _ (turn_ids _ _ _ (ts_turn _ _ _ Hts0)) k
                      (ex_intro _ i Hi)). congruence. }
      rewrite Hover, <- Hact. by apply life_suspended_hstop.
  - (* not running: nothing to do *)
    injection Hrun as <- <-. intros r'.
    eapply (life_closed_hstop t _ h id r' w0 w0);
      [exact Hts0|exact Hl0|done|apply hchanged_refl|..].
    + done.
    + apply (h_complete_started _ Hl0).
    + destruct (h_stopped _ Hl0 h Hr) as [?|(x & i & Hi & Hc)]; [by left|].
      right. exists x, i. split_and!; [|done..].
      intros ->. assert (i = it) as -> by congruence. congruence.
    + done.
Qed.

(* ===================================================================== *)
(** ** The first turn of [Dispatch.stop] and of [Dispatch.start] *)
(* ===================================================================== *)

(** The tasks [asyncio.wait] makes at line 130. *)
Lemma stop_tasks_eq hs w :
  ∃ w3, Dispatch.stop_tasks hs w = (w3, Ok (seq (next_task w) (length hs)))
    ∧ next_task w3 = next_task w + length hs
    ∧ heap w3 = heap w ∧ dispatch w3 = dispatch w
    ∧ finished w3 = finished w
    ∧ ∀ x, tasks w3 !! x =
        if decide (next_task w ≤ x < next_task w + length hs)
        then (λ h, mkTaskInfo (K_handler_stop h) None [])
               <$> hs !! (x - next_task w)
        else tasks w !! x.
Proof.
  revert w. induction hs as [|h hs IH]; intros w.
  - exists w. cbn. split_and!; try done; try lia.
    intros x. rewrite decide_False by lia. done.
  - cbn [Dispatch.stop_tasks]. rewrite M_bind_eq.
    unfold create_task at 1. cbn [fst snd]. rewrite M_bind_eq.
    match goal with
    | |- context [Dispatch.stop_tasks hs ?ww] => set (w1 := ww)
    end.
    destruct (IH w1) as (w3 & Heq & Hn & Hh & Hd & Hf & Ht).
    exists w3. rewrite Heq. cbn [fst snd length seq]. subst w1.
    cbn [next_task tasks heap dispatch finished set_next_task set_ready
         set_tasks] in *.
    split_and!; try done.
    + rewrite Hn. cbn. lia.
    + intros x. rewrite Ht.
      destruct (decide (S (next_task w) ≤ x < S (next_task w) + length hs))
        as [Hx|Hx].
      * rewrite decide_True by (cbn; lia).
        replace (x - next_task w) with (S (x - S (next_task w))) by lia.
        done.
      * destruct (decide (x = next_task w)) as [->|Hne].
        -- rewrite decide_True by (cbn; lia).
           rewrite lookup_insert_eq, Nat.sub_diag. done.
        -- rewrite decide_False by (cbn; lia).
           by rewrite lookup_insert_ne.
Qed.

(** [stop()] suspended at line 130: [w3] is [w] with a task for the
    [stop()] of every registered handler, and the engine stopped. *)
Lemma life_suspended_stop_tasks (t : Task) (ts : list Task) w w3 :
  turn_struct t K_stop w → life_ok w →
  heap w3 = heap w →
  D.running (dispatch w3) = false →
  (∀ x : Task, x < next_task w → tasks w3 !! x = tasks w !! x) →
  (∀ (x : Task) i, (next_task w ≤ x)%nat → tasks w3 !! x = Some i →
          x ∈ ts ∧ ∃ h, coro i = K_handler_stop h) →
  (∀ e h, D._handlers (dispatch w3) !! e = Some h →
          ∃ x i, tasks w3 !! x = Some i ∧ coro i = K_handler_stop h) →
  life_ok (suspended t K_stop_handlers_done (WaitTasks ts) w3).
Proof.
  intros Hts Hl Hhp Hnr Hold Hnew Hall.
  assert (Hfg : foreground K_stop) by (by left).
  pose proof (no_handler_stop t _ w (ts_turn _ _ _ Hts) Hl Hfg) as Hno.
  destruct (turn_live _ _ _ (ts_turn _ _ _ Hts)) as [it Hit].
  pose proof (turn_coro _ _ _ (ts_turn _ _ _ Hts) it Hit) as Hcot.
  assert (Htlt : t < next_task w).
  { apply (ids_tasks _ (turn_ids _ _ _ (ts_turn _ _ _ Hts))). eauto. }
  set (wf := suspended t K_stop_handlers_done (WaitTasks ts) w3).
  assert (Hit3 : tasks w3 !! t = Some it) by (by rewrite Hold).
  assert (Hlook : ∀ x i', tasks wf !! x = Some i' →
            (x = t ∧ coro i' = K_stop_handlers_done
             ∧ waiting i' = Some (WaitTasks ts))
            ∨ (x ≠ t ∧ x < next_task w ∧ tasks w !! x = Some i')
            ∨ (x ≠ t ∧ x ∈ ts ∧ ∃ h, coro i' = K_handler_stop h)).
  { intros x i'. unfold wf, suspended. rewrite lookup_set_coro.
    destruct (tasks w3 !! x) as [i|] eqn:Hi; [|done]. cbn. intros [= <-].
    destruct (decide (t = x)) as [->|]; [by left|right].
    destruct (decide (x < next_task w)) as [Hx|Hx].
    - left. split_and!; [done..|]. by rewrite <- Hold.
    - right. destruct (Hnew x i) as [? ?]; [lia|done|]. by split_and!. }
  assert (Hobj : ∀ h, obj wf h = obj w h).
  { intros h. unfold wf, suspended. cbn. by rewrite Hhp. }
  assert (Honly : ∀ x i, x ≠ t → tasks w !! x = Some i →
                         ¬ foreground (coro i)).
  { intros x i Hx Hi Hf. apply Hx.
    apply (fg_unique w Hl x t i it Hi Hit Hf). by rewrite Hcot. }
  assert (Hme : tasks wf !! t
                = Some (mkTaskInfo K_stop_handlers_done (Some (WaitTasks ts))
                          (done_callbacks it))).
  { unfold wf, suspended. rewrite lookup_set_coro, Hit3. cbn.
    by rewrite decide_True. }
  destruct Hl as [L1 L2 L3 L4 L5 L6 L7 L8 L9 L10 L11 L12].
  split.
  - intros h. rewrite Hobj. apply L1.
  - intros h. rewrite Hobj. apply L2.
  - intros h. rewrite Hobj. intros Hr.
    destruct (L3 h Hr) as [?|(x & i & Hi & Hc)]; [by left|].
    exfalso. apply (Hno x i h Hi). by rewrite Hc.
  - intros h x i' Hi' Hc'.
    destruct (Hlook x i' Hi') as [(-> & Hc & _)|[(_ & _ & Hi)|(_ & _ & h' & Hc)]];
      [congruence| |congruence].
    exfalso. apply (Hno x i' h Hi). by rewrite Hc'.
  - intros h t1 t2 i1 i2 H1 H2 Hc1 Hc2.
    destruct (Hlook t1 i1 H1) as [(-> & Hc & _)|[(_ & _ & Hi)|(_ & _ & h' & Hc)]];
      [congruence| |congruence].
    exfalso. apply (Hno t1 i1 h Hi). by rewrite Hc1.
  - assert (Hfgt : ∀ x i', tasks wf !! x = Some i' → foreground (coro i') →
                           x = t).
    { intros x i' Hi' Hf.
      destruct (Hlook x i' Hi') as [(-> & _)|[(Hx & _ & Hi)|(_ & _ & h' & Hc)]];
        [done| |].
      - exfalso. by apply (Honly x i').
      - rewrite Hc in Hf. by destruct Hf. }
    intros t1 t2 i1 i2 H1 H2 Hf1 Hf2.
    rewrite (Hfgt t1 i1 H1 Hf1), (Hfgt t2 i2 H2 Hf2). done.
  - intros x i' Hi' Hf.
    destruct (Hlook x i' Hi') as [(-> & Hc & _)|[(Hx & _ & Hi)|(_ & _ & h' & Hc)]].
    + by rewrite Hc in Hf.
    + exfalso. apply (Honly x i' Hx Hi). by right.
    + by rewrite Hc in Hf.
  - intros x i' h Hi' Hf.
    destruct (Hlook x i' Hi') as [(-> & Hc & _)|[(_ & _ & Hi)|(_ & Hin & _)]].
    + by rewrite Hc in Hf.
    + exfalso. by apply (Hno x i' h Hi).
    + eexists t, _, ts. split_and!; [exact Hme|done..].
  - intros m mi Hm Hs. exact Hnr.
  - intros Hd e h He. right.
    destruct (Hall e h He) as (x & i & Hi & Hc).
    exists x, i. split; [|done]. unfold wf, suspended.
    rewrite lookup_set_coro, Hi. cbn. rewrite decide_False; [done|].
    intros ->. assert (i = it) as -> by congruence. congruence.
  - intros m mi Hm Hc.
    destruct (Hlook m mi Hm) as [(-> & Hc' & _)|[(Hx & _ & Hi)|(_ & _ & h' & Hc')]];
      [congruence| |congruence].
    exfalso. apply (Honly m mi Hx Hi). rewrite Hc. by left.
  - intros Hnone. exfalso. by apply (Hnone t _ Hme).
Qed.

(** The signal of line 124 may be given before the flags of lines 121-122
    are written. *)
Lemma stop_eq w :
  Dispatch.stop w =
  if D.running (dispatch w) then
    let wa := (event_set Ev_resume_processing w).1 in
    let w1 := set_dispatch
                (D.set_start_shutdown true
                   (D.set_running false (dispatch wa))) wa in
    let '(w3, r) :=
      Dispatch.stop_tasks (map_to_list (D._handlers (dispatch w))).*2 w1 in
    match r with
    | Ok (x :: l) => (w3, Ok (Suspend K_stop_handlers_done (WaitTasks (x :: l))))
    | Ok [] => Dispatch.stop_handlers_done w3
    | Raise e => (w3, Raise e)
    end
  else (w, Ok Return).
Proof.
  unfold Dispatch.stop. rewrite M_bind_eq. unfold this at 1. cbn [fst snd].
  destruct (D.running (dispatch w)) eqn:Hr; [|done]. cbn [negb].
  unfold event_set, write_flag, wake, update_this, modify,
    Dispatch.handlers_values, this, get.
  repeat progress (rewrite ?M_bind_eq, ?M_ret_eq; cbn [fst snd]).
  unfold is_set. cbn [dispatch D._resume_processing D.set_start_shutdown
                        D.set_running set_dispatch].
  destruct (D._resume_processing (dispatch w)) eqn:Hres;
    repeat progress (rewrite ?M_bind_eq, ?M_ret_eq; cbn [fst snd]);
    cbn [dispatch D._resume_processing D.set_start_shutdown tasks ready
         D.set_running set_dispatch set_ready set_tasks
         D.set_resume_processing];
    match goal with
    | |- match ?a with _ => _ end = match ?b with _ => _ end =>
        change a with b
    end;
    destruct (Dispatch.stop_tasks _ _) as [w3 [[|x l]|e]]; done.
Qed.

Lemma event_set_resume_fields w :
  let wa := (event_set Ev_resume_processing w).1 in
  heap wa = heap w ∧ finished wa = finished w ∧ next_task wa = next_task w
  ∧ D._handlers (dispatch wa) = D._handlers (dispatch w)
  ∧ D._shutdown_complete (dispatch wa) = D._shutdown_complete (dispatch w)
  ∧ D.running (dispatch wa) = D.running (dispatch w)
  ∧ D._start_shutdown (dispatch wa) = D._start_shutdown (dispatch w).
Proof.
  cbv zeta. unfold event_set, get, is_set.
  repeat progress (rewrite ?M_bind_eq; cbn [fst snd]).
  destruct (D._resume_processing (dispatch w)); [cbn; by split_and!|].
  unfold write_flag, wake, modify.
  repeat progress (rewrite ?M_bind_eq; cbn [fst snd]). cbn. by split_and!.
Qed.

Lemma values_empty {K} `{Countable K} {A} (m : gmap K A) :
  (map_to_list m).*2 = [] → m = ∅.
Proof. intros Hnil%fmap_nil_inv. by apply map_to_list_empty_iff. Qed.

Lemma Inv_step_stop t rest info w :
  Inv w → ready w = t :: rest → tasks w !! t = Some info →
  coro info = K_stop →
  Inv (step_task t (set_ready rest w)).
Proof.
  intros HInv Hready Hinfo Hco.
  apply (Inv_step_from t rest info w HInv Hready Hinfo).
  rewrite Hco. cbn [run_coro].
  intros w' r. rewrite stop_eq.
  set (w0 := set_ready rest w).
  intros Hrun Hts0 Hl0 _.
  destruct (D.running (dispatch w0)) eqn:Hr.
  2:{ (* not running: nothing to do *)
    injection Hrun as <- <-. intros r'.
    apply (life_closed_fg t K_stop r' w0); [done|done|by left|done|done| |].
    - apply (idle_while_fresh t K_stop); [apply Hts0|done|by left|by intros []].
    - intros Hd. by apply (registered_stopped t K_stop);
        [apply Hts0|done|left|]. }
  cbv zeta in Hrun.
  destruct (evol_event_set t K_stop Ev_resume_processing
              (or_introl eq_refl) w0 Hts0) as [Htsa Heva].
  destruct (event_set_resume_fields w0)
    as (Hhpa & Hfina & Hnexta & Hha & Hsca & _ & _).
  set (wa := (event_set Ev_resume_processing w0).1) in *.
  assert (Hla : life_ok wa).
  { eapply life_evolves; [exact Heva|apply Htsa|apply struct_shape, Htsa|done]. }
  set (w1 := set_dispatch _ wa) in Hrun.
  set (hs := (map_to_list (D._handlers (dispatch w0))).*2) in *.
  destruct (stop_tasks_eq hs w1) as (w3 & Heq & Hn & Hh & Hd & Hf & Ht).
  rewrite Heq in Hrun.
  pose proof (turn_ids _ _ _ (ts_turn _ _ _ Htsa)) as Hidsa.
  destruct hs as [|h0 hs'] eqn:Hhs.
  - (* no handler is registered *)
    assert (Hnone : D._handlers (dispatch w0) = ∅) by (by apply values_empty).
    cbn in Heq. injection Heq as <-. cbn [seq length] in Hrun.
    unfold Dispatch.stop_handlers_done in Hrun.
    rewrite M_bind_eq in Hrun. unfold get at 1 in Hrun. cbn [fst snd] in Hrun.
    assert (Hreg : ∀ e h, D._handlers (dispatch w1) !! e = Some h →
                          EH.running (obj wa h) = false).
    { intros e h. subst w1. cbn. rewrite Hha, Hnone. by rewrite lookup_empty. }
    destruct (is_set Ev_shutdown_complete w1) eqn:Hset.
    + injection Hrun as <- <-. intros r'.
      apply (life_closed_fg t K_stop r' wa w1);
        [done|done|by left|done|done|by intros _|by intros _].
    + injection Hrun as <- <-. cbn [wait_over]. rewrite Hset.
      by apply (life_suspended_stop t K_stop wa w1).
  - (* a task for the [stop()] of each handler *)
    cbn [length seq] in Hrun. injection Hrun as <- <-.
    rewrite <- Hhs in Ht, Hn. clear Heq.
    assert (Hlen : length hs = S (length hs')) by (by rewrite Hhs).
    change (next_task w1) with (next_task wa) in *.
    assert (Hover : wait_over w3
              (WaitTasks (next_task wa :: seq (S (next_task wa)) (length hs')))
              = false).
    { cbn [wait_over forallb]. apply andb_false_iff. left.
      apply bool_decide_eq_false. rewrite Hf. intros Hfin.
      pose proof (ids_finished _ Hidsa (next_task wa) Hfin) as Hlt. lia. }
    rewrite Hover.
    change (next_task wa :: seq (S (next_task wa)) (length hs'))
      with (seq (next_task wa) (S (length hs'))).
    rewrite <- Hlen.
    apply (life_suspended_stop_tasks t _ wa w3); [done|done|done| | | |].
    + by rewrite Hd.
    + intros x Hx. rewrite Ht. rewrite decide_False; [done|]. lia.
    + intros x i Hx. rewrite Ht.
      destruct (decide (next_task wa ≤ x < next_task wa + length hs))
        as [Hin|Hout].
      * intros Hi. split; [apply elem_of_seq; lia|].
        destruct (hs !! (x - next_task wa)) as [h|]; [|done].
        injection Hi as <-. by exists h.
      * intros Hi. exfalso.
        assert (x < next_task wa); [|lia].
        apply (ids_tasks _ Hidsa). subst w1. cbn in Hi. eauto.
    + rewrite Hd. subst w1. cbn [dispatch set_dispatch D._handlers
        D.set_start_shutdown D.set_running]. rewrite Hha.
      intros e h He.
      assert (Hin : h ∈ hs).
      { unfold hs. apply list_elem_of_fmap. exists (e, h). split; [done|].
        by apply elem_of_map_to_list. }
      apply list_elem_of_lookup in Hin as [j Hj].
      pose proof (lookup_lt_Some _ _ _ Hj) as Hjlt.
      exists (next_task wa + j), (mkTaskInfo (K_handler_stop h) None []).
      split; [|done]. rewrite Ht.
      rewrite decide_True by lia.
      replace (next_task wa + j - next_task wa) with j by lia.
      by rewrite Hj.
Qed.

Lemma start_obj_running o : EH.running (start_obj o) = true.
Proof.
  unfold start_obj. destruct (EH.running o) eqn:Hr; [done|].
  by destruct (EH._start_shutdown o).
Qed.

Lemma start_obj_idemp o : start_obj (start_obj o) = start_obj o.
Proof.
  unfold start_obj at 1. by rewrite start_obj_running.
Qed.

Lemma start_obj_tasks o : EH._tasks (start_obj o) = EH._tasks o.
Proof.
  unfold start_obj. destruct (EH.running o); [done|].
  by destruct (EH._start_shutdown o).
Qed.

Lemma handler_start_eq h w :
  can_start (obj w h) →
  EventHandler.start h w
  = (set_heap (if EH.running (obj w h) then heap w
               else <[h := start_obj (obj w h)]> (heap w)) w, Ok None).
Proof.
  intros Hcan. unfold EventHandler.start, can_start, start_obj in *.
  rewrite M_bind_eq. unfold deref at 1. cbn [fst snd].
  destruct (EH.running (obj w h)) eqn:Hr.
  { by destruct w. }
  destruct (EH._start_shutdown (obj w h)) eqn:Hss.
  - rewrite Hcan by done. cbn [negb].
    unfold EventHandler.start_resumed, EventHandler.start_running,
      event_clear, write_flag, update, modify.
    repeat progress (rewrite ?M_bind_eq, ?M_ret_eq; cbn [fst snd]).
    cbn. rewrite !lookup_total_insert_eq. rewrite !insert_insert_eq. done.
  - unfold EventHandler.start_running, update, modify.
    repeat progress (rewrite ?M_bind_eq, ?M_ret_eq; cbn [fst snd]).
    done.
Qed.

Lemma start_handlers_eq hs w :
  (∀ h, h ∈ hs → can_start (obj w h)) →
  ∃ w1, started hs w w1
        ∧ Dispatch.start_handlers hs w = ((create_task K_run w1).1, Ok Return).
Proof.
  revert w. induction hs as [|h hs IH]; intros w Hcan.
  - exists w. split; [|done]. by split.
  - cbn [Dispatch.start_handlers]. rewrite M_bind_eq.
    rewrite handler_start_eq by (apply Hcan; by left).
    set (wh := set_heap _ w).
    assert (Hobj : ∀ h', obj wh h' = if decide (h' = h) then start_obj (obj w h)
                                     else obj w h').
    { intros h'. unfold wh. cbn [heap set_heap].
      destruct (EH.running (obj w h)) eqn:Hr.
      - destruct (decide (h' = h)) as [->|]; [|done].
        unfold start_obj. by rewrite Hr.
      - destruct (decide (h' = h)) as [->|].
        + by rewrite lookup_total_insert_eq.
        + by rewrite lookup_total_insert_ne. }
    destruct (IH wh) as (w1 & Hst & Heq).
    { intros h' Hin. rewrite Hobj. destruct (decide (h' = h)) as [->|].
      - intros Hr. by rewrite start_obj_running in Hr.
      - apply Hcan. by right. }
    exists w1. split; [|done].
    destruct Hst as [H1 H2 H3 H4 H5 H6]. split; try done.
    intros h'. rewrite H6, Hobj.
    destruct (decide (h' = h)) as [->|Hne].
    + rewrite (decide_True (P := h ∈ h :: hs)) by (by left).
      destruct (decide (h ∈ hs)); [apply start_obj_idemp|done].
    + destruct (decide (h' ∈ hs)) as [Hin|Hout].
      * by rewrite decide_True by (by right).
      * rewrite decide_False; [done|].
        intros [?|?]%elem_of_cons; done.
Qed.

(** [start()] returns: [w'] is [w] with the registered handlers started,
    the consumer loop made a task, and the engine running. *)
Lemma life_closed_start (t : Task) (hs : list HandlerRef) r w w' :
  turn_struct t K_start w → life_ok w →
  (∀ x, tasks w' !! x = if decide (x = next_task w)
                        then Some (mkTaskInfo K_run None [])
                        else tasks w !! x) →
  (∀ h, obj w' h = if decide (h ∈ hs) then start_obj (obj w h) else obj w h) →
  D.running (dispatch w') = true →
  D._start_shutdown (dispatch w') = false →
  life_ok (closed t r w').
Proof.
  intros Hts Hl Htk Hob Hrun Hss.
  assert (Hfg : foreground K_start) by (by right).
  pose proof (no_handler_stop t _ w (ts_turn _ _ _ Hts) Hl Hfg) as Hno.
  destruct (turn_live _ _ _ (ts_turn _ _ _ Hts)) as [it Hit].
  pose proof (turn_coro _ _ _ (ts_turn _ _ _ Hts) it Hit) as Hcot.
  assert (Htlt : t < next_task w).
  { apply (ids_tasks _ (turn_ids _ _ _ (ts_turn _ _ _ Hts))). eauto. }
  assert (Hit' : tasks w' !! t = Some it).
  { rewrite Htk. by rewrite decide_False by lia. }
  assert (Hobj : ∀ h, obj (closed t r w') h
                      = if decide (h ∈ hs) then start_obj (obj w h)
                        else obj w h).
  { intros h. rewrite closed_obj, (lookup_total_correct _ _ _ Hit').
    pose proof (cb_invocation w (ts_struct _ _ _ Hts) t it Hit) as Hcb.
    rewrite Hcot in Hcb. cbn in Hcb. rewrite Hcb.
    rewrite decide_False by apply not_elem_of_nil. apply Hob. }
  assert (Htasks : ∀ x i, tasks (closed t r w') !! x = Some i →
            (x ≠ t ∧ tasks w !! x = Some i) ∨ coro i = K_run).
  { intros x i. rewrite closed_tasks, lookup_delete_Some, Htk.
    intros [Hx Hi]. destruct (decide (x = next_task w)).
    - right. by injection Hi as <-.
    - left. split; [congruence|done]. }
  assert (Honly : ∀ x i, tasks (closed t r w') !! x = Some i →
                         ¬ lifecycle (coro i)).
  { intros x i [[Hx Hi]|Hc]%Htasks Hlc.
    - destruct Hlc as [Hl1 Hl2].
      destruct (family (coro i)) eqn:Hf; try done.
      + by apply (Hno x i h Hi).
      + apply Hx. apply (fg_unique w Hl x t i it Hi Hit); [by left|].
        by rewrite Hcot.
      + apply Hx. apply (fg_unique w Hl x t i it Hi Hit); [by right|].
        by rewrite Hcot.
    - rewrite Hc in Hlc. by destruct Hlc. }
  destruct Hl as [L1 L2 L3 L4 L5 L6 L7 L8 L9 L10 L11 L12].
  split.
  - intros h. rewrite Hobj. destruct (decide (h ∈ hs)); [|apply L1].
    intros _. unfold start_obj.
    destruct (EH.running (obj w h)) eqn:Hr; [by apply L1|].
    destruct (EH._start_shutdown (obj w h)) eqn:Hs; [done|].
    split; [done|]. cbn.
    destruct (EH._shutdown_complete (obj w h)) eqn:Hc; [|done].
    rewrite (L2 h Hc) in Hs. done.
  - intros h. rewrite Hobj. destruct (decide (h ∈ hs)); [|apply L2].
    unfold start_obj.
    destruct (EH.running (obj w h)) eqn:Hr.
    { intros Hc. by destruct (L1 h Hr) as [_ ?]; congruence. }
    destruct (EH._start_shutdown (obj w h)) eqn:Hs; [done|].
    cbn. intros Hc. rewrite (L2 h Hc) in Hs. done.
  - intros h. rewrite Hobj. destruct (decide (h ∈ hs)).
    { by rewrite start_obj_running. }
    intros Hr. left.
    destruct (L3 h Hr) as [?|(x & i & Hi & Hc)]; [done|].
    exfalso. apply (Hno x i h Hi). by rewrite Hc.
  - intros h x i Hi Hc. exfalso. apply (Honly x i Hi).
    rewrite Hc. auto with life.
  - intros h t1 t2 i1 i2 H1 _ Hc1 _. exfalso. apply (Honly t1 i1 H1).
    rewrite Hc1. auto with life.
  - intros t1 t2 i1 i2 H1 _ Hf1 _. exfalso. apply (Honly t1 i1 H1).
    auto with life.
  - intros x i Hi Hf. exfalso. apply (Honly x i Hi). auto with life.
  - intros x i h Hi Hf. exfalso. apply (Honly x i Hi). eauto with life.
  - intros m mi Hm Hs. exfalso. apply (Honly m mi Hm). auto with life.
  - rewrite closed_dispatch. congruence.
  - intros m mi Hm Hc. exfalso. apply (Honly m mi Hm). rewrite Hc. by split.
  - rewrite closed_dispatch. congruence.
Qed.

Lemma Inv_step_start t rest info w :
  Inv w → ready w = t :: rest → tasks w !! t = Some info →
  coro info = K_start →
  Inv (step_task t (set_ready rest w)).
Proof.
  intros HInv Hready Hinfo Hco.
  apply (Inv_step_from t rest info w HInv Hready Hinfo).
  rewrite Hco. cbn [run_coro].
  intros w' r. set (w0 := set_ready rest w).
  intros Hrun Hts0 Hl0 _.
  assert (Hfg : foreground K_start) by (by right).
  unfold Dispatch.start in Hrun. rewrite M_bind_eq in Hrun.
  unfold this at 1 in Hrun. cbn [fst snd] in Hrun.
  destruct (D.running (dispatch w0)) eqn:Hr.
  { (* running: nothing to do *)
    injection Hrun as <- <-. intros r'.
    apply (life_closed_fg t K_start r' w0); [done|done|done|done|done| |].
    - apply (idle_while_fresh t K_start); [apply Hts0|done|done|by intros []].
    - congruence. }
  assert (Hcan : ∀ h, can_start (obj w0 h)).
  { intros h Hhr Hhs.
    destruct (h_stopped _ Hl0 h Hhr) as [[_ ?]|(x & i & Hi & Hc)]; [auto|].
    exfalso.
    apply (no_handler_stop t _ w0 (ts_turn _ _ _ Hts0) Hl0 Hfg x i h Hi).
    by rewrite Hc. }
  set (hs := (map_to_list (D._handlers (dispatch w0))).*2).
  assert (Hgo : ∃ wd, tasks wd = tasks w0 ∧ heap wd = heap w0
                 ∧ next_task wd = next_task w0
                 ∧ D.running (dispatch wd) = true
                 ∧ D._start_shutdown (dispatch wd) = false
                 ∧ Dispatch.start_handlers hs wd = (w', r)).
  { destruct (D._start_shutdown (dispatch w0)) eqn:Hss.
    - rewrite (idle_while_fresh t K_start w0) in Hrun;
        [|apply Hts0|done|done|by intros []|done].
      cbn [negb] in Hrun.
      unfold Dispatch.start_resumed, Dispatch.start_running, event_clear,
        write_flag, update_this, modify, Dispatch.handlers_values, this
        in Hrun.
      repeat progress (rewrite ?M_bind_eq, ?M_ret_eq in Hrun;
                       cbn [fst snd] in Hrun).
      eexists. split_and!; [..|exact Hrun]; done.
    - unfold Dispatch.start_running, update_this, modify,
        Dispatch.handlers_values, this in Hrun.
      repeat progress (rewrite ?M_bind_eq, ?M_ret_eq in Hrun;
                       cbn [fst snd] in Hrun).
      eexists. split_and!; [..|exact Hrun]; done. }
  destruct Hgo as (wd & Htd & Hhd & Hnd & Hrd & Hsd & Hrun').
  destruct (start_handlers_eq hs wd) as (w1 & Hst & Heq).
  { intros h _. unfold obj. rewrite Hhd. apply Hcan. }
  rewrite Heq in Hrun'. injection Hrun' as <- <-. intros r'.
  destruct Hst as [H1 H2 H3 H4 H5 H6].
  apply (life_closed_start t hs r' w0); [done|done| | | |].
  - intros x. cbn. rewrite H4, Hnd, H1, Htd.
    change (next_task w0) with (next_task w).
    destruct (decide (x = next_task w)) as [->|].
    + by rewrite lookup_insert_eq.
    + by rewrite lookup_insert_ne.
  - intros h. cbn. change (obj w1 h = if decide (h ∈ hs)
                             then start_obj (obj w0 h) else obj w0 h).
    rewrite H6. unfold obj. by rewrite Hhd.
  - cbn. by rewrite H5.
  - cbn. by rewrite H5.
Qed.

(* ===================================================================== *)
(** ** The calls of the program *)
(* ===================================================================== *)

Lemma same_struct_ok w w' : same_struct w w' → struct_ok w → struct_ok w'.
Proof.
  intros [(Ht & Hr & Hf & Hn) Htasks] [Hcb Hts Hwp]. split.
  - intros x i. rewrite Ht. apply Hcb.
  - intros h k t'. rewrite Htasks, Ht. apply Hts.
  - intros x i ts. rewrite Ht, Hf. apply Hwp.
Qed.

Lemma Inv_evolves w w' :
  same_struct w w' → evolves w w' → Inv w → Inv w'.
Proof.
  intros Hs He [Hi Hst Hl].
  assert (ids_ok w') by (eapply same_loop_ids; [apply Hs|done]).
  assert (struct_ok w') by (by eapply same_struct_ok).
  split; [done..|]. eapply life_evolves; [done..|by apply struct_shape|done].
Qed.

Lemma struct_wake_event ev w :
  struct_ok w →
  struct_ok (wake (λ on, bool_decide (on = WaitEvent ev)) w).1.
Proof.
  set (p := λ on, bool_decide (on = WaitEvent ev)).
  intros [Hcb Hts Hwp]. split.
  - intros x i'. rewrite lookup_wake.
    destruct (tasks w !! x) as [i|] eqn:Hi; [|done]. simpl. intros [= <-].
    specialize (Hcb x i Hi). by destruct (should_wake p i).
  - intros h k t'. rewrite wake_eq. cbn. rewrite Hts, lookup_fmap.
    split; intros [-> (i & Hi & Hd)]; (split; [done|]).
    + rewrite Hi. simpl. eexists. split; [done|].
      by destruct (should_wake p i).
    + destruct (tasks w !! k) as [i0|]; [|done]. simpl in Hi.
      injection Hi as <-. exists i0. split; [done|].
      by destruct (should_wake p i0).
  - intros x i' ts. rewrite lookup_wake.
    destruct (tasks w !! x) as [i|] eqn:Hi; [|done]. simpl. intros [= <-].
    destruct (should_wake p i); [done|]. cbn. eauto.
Qed.

Lemma Inv_wake_event ev w :
  (ev = Ev_shutdown_complete → D._shutdown_complete (dispatch w) = true) →
  Inv w → Inv (wake (λ on, bool_decide (on = WaitEvent ev)) w).1.
Proof.
  intros Hsc [Hi Hst Hl].
  assert (struct_ok (wake (λ on, bool_decide (on = WaitEvent ev)) w).1)
    by (by apply struct_wake_event).
  split; [by apply ids_wake|done|].
  eapply life_evolves; [by apply evolves_wake_event|by apply ids_wake| |done].
  by apply struct_shape.
Qed.

Lemma idle_wake p w : idle w → idle (wake p w).1.
Proof.
  intros Hidle x i'. rewrite lookup_wake.
  destruct (tasks w !! x) as [i|] eqn:Hi; [|done]. simpl. intros [= <-].
  specialize (Hidle x i Hi). by destruct (should_wake p i).
Qed.

Lemma idle_same w w' : tasks w' = tasks w → idle w → idle w'.
Proof. intros Ht Hidle x i. rewrite Ht. apply Hidle. Qed.

(** [trigger]. *)
Lemma trigger_eq event params w :
  Dispatch.trigger event params w
  = let w1 := set_dispatch
                (D.set_queue (D._queue (dispatch w) ++ [(event, params)])
                   (dispatch w)) w in
    if D._resume_processing (dispatch w) then (w1, Ok tt)
    else wake (λ on, bool_decide (on = WaitEvent Ev_resume_processing))
           (set_dispatch (D.set_resume_processing true (dispatch w1)) w1).
Proof.
  unfold Dispatch.trigger, update_this, modify, event_set, get, write_flag.
  repeat progress (rewrite ?M_bind_eq, ?M_ret_eq; cbn [fst snd]).
  unfold is_set. cbn [dispatch set_dispatch D._resume_processing D.set_queue].
  destruct (D._resume_processing (dispatch w)); [done|].
  repeat progress (rewrite ?M_bind_eq, ?M_ret_eq; cbn [fst snd]). done.
Qed.

Lemma Inv_trigger event params w :
  Inv w → Inv (Dispatch.trigger event params w).1.
Proof.
  intros HInv. rewrite trigger_eq. cbv zeta.
  destruct (D._resume_processing (dispatch w)).
  - eapply same_life_Inv; [|done]. by split.
  - apply Inv_wake_event; [done|].
    eapply same_life_Inv; [|done]. by split.
Qed.

Lemma idle_trigger event params w :
  idle w → idle (Dispatch.trigger event params w).1.
Proof.
  intros Hidle. rewrite trigger_eq. cbv zeta.
  destruct (D._resume_processing (dispatch w)); [done|].
  by apply idle_wake.
Qed.

(** [register]: the new handler is a new object. *)
Lemma fresh_handler w : heap w !! fresh (dom (heap w)) = None.
Proof. apply not_elem_of_dom, is_fresh. Qed.

Lemma register_eq event params w :
  Dispatch.register event params w
  = match D._handlers (dispatch w) !! event with
    | Some _ => (w, Raise ValueError)
    | None =>
        let handler := fresh (dom (heap w)) in
        (set_dispatch
           (D.set_handlers (<[event := handler]> (D._handlers (dispatch w)))
              (dispatch w))
           (set_heap (<[handler := EH.__init__ event params]> (heap w)) w),
         Ok tt)
    end.
Proof.
  unfold Dispatch.register. rewrite M_bind_eq. unfold this at 1.
  cbn [fst snd]. destruct (D._handlers (dispatch w) !! event); [done|].
  unfold update_this, modify, get.
  repeat progress (rewrite ?M_bind_eq, ?M_ret_eq; cbn [fst snd]). done.
Qed.

Lemma register_obj event params w h :
  let w' := (Dispatch.register event params w).1 in
  EH.running (obj w' h) = EH.running (obj w h)
  ∧ EH._start_shutdown (obj w' h) = EH._start_shutdown (obj w h)
  ∧ EH._shutdown_complete (obj w' h) = EH._shutdown_complete (obj w h)
  ∧ EH._tasks (obj w' h) = EH._tasks (obj w h).
Proof.
  cbv zeta. rewrite register_eq.
  destruct (D._handlers (dispatch w) !! event); [done|].
  cbn [fst heap set_dispatch set_heap].
  destruct (decide (h = fresh (dom (heap w)))) as [->|Hne].
  - rewrite lookup_total_insert_eq.
    rewrite (lookup_total_alt (heap w)), fresh_handler. done.
  - by rewrite lookup_total_insert_ne.
Qed.

Lemma Inv_register event params w :
  Inv w → Inv (Dispatch.register event params w).1.
Proof.
  assert (Hloop : same_loop w (Dispatch.register event params w).1).
  { rewrite register_eq. by destruct (D._handlers (dispatch w) !! event). }
  assert (Hd : ∀ e h, D._handlers (dispatch (Dispatch.register event params w).1)
                        !! e = Some h →
                      D._handlers (dispatch w) !! e = Some h
                      ∨ EH.running (obj (Dispatch.register event params w).1 h)
                        = false).
  { intros e h. pose proof (register_obj event params w h) as (Hr & _).
    cbv zeta in Hr. rewrite Hr. rewrite register_eq.
    destruct (D._handlers (dispatch w) !! event) eqn:Hev; [by left|].
    cbn [fst dispatch set_dispatch D._handlers D.set_handlers].
    destruct (decide (e = event)) as [->|].
    - rewrite lookup_insert_eq. intros [= <-]. right.
      rewrite (lookup_total_alt (heap w)), fresh_handler. done.
    - rewrite lookup_insert_ne by done. by left. }
  assert (Hflags : D.running (dispatch (Dispatch.register event params w).1)
                   = D.running (dispatch w)
                   ∧ D._start_shutdown
                       (dispatch (Dispatch.register event params w).1)
                     = D._start_shutdown (dispatch w)
                   ∧ D._shutdown_complete
                       (dispatch (Dispatch.register event params w).1)
                     = D._shutdown_complete (dispatch w)).
  { rewrite register_eq. by destruct (D._handlers (dispatch w) !! event). }
  destruct Hflags as (Hf1 & Hf2 & Hf3).
  destruct Hloop as (Ht & Hr & Hf & Hn).
  apply Inv_evolves.
  - split; [done|]. intros h. apply register_obj.
  - split; try (intros h; apply register_obj); try done.
    + intros x i Hi _. exists i. rewrite Ht. split_and!; [done..|by left].
    + intros x i' Hi' _. exists i'. by rewrite <- Ht.
    + intros t. by rewrite Hf.
    + intros h _ k. by destruct (register_obj event params w h)
        as (_ & _ & _ & ->).
    + by rewrite Hf3.
Qed.

Lemma Inv_unregister event w :
  Inv w → Inv (Dispatch.unregister event w).1.
Proof.
  apply Inv_evolves; [done|].
  split; try done.
  - intros x i Hi _. exists i. split_and!; [done..|by left].
  - intros x i' Hi' _. by exists i'.
  - intros e h. cbn. intros [_ ?]%lookup_delete_Some. by left.
Qed.

Lemma subscribe_same event callback w :
  same_life w ((register ← Dispatch.on event;
                EventHandler.register register callback) w).1.
Proof.
  unfold Dispatch.on. rewrite !M_bind_eq. unfold this at 1. cbn [fst snd].
  destruct (D._handlers (dispatch w) !! event) as [h|]; [|done].
  rewrite M_ret_eq. unfold EventHandler.register, EventHandler._validate.
  rewrite !M_bind_eq. unfold deref at 1. cbn [fst snd]. unfold lift.
  destruct (validate_func _ _ _); [|done].
  unfold update, modify.
  repeat progress (rewrite ?M_bind_eq, ?M_ret_eq; cbn [fst snd]).
  split; try done; intros h'; cbn;
    (destruct (decide (h' = h)) as [->|];
     [by rewrite lookup_total_insert_eq|by rewrite lookup_total_insert_ne]).
Qed.

Lemma clear_loop_same n w : same_life w (Dispatch.clear_loop n w).1.
Proof.
  revert w. induction n as [|n IH]; intros w; [done|].
  cbn [Dispatch.clear_loop]. rewrite M_bind_eq. unfold get at 1.
  cbn [fst snd]. destruct (bool_decide _); [|done].
  rewrite M_bind_eq. unfold Dispatch.queue_get at 1.
  destruct (D._queue (dispatch w)) as [|d q]; [apply IH|].
  destruct (IH (set_dispatch (D.set_queue q (dispatch w)) w)).
  by split.
Qed.

Lemma clear_same w : same_life w (Dispatch.clear w).1.
Proof.
  unfold Dispatch.clear. rewrite M_bind_eq. unfold this at 1. cbn [fst snd].
  destruct (D.running (dispatch w)); [done|].
  rewrite M_bind_eq. unfold get at 1. cbn [fst snd]. apply clear_loop_same.
Qed.

(* ===================================================================== *)
(** ** What a turn does to the other tasks *)
(* ===================================================================== *)

#[global] Instance kept_preorder t k : PreOrder (kept t k).
Proof.
  split.
  - intros w H. split_and!; [done|eauto| |done]. intros x i' ->. done.
  - intros w1 w2 w3 H12 H23 H1.
    destruct (H12 H1) as (H2 & Hk12 & Hn12 & Hf12).
    destruct (H23 H2) as (H3 & Hk23 & Hn23 & Hf23).
    split_and!; [done| | |congruence].
    + intros x i Hi. destruct (Hk12 x i Hi) as (i2 & Hi2 & Hc2).
      destruct (Hk23 x i2 Hi2) as (i3 & Hi3 & Hc3).
      exists i3. split; [done|congruence].
    + intros x i3 Hi3 Hnone.
      destruct (tasks w2 !! x) as [i2|] eqn:Hi2; [|by eapply Hn23].
      destruct (Hk23 x i2 Hi2) as (i3' & Hi3' & Hc3).
      assert (i3' = i3) as -> by congruence. rewrite Hc3.
      by eapply Hn12.
Qed.

Lemma kept_same_loop {A} t k0 (m : M A) :
  (∀ w, same_loop w (m w).1) → keeps (kept t k0) m.
Proof.
  intros H w Hturn. destruct (H w) as (Ht & Hr & Hf & Hn).
  split_and!; [by apply (same_loop_turn t k0 m H w)| | |done].
  - intros x i. rewrite Ht. eauto.
  - intros x i'. rewrite Ht. congruence.
Qed.

Lemma kept_create_task t k0 k :
  ¬ foreground k → keeps (kept t k0) (create_task k).
Proof.
  intros Hk w Hturn.
  pose proof (fresh_task t k0 w Hturn) as Hfresh.
  split_and!; [by apply turn_create_task| | |done]; cbn.
  - intros x i Hi. exists i. split; [|done].
    rewrite lookup_insert_ne; [done|congruence].
  - intros x i'. destruct (decide (x = next_task w)) as [->|].
    + rewrite lookup_insert_eq. by intros [= <-].
    + rewrite lookup_insert_ne by done. congruence.
Qed.

Lemma kept_add_done_callback t k0 t' h :
  keeps (kept t k0) (add_done_callback t' h).
Proof.
  intros w Hturn.
  split_and!; [by apply turn_add_done_callback| | |done]; cbn.
  - intros x i Hi. rewrite lookup_alter_info, Hi. cbn.
    eexists. split; [done|]. by destruct (decide (t' = x)).
  - intros x i'. rewrite lookup_alter_info. intros Hi' Hnone.
    by rewrite Hnone in Hi'.
Qed.

Lemma kept_wake t k0 p : keeps (kept t k0) (wake p).
Proof.
  intros w Hturn.
  split_and!; [by apply turn_wake| | |by rewrite wake_eq].
  - intros x i Hi. rewrite lookup_wake, Hi. cbn.
    eexists. split; [done|]. by destruct (should_wake p i).
  - intros x i'. rewrite lookup_wake. intros Hi' Hnone.
    by rewrite Hnone in Hi'.
Qed.

(** What is kept by the primitive reads and writes is kept by the
    coroutines made of them. *)
Section coroutines.
Context (R : relation World) `{!PreOrder R}.
Hypothesis R_create_task : ∀ k, ¬ foreground k → keeps R (create_task k).
Hypothesis R_add_done_callback :
  ∀ t h, keeps R (add_done_callback t h).
(* the writes to a handler that do not start it *)
Hypothesis R_update :
  ∀ self f, (∀ o, EH.running o = false → EH.running (f o) = false) →
            keeps R (update self f).
Hypothesis R_write_flag : ∀ ev v, keeps R (write_flag ev v).
Hypothesis R_wake : ∀ p, keeps R (wake p).
Hypothesis R_queue_get : keeps R Dispatch.queue_get.
Hypothesis R_set_routed :
  ∀ f : World → list Delivery, keeps R (modify (λ w, set_routed (f w) w)).
Hypothesis R_set_calls :
  ∀ f : World → list (string * Call),
    keeps R (modify (λ w, set_calls (f w) w)).

Ltac prim :=
  first [ apply R_create_task; by intros [?|?]
        | apply R_add_done_callback | apply R_update; by intros o
        | apply R_write_flag
        | apply R_wake | apply R_queue_get | apply R_set_routed
        | apply R_set_calls | solve [auto] ].

Lemma R_event_set ev : keeps R (event_set ev).
Proof. unfold event_set. repeat keeps_step; prim. Qed.

Lemma R_call self params : keeps R (EventHandler.__call__ self params).
Proof. unfold EventHandler.__call__. repeat keeps_step; prim. Qed.

Lemma R_handler_stop_resumed self :
  keeps R (EventHandler.stop_resumed self).
Proof.
  pose proof R_event_set.
  unfold EventHandler.stop_resumed. repeat keeps_step; prim.
Qed.

Lemma R_handler_stop self : keeps R (EventHandler.stop self).
Proof.
  pose proof R_handler_stop_resumed.
  unfold EventHandler.stop. repeat keeps_step; prim.
Qed.

Lemma R_run_loop n : keeps R (Dispatch._run_loop n).
Proof.
  pose proof R_event_set. pose proof R_call.
  induction n as [|n IH]; simpl;
    unfold Dispatch._run_deliver, event_clear; repeat keeps_step; prim.
Qed.

Lemma R_stop_tasks hs : keeps R (Dispatch.stop_tasks hs).
Proof. induction hs as [|h hs IH]; simpl; repeat keeps_step; prim. Qed.

(** The consumer loop, the invocations and [handler.stop()]. *)
Lemma R_run_coro_others k : ¬ foreground k → keeps R (run_coro k).
Proof.
  pose proof R_run_loop. pose proof R_handler_stop.
  pose proof R_handler_stop_resumed.
  intros Hk. destruct k; simpl;
    try (exfalso; apply Hk; by (left + right));
    unfold Dispatch._run_resumed, Dispatch._run, wrapper_task, body,
      event_clear;
    repeat keeps_step; prim.
Qed.

(* [start()] and [stop()] also write the flags of the engine, and
   [start()] starts the handlers *)
Hypothesis R_update_this : ∀ f, keeps R (update_this f).
Hypothesis R_update_start : ∀ self f, keeps R (update self f).

Lemma R_handler_start self : keeps R (EventHandler.start self).
Proof.
  unfold EventHandler.start, EventHandler.start_resumed,
    EventHandler.start_running, event_clear.
  repeat keeps_step; first [apply R_update_start|prim].
Qed.

Lemma R_start_handlers hs : keeps R (Dispatch.start_handlers hs).
Proof.
  pose proof R_handler_start.
  induction hs as [|h hs IH]; simpl; repeat keeps_step; prim.
Qed.

Lemma R_run_coro k : keeps R (run_coro k).
Proof.
  pose proof R_run_coro_others. pose proof R_event_set.
  pose proof R_start_handlers. pose proof R_stop_tasks.
  pose proof R_handler_start.
  destruct (decide (foreground k)) as [Hk|Hk]; [|auto].
  destruct k; simpl; try (by destruct Hk);
    unfold Dispatch.stop, Dispatch.stop_handlers_done,
      Dispatch.stop_resumed, Dispatch.start, Dispatch.start_resumed,
      Dispatch.start_running, Dispatch.start_handler_resumed,
      Dispatch.handlers_values, EventHandler.start_resumed,
      EventHandler.start_running, event_clear;
    repeat keeps_step;
    first [apply R_update_this|apply R_update_start|prim].
Qed.
End coroutines.

Lemma kept_run_coro t k0 k : keeps (kept t k0) (run_coro k).
Proof.
  apply R_run_coro; try apply _.
  - apply kept_create_task.
  - apply kept_add_done_callback.
  - intros. by apply kept_same_loop.
  - intros ev v. apply kept_same_loop. intros w. by destruct ev.
  - apply kept_wake.
  - apply kept_same_loop. intros w. unfold Dispatch.queue_get.
    by destruct (D._queue _).
  - intros. by apply kept_same_loop.
  - intros. by apply kept_same_loop.
  - intros. by apply kept_same_loop.
  - intros. by apply kept_same_loop.
Qed.

Lemma lookup_finish t r w x :
  tasks (finish t r w).1 !! x
  = (λ i, if should_wake (all_finished (closed t r w)) i
          then mkTaskInfo (coro i) None (done_callbacks i) else i)
      <$> delete t (tasks w) !! x.
Proof. by rewrite finish_eq, lookup_wake, closed_tasks. Qed.

Lemma finished_finish t r w : finished (finish t r w).1 = <[t := r]> (finished w).
Proof. by rewrite finish_eq, wake_eq, <- closed_finished. Qed.

Lemma dispatch_finish t r w : dispatch (finish t r w).1 = dispatch w.
Proof. by rewrite finish_eq, wake_eq, <- (closed_dispatch t r w). Qed.

Lemma lookup_yielded t k' w x :
  tasks (yielded t k' w) !! x
  = (if decide (t = x)
     then λ i, mkTaskInfo k' None (done_callbacks i) else id) <$> tasks w !! x.
Proof. unfold yielded, set_coro, reschedule, modify. cbn. apply lookup_alter_info. Qed.

(** One turn of the task [t], seen from the other tasks. *)
Lemma step_others t rest info w :
  Inv w → ready w = t :: rest → tasks w !! t = Some info →
  let w0 := set_ready rest w in
  let w' := step_task t w0 in
  (∀ x i, x ≠ t → tasks w !! x = Some i →
          ∃ i', tasks w' !! x = Some i' ∧ coro i' = coro i)
  ∧ (∀ x i', x ≠ t → tasks w' !! x = Some i' → tasks w !! x = None →
             ¬ foreground (coro i'))
  ∧ (∀ x, x ≠ t → finished w' !! x = finished w !! x)
  ∧ match run_coro (coro info) w0 with
    | (w1, Ok Return) | (w1, Raise _) =>
        tasks w' !! t = None ∧ is_Some (finished w' !! t)
        ∧ dispatch w' = dispatch w1
    | (w1, Ok (Yield k')) | (w1, Ok (Suspend k' _)) =>
        ∃ i', tasks w' !! t = Some i' ∧ coro i' = k'
    end.
Proof.
  intros HInv Hready Hinfo w0 w'.
  destruct (turn_begin t rest info w HInv Hready Hinfo) as [Hts0 Hl0].
  fold w0 in Hts0, Hl0.
  assert (Hinfo0 : tasks w0 !! t = Some info) by done.
  unfold w'. rewrite (step_task_eq t info) by done.
  destruct (kept_run_coro t (coro info) (coro info) w0 (ts_turn _ _ _ Hts0))
    as (Hturn1 & Hk & Hn & Hf).
  destruct (run_coro (coro info) w0) as [w1 r]. cbn [fst snd] in *.
  destruct (Hk t info Hinfo0) as (i1 & Hi1 & _).
  assert (Hfin : ∀ r0,
    (∀ x i, x ≠ t → tasks w !! x = Some i →
            ∃ i', tasks (finish t r0 w1).1 !! x = Some i' ∧ coro i' = coro i)
    ∧ (∀ x i', x ≠ t → tasks (finish t r0 w1).1 !! x = Some i' →
               tasks w !! x = None → ¬ foreground (coro i'))
    ∧ (∀ x, x ≠ t → finished (finish t r0 w1).1 !! x = finished w !! x)
    ∧ tasks (finish t r0 w1).1 !! t = None
    ∧ is_Some (finished (finish t r0 w1).1 !! t)
    ∧ dispatch (finish t r0 w1).1 = dispatch w1).
  { intros r0. split_and!.
    - intros x i Hx Hi. destruct (Hk x i Hi) as (i' & Hi' & Hc).
      rewrite lookup_finish, lookup_delete_ne, Hi' by done. cbn.
      eexists. split; [done|]. by destruct (should_wake _ i').
    - intros x i' Hx. rewrite lookup_finish, lookup_delete_ne by done.
      destruct (tasks w1 !! x) as [i1'|] eqn:Hi1'; [|done]. cbn.
      intros [= <-] Hnone. specialize (Hn x i1' Hi1' Hnone).
      by destruct (should_wake _ i1').
    - intros x Hx. by rewrite finished_finish, lookup_insert_ne, Hf.
    - by rewrite lookup_finish, lookup_delete_eq.
    - rewrite finished_finish, lookup_insert_eq. eauto.
    - apply dispatch_finish. }
  assert (Hyield : ∀ k',
    (∀ x i, x ≠ t → tasks w !! x = Some i →
            ∃ i', tasks (yielded t k' w1) !! x = Some i' ∧ coro i' = coro i)
    ∧ (∀ x i', x ≠ t → tasks (yielded t k' w1) !! x = Some i' →
               tasks w !! x = None → ¬ foreground (coro i'))
    ∧ (∀ x, x ≠ t → finished (yielded t k' w1) !! x = finished w !! x)
    ∧ ∃ i', tasks (yielded t k' w1) !! t = Some i' ∧ coro i' = k').
  { intros k'. split_and!.
    - intros x i Hx Hi. destruct (Hk x i Hi) as (i' & Hi' & Hc).
      rewrite lookup_yielded, Hi', decide_False by done. cbn. eauto.
    - intros x i' Hx. rewrite lookup_yielded, decide_False by done.
      rewrite option_fmap_id. intros Hi' Hnone. by apply (Hn x i' Hi').
    - intros x _. transitivity (finished w1 !! x); [done|by rewrite Hf].
    - rewrite lookup_yielded, Hi1, decide_True by done. cbn. eauto. }
  destruct r as [[ |k' on|k']|e].
  - exact (Hfin None).
  - destruct (wait_over w1 on); [apply Hyield|].
    split_and!.
    + intros x i Hx Hi. destruct (Hk x i Hi) as (i' & Hi' & Hc).
      unfold suspended. rewrite lookup_set_coro, Hi', decide_False by done.
      cbn. eauto.
    + intros x i' Hx. unfold suspended.
      rewrite lookup_set_coro, decide_False by done.
      rewrite option_fmap_id. intros Hi' Hnone. by apply (Hn x i' Hi').
    + intros x _. transitivity (finished w1 !! x); [done|by rewrite Hf].
    + unfold suspended. rewrite lookup_set_coro, Hi1, decide_True by done.
      cbn. eauto.
  - apply Hyield.
  - exact (Hfin (Some e)).
Qed.

(* ===================================================================== *)
(** ** The invariant holds after every turn of the loop *)
(* ===================================================================== *)

Lemma Inv_set_ready l w :
  l ⊆ ready w → NoDup l → Inv w → Inv (set_ready l w).
Proof.
  intros Hsub Hnd [[Hit Hif Hir Hd _ Hw] Hst Hl]. split.
  - split; cbn; eauto.
  - destruct Hst. by split.
  - destruct Hl. by split.
Qed.

Lemma Inv_loop_step w w' : Inv w → loop_step w = Some w' → Inv w'.
Proof.
  intros HInv. unfold loop_step.
  destruct (ready w) as [|t rest] eqn:Hready; [done|]. intros [= <-].
  destruct (tasks w !! t) as [info|] eqn:Hinfo.
  2:{ unfold step_task. cbn [tasks set_ready]. rewrite Hinfo.
      pose proof (ready_nodup _ (inv_ids _ HInv)) as Hnd.
      rewrite Hready in Hnd. apply NoDup_cons in Hnd as [_ Hnd].
      apply Inv_set_ready; [|done..]. rewrite Hready.
      intros x Hx. by right. }
  destruct (coro info) eqn:Hco.
  - apply (Inv_step_background t rest info); [done..|].
    rewrite Hco. by intros [? _].
  - apply (Inv_step_background t rest info); [done..|].
    rewrite Hco. by intros [? _].
  - apply (Inv_step_background t rest info); [done..|].
    rewrite Hco. by intros [_ ?].
  - apply (Inv_step_background t rest info); [done..|].
    rewrite Hco. by intros [_ ?].
  - by eapply Inv_step_handler_stop.
  - by eapply Inv_step_handler_stop_resumed.
  - by eapply Inv_step_stop.
  - by eapply Inv_step_stop_handlers_done.
  - by eapply Inv_step_stop_resumed.
  - by eapply Inv_step_start.
  - pose proof (fg_start_fresh _ (inv_life _ HInv) t info Hinfo) as Hfresh.
    rewrite Hco in Hfresh. by specialize (Hfresh eq_refl).
  - pose proof (fg_start_fresh _ (inv_life _ HInv) t info Hinfo) as Hfresh.
    rewrite Hco in Hfresh. by specialize (Hfresh eq_refl).
Qed.

(** [stop()] does not raise, and when it returns the engine is not
    running. *)
Lemma stop_returns t k w0 w1 r :
  turn_struct t k w0 → life_ok w0 → family k = F_stop →
  run_coro k w0 = (w1, r) →
  match r with
  | Ok Return => D.running (dispatch w1) = false
  | Raise _ => False
  | _ => True
  end.
Proof.
  intros Hts Hl Hfam Hrun.
  destruct (turn_live _ _ _ (ts_turn _ _ _ Hts)) as [it Hit].
  pose proof (turn_coro _ _ _ (ts_turn _ _ _ Hts) it Hit) as Hcot.
  assert (Hst : stopping k → D.running (dispatch w0) = false).
  { intros Hs. apply (stopping_not_running _ Hl t it Hit). by rewrite Hcot. }
  destruct k; try done; cbn [run_coro] in Hrun.
  - rewrite stop_eq in Hrun.
    destruct (D.running (dispatch w0)) eqn:Hr.
    2:{ by injection Hrun as <- <-. }
    cbv zeta in Hrun.
    match type of Hrun with
    | context [Dispatch.stop_tasks ?hs ?ww] =>
        destruct (stop_tasks_eq hs ww) as (w3 & Heq & _ & _ & Hd & _);
        rewrite Heq in Hrun;
        destruct hs as [|h hs']
    end.
    + cbn [length seq] in Hrun. unfold Dispatch.stop_handlers_done in Hrun.
      rewrite M_bind_eq in Hrun. unfold get at 1 in Hrun.
      cbn [fst snd] in Hrun.
      destruct (is_set Ev_shutdown_complete w3); injection Hrun as <- <-;
        [|done].
      by rewrite Hd.
    + cbn [length seq] in Hrun. by injection Hrun as <- <-.
  - unfold Dispatch.stop_handlers_done in Hrun.
    rewrite M_bind_eq in Hrun. unfold get at 1 in Hrun.
    cbn [fst snd] in Hrun.
    destruct (is_set Ev_shutdown_complete w0); injection Hrun as <- <-;
      [|done].
    by apply Hst.
  - injection Hrun as <- <-. by apply Hst.
Qed.

(** [start()] returns in its first turn, with the engine running. *)
Lemma start_returns t w0 :
  turn_struct t K_start w0 → life_ok w0 →
  ∃ w1, run_coro K_start w0 = (w1, Ok Return)
        ∧ D.running (dispatch w1) = true.
Proof.
  intros Hts0 Hl0. cbn [run_coro].
  assert (Hfg : foreground K_start) by (by right).
  unfold Dispatch.start. rewrite M_bind_eq.
  unfold this at 1. cbn [fst snd].
  destruct (D.running (dispatch w0)) eqn:Hr.
  { by exists w0. }
  assert (Hcan : ∀ h, can_start (obj w0 h)).
  { intros h Hhr Hhs.
    destruct (h_stopped _ Hl0 h Hhr) as [[_ ?]|(x & i & Hi & Hc)]; [auto|].
    exfalso.
    apply (no_handler_stop t _ w0 (ts_turn _ _ _ Hts0) Hl0 Hfg x i h Hi).
    by rewrite Hc. }
  set (hs := (map_to_list (D._handlers (dispatch w0))).*2).
  assert (Hgo : ∃ wd, heap wd = heap w0
                 ∧ D.running (dispatch wd) = true
                 ∧ (if D._start_shutdown (dispatch w0)
                    then if negb (D._shutdown_complete (dispatch w0))
                         then mret (Suspend K_start_resumed
                                      (WaitEvent Ev_shutdown_complete))
                         else Dispatch.start_resumed
                    else Dispatch.start_running) w0
                   = Dispatch.start_handlers hs wd).
  { destruct (D._start_shutdown (dispatch w0)) eqn:Hss.
    - rewrite (idle_while_fresh t K_start w0);
        [|apply Hts0|done|done|by intros []|done].
      cbn [negb].
      unfold Dispatch.start_resumed, Dispatch.start_running, event_clear,
        write_flag, update_this, modify, Dispatch.handlers_values, this.
      repeat progress (rewrite ?M_bind_eq, ?M_ret_eq; cbn [fst snd]).
      eexists. split_and!; [..|reflexivity]; done.
    - unfold Dispatch.start_running, update_this, modify,
        Dispatch.handlers_values, this.
      repeat progress (rewrite ?M_bind_eq, ?M_ret_eq; cbn [fst snd]).
      eexists. split_and!; [..|reflexivity]; done. }
  destruct Hgo as (wd & Hhd & Hrd & ->).
  destruct (start_handlers_eq hs wd) as (w1 & Hst & Heq).
  { intros h _. rewrite Hhd. apply Hcan. }
  rewrite Heq. eexists. split; [done|].
  cbn. by rewrite (st_dispatch _ _ _ Hst).
Qed.

(** The program calls [start()] or [stop()]: the coroutine is made a task
    of the loop. *)
Lemma Inv_call k w :
  k = K_start ∨ k = K_stop → Inv w → idle w → Inv (create_task k w).1.
Proof.
  intros Hk [[Hit Hif Hir Hd Hnd Hw] [Hcb Hts Hwp] Hl] Hidle.
  assert (Hfresh : tasks w !! next_task w = None).
  { destruct (tasks w !! next_task w) eqn:E; [|done].
    assert (next_task w < next_task w) by (apply Hit; eauto). lia. }
  assert (Hfam : family k ≠ F_invocation) by (by destruct Hk as [-> | ->]).
  assert (Hfg : foreground k)
    by (destruct Hk as [-> | ->]; [by right|by left]).
  assert (Hlook : ∀ x i, tasks (create_task k w).1 !! x = Some i →
            (x = next_task w ∧ i = mkTaskInfo k None [])
            ∨ (x ≠ next_task w ∧ tasks w !! x = Some i)).
  { intros x i. cbn. destruct (decide (x = next_task w)) as [->|].
    - rewrite lookup_insert_eq. intros [= <-]. by left.
    - rewrite lookup_insert_ne by done. by right. }
  assert (Hold : ∀ x i, tasks w !! x = Some i →
                        tasks (create_task k w).1 !! x = Some i).
  { intros x i Hi. cbn. rewrite lookup_insert_ne; [done|congruence]. }
  split.
  - split; cbn.
    + intros t' [i Hi]. destruct (decide (t' = next_task w)) as [->|]; [lia|].
      rewrite lookup_insert_ne in Hi by done.
      assert (t' < next_task w) by (apply Hit; eauto). lia.
    + intros t' Ht'. assert (t' < next_task w) by auto. lia.
    + intros t' [Ht'|Ht']%elem_of_app.
      * assert (t' < next_task w) by auto. lia.
      * apply list_elem_of_singleton in Ht'. lia.
    + intros t' [i Hi]. destruct (decide (t' = next_task w)) as [->|].
      * destruct (finished w !! next_task w) eqn:E; [|done].
        assert (next_task w < next_task w) by (apply Hif; eauto). lia.
      * rewrite lookup_insert_ne in Hi by done. apply Hd. eauto.
    + apply NoDup_app. split_and!; [done| |apply NoDup_singleton].
      intros t' Ht' ->%list_elem_of_singleton.
      assert (next_task w < next_task w) by auto. lia.
    + intros t' i Ht' Hi. destruct (decide (t' = next_task w)) as [->|].
      * rewrite lookup_insert_eq in Hi. by injection Hi as <-.
      * rewrite lookup_insert_ne in Hi by done.
        apply elem_of_app in Ht' as [Ht'|Ht'%list_elem_of_singleton]; [|done].
        by eapply Hw.
  - split; cbn.
    + intros x i. destruct (decide (x = next_task w)) as [->|].
      * rewrite lookup_insert_eq. intros [= <-]. cbn. by rewrite decide_False.
      * rewrite lookup_insert_ne by done. apply Hcb.
    + intros h k' t'. rewrite Hts.
      split; intros [-> (i & Hi & Hdc)]; (split; [done|]).
      * exists i. split; [|done]. rewrite lookup_insert_ne; [done|congruence].
      * destruct (decide (k' = next_task w)) as [->|].
        -- rewrite lookup_insert_eq in Hi. injection Hi as <-. done.
        -- rewrite lookup_insert_ne in Hi by done. eauto.
    + intros x i ts. destruct (decide (x = next_task w)) as [->|].
      * rewrite lookup_insert_eq. by intros [= <-].
      * rewrite lookup_insert_ne by done. apply Hwp.
  - assert (Hnos : ∀ x i, tasks (create_task k w).1 !! x = Some i →
                          ¬ stopping (coro i)).
    { intros x i [[-> ->]|[_ Hi]]%Hlook Hs.
      - by destruct Hk as [-> | ->].
      - apply (Hidle x i Hi). left. by destruct (coro i). }
    assert (Hnol : ∀ x i, tasks (create_task k w).1 !! x = Some i →
              lifecycle (coro i) → x = next_task w ∧ coro i = k).
    { intros x i [[-> ->]|[_ Hi]]%Hlook Hlc; [done|]. exfalso.
      destruct Hlc as [Hl1 Hl2]. destruct (family (coro i)) eqn:Hf; try done.
      - destruct (hstop_owned _ Hl x i h Hi Hf) as (m & mi & ts & Hm & Hc & _).
        apply (Hidle m mi Hm). rewrite Hc. by left.
      - apply (Hidle x i Hi). by left.
      - apply (Hidle x i Hi). by right. }
    destruct Hl as [L1 L2 L3 L4 L5 L6 L7 L8 L9 L10 L11 L12].
    split.
    + apply L1.
    + apply L2.
    + intros h Hr. destruct (L3 h Hr) as [?|(x & i & Hi & Hc)]; [by left|].
      right. exists x, i. split; [by apply Hold|done].
    + intros h x i Hi Hc. exfalso.
      destruct (Hnol x i Hi) as [_ Hc']; [rewrite Hc; auto with life|].
      rewrite Hc in Hc'. by destruct Hk as [-> | ->].
    + intros h t1 t2 i1 i2 H1 _ Hc1 _. exfalso.
      destruct (Hnol t1 i1 H1) as [_ Hc']; [rewrite Hc1; auto with life|].
      rewrite Hc1 in Hc'. by destruct Hk as [-> | ->].
    + intros t1 t2 i1 i2 H1 H2 Hf1 Hf2.
      destruct (Hnol t1 i1 H1) as [-> _]; [auto with life|].
      by destruct (Hnol t2 i2 H2) as [-> _]; [auto with life|].
    + intros x i Hi Hf.
      destruct (Hnol x i Hi) as [_ Hc']; [eauto with life|].
      rewrite Hc' in Hf |- *. by destruct Hk as [-> | ->].
    + intros x i h Hi Hf. exfalso.
      destruct (Hnol x i Hi) as [_ Hc']; [eauto with life|].
      rewrite Hc' in Hf. by destruct Hk as [-> | ->].
    + intros m mi Hm Hs. exfalso. by apply (Hnos m mi Hm).
    + intros Hdr e h He.
      destruct (L10 Hdr e h He) as [?|(x & i & Hi & Hc)]; [by left|].
      right. exists x, i. split; [by apply Hold|done].
    + intros m mi Hm Hc. exfalso. apply (Hnos m mi Hm). by rewrite Hc.
    + intros _. apply L12. intros m mi Hm Hs.
      apply (Hidle m mi Hm). left. by destruct (coro mi).
Qed.

(** [run_until_complete(main)] where [main] is a call of [start()] or
    [stop()]: when it returns the call has returned without an exception,
    no other call is under way, and the engine is running after [start()]
    and not running after [stop()]. *)
Lemma run_call fuel main i w w' :
  Inv w → busy main w → tasks w !! main = Some i → foreground (coro i) →
  run_until_complete fuel main w = Some w' →
  Inv w' ∧ idle w'
  ∧ finished w' !! main = Some None
  ∧ D.running (dispatch w')
    = bool_decide (family (coro i) = F_start).
Proof.
  revert i w. induction fuel as [|fuel IH]; intros i w HInv Hbusy Hi Hfg.
  - cbn [run_until_complete]. unfold is_finished.
    rewrite (ids_disjoint _ (inv_ids _ HInv) main (ex_intro _ i Hi)).
    rewrite bool_decide_eq_false_2 by (by intros [? ?]). done.
  - cbn [run_until_complete]. unfold is_finished at 1.
    rewrite (ids_disjoint _ (inv_ids _ HInv) main (ex_intro _ i Hi)).
    rewrite bool_decide_eq_false_2 by (by intros [? ?]).
    destruct (loop_step w) as [w1|] eqn:Hstep; [|done]. cbn [mbind option_bind].
    pose proof (Inv_loop_step w w1 HInv Hstep) as HInv1.
    unfold loop_step in Hstep.
    destruct (ready w) as [|t rest] eqn:Hready; [done|].
    injection Hstep as Hw1.
    destruct (tasks w !! t) as [info|] eqn:Hinfo.
    2:{ (* a task that is no more: nothing happens *)
      assert (w1 = set_ready rest w) as ->.
      { rewrite <- Hw1. unfold step_task. cbn [tasks set_ready].
        by rewrite Hinfo. }
      by apply (IH i). }
    destruct (turn_begin t rest info w HInv Hready Hinfo) as [Hts0 Hl0].
    destruct (step_others t rest info w HInv Hready Hinfo)
      as (Hk & Hn & Hf & Hme).
    cbv zeta in Hk, Hn, Hf, Hme. rewrite Hw1 in Hk, Hn, Hf, Hme.
    (* the other calls: there are none *)
    assert (Hothers : ∀ x i', x ≠ t → tasks w1 !! x = Some i' →
              foreground (coro i') → x = main).
    { intros x i' Hx Hi' Hfg'.
      destruct (tasks w !! x) as [i0|] eqn:Hi0.
      - destruct (Hk x i0 Hx Hi0) as (i'' & Hi'' & Hc).
        assert (i'' = i') as -> by congruence.
        apply (Hbusy x i0 Hi0). by rewrite <- Hc.
      - by destruct (Hn x i' Hx Hi' Hi0). }
    pose proof (outcome_run_coro (coro info) (set_ready rest w)) as Hout.
    destruct (decide (t = main)) as [->|Hne].
    + (* the call takes its turn *)
      assert (info = i) as -> by congruence.
      destruct (run_coro (coro i) (set_ready rest w)) as [w2 r] eqn:Hrun.
      cbn [snd] in Hout.
      assert (Hdone : tasks w1 !! main = None →
                is_Some (finished w1 !! main) →
                finished w1 !! main = Some None →
                D.running (dispatch w1)
                = bool_decide (family (coro i) = F_start) →
                run_until_complete fuel main w1 = Some w' →
                Inv w' ∧ idle w' ∧ finished w' !! main = Some None
                ∧ D.running (dispatch w')
                  = bool_decide (family (coro i) = F_start)).
      { intros Hgone Hfin Hres Hdr Hret.
        assert (w' = w1) as ->.
        { destruct fuel; cbn [run_until_complete] in Hret;
            unfold is_finished in Hret;
            rewrite bool_decide_eq_true_2 in Hret by done; congruence. }
        split_and!; [done| |done..].
        intros x i' Hi' Hfg'.
        destruct (decide (x = main)) as [->|Hx]; [congruence|].
        by apply Hx, (Hothers x i'). }
      destruct Hfg as [Hfam|Hfam].
      * (* [stop()] *)
        pose proof (stop_returns main (coro i) _ w2 r Hts0 Hl0 Hfam Hrun)
          as Hret.
        rewrite Hfam. rewrite Hfam in Hdone.
        destruct r as [[ |k' on|k']|e]; [|..|done].
        -- destruct Hme as (Hgone & Hfin & Hd).
           apply Hdone; [done|done| |by rewrite Hd].
           rewrite <- Hw1. rewrite (step_task_eq main i) by done.
           rewrite Hrun, finished_finish. by rewrite lookup_insert_eq.
        -- destruct Hme as (i' & Hi' & Hc').
           rewrite <- Hfam, <- Hout, <- Hc'.
           apply (IH i'); [done| |done|left; congruence].
           intros x i'' Hi'' Hfg''.
           destruct (decide (x = main)); [done|]. by apply (Hothers x i'').
        -- destruct Hme as (i' & Hi' & Hc').
           rewrite <- Hfam, <- Hout, <- Hc'.
           apply (IH i'); [done| |done|left; congruence].
           intros x i'' Hi'' Hfg''.
           destruct (decide (x = main)); [done|]. by apply (Hothers x i'').
      * (* [start()] *)
        pose proof (fg_start_fresh _ (inv_life _ HInv) main i Hi Hfam) as Hc.
        rewrite Hc in Hrun, Hts0.
        destruct (start_returns main _ Hts0 Hl0) as (w2' & Hrun' & Hdr).
        rewrite Hrun' in Hrun. injection Hrun as <- <-.
        destruct Hme as (Hgone & Hfin & Hd).
        rewrite Hfam in Hdone |- *.
        apply Hdone; [done|done| |by rewrite Hd].
        rewrite <- Hw1. rewrite (step_task_eq main i) by done.
        rewrite Hc, Hrun', finished_finish. by rewrite lookup_insert_eq.
    + (* another task takes its turn *)
      destruct (Hk main i) as (i' & Hi' & Hc'); [done..|].
      rewrite <- Hc'. apply (IH i'); [done| |done|by rewrite Hc'].
      intros x i'' Hi'' Hfg''.
      destruct (decide (x = t)) as [->|Hx]; [|by apply (Hothers x i'')].
      exfalso. apply Hne.
      destruct (run_coro (coro info) (set_ready rest w)) as [w2 r].
      cbn [snd] in Hout.
      destruct r as [[ |k' on|k']|e].
      * destruct Hme as (Hgone & _). congruence.
      * destruct Hme as (j & Hj & Hcj). assert (j = i'') as -> by congruence.
        apply (Hbusy t info Hinfo). unfold foreground in *.
        by rewrite <- Hout, <- Hcj.
      * destruct Hme as (j & Hj & Hcj). assert (j = i'') as -> by congruence.
        apply (Hbusy t info Hinfo). unfold foreground in *.
        by rewrite <- Hout, <- Hcj.
      * destruct Hme as (Hgone & _). congruence.
Qed.

(* ===================================================================== *)
(** ** The states a program reaches *)
(* ===================================================================== *)

Lemma Inv_init : Inv init.
Proof.
  assert (Hobj : ∀ h, obj init h = EH.__init__ "" []).
  { intros h. cbn. by rewrite lookup_total_empty. }
  split.
  - split; cbn; try done; try apply NoDup_nil_2;
      try (intros t [? Ht]; by rewrite lookup_empty in Ht);
      try (intros t Ht; by apply elem_of_nil in Ht);
      try (intros t info Ht; by apply elem_of_nil in Ht).
  - split; cbn; try done.
    intros h k t'. rewrite lookup_total_empty. cbn. rewrite lookup_empty.
    split; [done|]. intros [_ (i & Hi & _)]. cbn in Hi.
    rewrite ?lookup_empty in Hi. done.
  - split; try done; try (intros h; rewrite Hobj; done).
    intros h _. left. by rewrite Hobj.
Qed.

Lemma idle_init : idle init.
Proof. intros x i Hi. cbn in Hi. by rewrite ?lookup_empty in Hi. Qed.

Lemma call_sync_fst {A} (m : M A) w : (call_sync m w).1 = (m w).1.
Proof. unfold call_sync. by destruct (m w) as [w' [a|e]]. Qed.

(** A call that is not a coroutine. *)
Lemma sync_rest fuel op w w' r :
  sync op = true → apply_op fuel op w = Some (w', r) →
  (Inv w → Inv w') ∧ (idle w → idle w').
Proof.
  intros Hs Hop.
  destruct op; try done; cbn [apply_op] in Hop; apply (inj Some) in Hop;
    apply (f_equal fst) in Hop; rewrite call_sync_fst in Hop;
    cbn [fst] in Hop; subst w'.
  - split; [apply Inv_register|]. apply idle_same.
    rewrite register_eq. by destruct (D._handlers (dispatch w) !! event).
  - split; [apply Inv_unregister|]. by apply idle_same.
  - pose proof (subscribe_same event callback w) as Hsame.
    split; [by apply same_life_Inv|]. apply idle_same. apply Hsame.
  - split; [apply Inv_trigger|apply idle_trigger].
  - pose proof (clear_same w) as Hsame.
    split; [by apply same_life_Inv|]. apply idle_same. apply Hsame.
Qed.

Lemma Inv_transition w w' : Inv w → transition w w' → Inv w'.
Proof.
  intros HInv [op w1 r Hidle Hs Hop|k Hidle Hk|w1 Hstep].
  - by apply (sync_rest 0 op w w1 r).
  - by apply Inv_call.
  - by eapply Inv_loop_step.
Qed.

Lemma reachable_Inv w : reachable w → Inv w.
Proof.
  unfold reachable. revert w. apply rtc_ind_r; [apply Inv_init|].
  intros y z _ Hyz IH. by eapply Inv_transition.
Qed.

Lemma run_until_complete_turns fuel main w w' :
  run_until_complete fuel main w = Some w' → rtc transition w w'.
Proof.
  revert w. induction fuel as [|fuel IH]; intros w; cbn [run_until_complete].
  - destruct (is_finished w main); [|done]. by intros [= <-].
  - destruct (is_finished w main); [by intros [= <-]|].
    destruct (loop_step w) as [w1|] eqn:Hstep; [|done]. cbn.
    intros Hrun. eapply rtc_l; [by apply transition_turn|by apply IH].
Qed.

(** A call of [start()] or [stop()] that the program waits for. *)
Lemma run_coroutine_rest fuel k w w' :
  k = K_start ∨ k = K_stop → Inv w → idle w →
  run_coroutine fuel k w = Some w' →
  rtc transition w w' ∧ Inv w' ∧ idle w'
  ∧ finished w' !! next_task w = Some None
  ∧ D.running (dispatch w') = bool_decide (family k = F_start).
Proof.
  intros Hk HInv Hidle. unfold run_coroutine.
  destruct (create_task k w) as [w1 r] eqn:Hc.
  assert (Hw1 : w1 = (create_task k w).1) by (by rewrite Hc).
  intros Hrun.
  assert (Hi : tasks w1 !! next_task w = Some (mkTaskInfo k None [])).
  { rewrite Hw1. cbn. by rewrite lookup_insert_eq. }
  destruct (run_call fuel (next_task w) (mkTaskInfo k None []) w1 w')
    as (HInv' & Hidle' & Hf & Hd);
    [rewrite Hw1; by apply Inv_call| |exact Hi| |done|].
  - intros x i. rewrite Hw1. cbn.
    destruct (decide (x = next_task w)) as [->|]; [done|].
    rewrite lookup_insert_ne by done. intros Hx Hfg.
    by destruct (Hidle x i Hx).
  - cbn. destruct Hk as [-> | ->]; [by right|by left].
  - split_and!; [|done..|].
    + eapply rtc_l; [by apply (transition_call w k)|].
      rewrite <- Hw1. by eapply run_until_complete_turns.
    + by rewrite Hd.
Qed.

Lemma apply_op_rest fuel op w w' r :
  Inv w → idle w → apply_op fuel op w = Some (w', r) →
  rtc transition w w' ∧ Inv w' ∧ idle w'.
Proof.
  intros HInv Hidle Hop.
  destruct (sync op) eqn:Hs.
  - destruct (sync_rest fuel op w w' r Hs Hop) as [H1 H2].
    split_and!; [|auto..]. apply rtc_once.
    apply (transition_sync w op w' r); [done..|].
    by destruct op.
  - destruct op; try done; cbn [apply_op] in Hop.
    + destruct (run_coroutine fuel K_start w) as [w1|] eqn:Hrun; [|done].
      cbn in Hop. injection Hop as <- _.
      destruct (run_coroutine_rest fuel K_start w w1) as (? & ? & ? & _);
        auto.
    + destruct (run_coroutine fuel K_stop w) as [w1|] eqn:Hrun; [|done].
      cbn in Hop. injection Hop as <- _.
      destruct (run_coroutine_rest fuel K_stop w w1) as (? & ? & ? & _);
        auto.
Qed.

Lemma run_program_rest fuel ops w w' rs :
  Inv w → idle w → run_program fuel ops w = Some (w', rs) →
  rtc transition w w' ∧ Inv w' ∧ idle w'.
Proof.
  revert w rs. induction ops as [|op ops IH]; intros w rs HInv Hidle.
  - cbn. by intros [= <- <-].
  - cbn [run_program].
    destruct (apply_op fuel op w) as [[w1 r]|] eqn:Hop; [|done]. cbn.
    destruct (run_program fuel ops w1) as [[w2 rs']|] eqn:Hrest; [|done].
    cbn. intros [= <- <-].
    destruct (apply_op_rest fuel op w w1 r) as (Hr1 & HInv1 & Hidle1);
      [done..|].
    destruct (IH w1 rs' HInv1 Hidle1 Hrest) as (Hr2 & ? & ?).
    split_and!; [by etrans|done..].
Qed.

(** The state a program ends in is reachable, and between calls. *)
Lemma run_program_reachable fuel ops w rs :
  run_program fuel ops init = Some (w, rs) → reachable w ∧ idle w.
Proof.
  intros Hrun.
  destruct (run_program_rest fuel ops init w rs Inv_init idle_init Hrun)
    as (? & ? & ?).
  done.
Qed.

(* ===================================================================== *)
(** ** A handler that is not running is started by [start()] only *)
(* ===================================================================== *)

#[global] Instance stays_stopped_preorder h : PreOrder (stays_stopped h).
Proof.
  split; [intros w H; exact H|intros w1 w2 w3 H1 H2 H; apply H2, H1, H].
Qed.

Lemma stays_same_heap {A} h (m : M A) :
  (∀ w, heap (m w).1 = heap w) → keeps (stays_stopped h) m.
Proof. intros H w. unfold stays_stopped. by rewrite H. Qed.

Lemma stays_run_coro h k : ¬ foreground k → keeps (stays_stopped h) (run_coro k).
Proof.
  apply R_run_coro_others; try apply _.
  - intros. by apply stays_same_heap.
  - intros. by apply stays_same_heap.
  - intros self f Hf w. unfold stays_stopped, update, modify. cbn.
    destruct (decide (h = self)) as [->|].
    + rewrite lookup_total_insert_eq. apply Hf.
    + by rewrite lookup_total_insert_ne.
  - intros ev v w. unfold stays_stopped, write_flag, modify.
    destruct ev as [| |h']; cbn; try done.
    destruct (decide (h = h')) as [->|].
    + by rewrite lookup_total_insert_eq.
    + by rewrite lookup_total_insert_ne.
  - intros p. apply stays_same_heap. intros w. by rewrite wake_eq.
  - apply stays_same_heap. intros w. unfold Dispatch.queue_get.
    by destruct (D._queue _).
  - intros. by apply stays_same_heap.
  - intros. by apply stays_same_heap.
Qed.

Lemma running_closed t r w h :
  EH.running (obj (closed t r w) h) = EH.running (obj w h).
Proof. rewrite closed_obj. by destruct (decide _). Qed.

Lemma running_finish t r w h :
  EH.running (obj (finish t r w).1 h) = EH.running (obj w h).
Proof. rewrite finish_eq, wake_eq. apply running_closed. Qed.

(** While the engine is running, a turn of the loop starts no handler. *)
Lemma stays_stopped_turn h w w' :
  Inv w → D.running (dispatch w) = true →
  loop_step w = Some w' → stays_stopped h w w'.
Proof.
  intros HInv Hrun. unfold loop_step.
  destruct (ready w) as [|t rest] eqn:Hready; [done|]. intros [= <-].
  destruct (tasks w !! t) as [info|] eqn:Hinfo.
  2:{ unfold step_task. cbn [tasks set_ready]. rewrite Hinfo.
      intros Hh. exact Hh. }
  destruct (turn_begin t rest info w HInv Hready Hinfo) as [Hts0 Hl0].
  rewrite (step_task_eq t info) by done.
  set (w0 := set_ready rest w) in *.
  assert (Hstep : stays_stopped h w0 (run_coro (coro info) w0).1).
  { destruct (decide (foreground (coro info))) as [[Hfam|Hfam]|Hnfg].
    - (* [stop()] *)
      destruct (coro info) eqn:Hco; try done; cbn [run_coro].
      + rewrite stop_eq. change (D.running (dispatch w0)) with
          (D.running (dispatch w)). rewrite Hrun. cbv zeta.
        destruct (event_set_resume_fields w0) as (Hhp & _).
        match goal with
        | |- context [Dispatch.stop_tasks ?hs ?ww] =>
            destruct (stop_tasks_eq hs ww) as (w3 & Heq & _ & Hh3 & _);
            rewrite Heq; destruct hs as [|h0 hs']
        end.
        * cbn [length seq]. unfold Dispatch.stop_handlers_done.
          rewrite M_bind_eq. unfold get at 1. cbn [fst snd].
          intros Hs. destruct (is_set _ _); rewrite M_ret_eq; cbn [fst];
            rewrite Hh3; cbn; by rewrite Hhp.
        * cbn [length seq fst]. intros Hs. rewrite Hh3. cbn.
          by rewrite Hhp.
      + unfold Dispatch.stop_handlers_done.
        rewrite M_bind_eq. unfold get at 1. cbn [fst snd].
        intros Hs. by destruct (is_set _ _).
    - (* [start()] on an engine that is running *)
      rewrite (fg_start_fresh _ (inv_life _ HInv) t info Hinfo Hfam).
      cbn [run_coro]. unfold Dispatch.start. rewrite M_bind_eq.
      unfold this at 1. cbn [fst snd].
      change (D.running (dispatch w0)) with (D.running (dispatch w)).
      by rewrite Hrun.
    - by apply stays_run_coro. }
  intros Hh. specialize (Hstep Hh).
  destruct (run_coro (coro info) w0) as [w1 r]. cbn [fst] in Hstep.
  destruct r as [[ |k' on|k']|e].
  - by rewrite running_finish.
  - by destruct (wait_over w1 on).
  - done.
  - by rewrite running_finish.
Qed.

(** The same for every step of a program. *)
Lemma stays_stopped_transition h w w' :
  Inv w → D.running (dispatch w) = true →
  transition w w' → stays_stopped h w w'.
Proof.
  intros HInv Hrun [op w1 r Hidle Hs Hop|k Hidle Hk|w1 Hstep].
  - destruct op; try done; cbn [apply_op] in Hop; apply (inj Some) in Hop;
      apply (f_equal fst) in Hop; rewrite call_sync_fst in Hop;
      cbn [fst] in Hop; subst w1; unfold stays_stopped.
    + by destruct (register_obj event params w h) as (-> & _).
    + intros Hh. exact Hh.
    + by rewrite (sl_hrunning _ _ (subscribe_same event callback w)).
    + rewrite trigger_eq. cbv zeta.
      destruct (D._resume_processing (dispatch w)); intros Hh; exact Hh.
    + by rewrite (sl_hrunning _ _ (clear_same w)).
  - intros Hh. exact Hh.
  - by apply stays_stopped_turn.
Qed.

(* ===================================================================== *)
(** ** Draining, idempotence and late registration *)
(* ===================================================================== *)



Lemma apply_op_call fuel op k w w' r :
  (op = Start ∧ k = K_start) ∨ (op = Stop ∧ k = K_stop) →
  Inv w → idle w → apply_op fuel op w = Some (w', r) →
  r = Ok tt ∧ Inv w' ∧ idle w'
  ∧ D.running (dispatch w') = bool_decide (family k = F_start).
Proof.
  intros Hop HInv Hidle Happ.
  assert (Hrun : run_coroutine fuel k w = Some w'
                 ∧ r = match finished w' !! next_task w with
                       | Some (Some e) => Raise e
                       | _ => Ok tt
                       end).
  { destruct Hop as [[-> ->]|[-> ->]]; cbn [apply_op] in Happ;
      (destruct (run_coroutine _ _ w) as [w1|]; [|done]);
      cbn in Happ; by injection Happ as <- <-. }
  destruct Hrun as [Hrun ->].
  destruct (run_coroutine_rest fuel k w w') as (_ & ? & ? & Hf & ?);
    [by destruct Hop as [[_ ->]|[_ ->]]; auto|done..|].
  by rewrite Hf.
Qed.



#[global] Instance same_dispatch_preorder : PreOrder same_dispatch.
Proof.
  split; [by intros w|].
  intros w1 w2 w3 H1 H2. unfold same_dispatch in *. congruence.
Qed.

Lemma start_handlers_dispatch hs : keeps same_dispatch (Dispatch.start_handlers hs).
Proof.
  induction hs as [|h hs IH]; simpl;
    unfold EventHandler.start, EventHandler.start_resumed,
      EventHandler.start_running, event_clear;
    repeat keeps_step; try done; by intros w.
Qed.

(** When [start()] returns the engine is running, whatever the state it
    was called in. *)
Lemma start_running_after w w1 :
  Dispatch.start w = (w1, Ok Return) → D.running (dispatch w1) = true.
Proof.
  unfold Dispatch.start. rewrite M_bind_eq. unfold this at 1.
  cbn [fst snd].
  destruct (D.running (dispatch w)) eqn:Hr; [by intros [= <-]|].
  assert (Hgo : ∀ w0, D.running (dispatch w0) = true →
            ∀ hs, Dispatch.start_handlers hs w0 = (w1, Ok Return) →
                  D.running (dispatch w1) = true).
  { intros w0 Hr0 hs Heq. pose proof (start_handlers_dispatch hs w0) as Hd.
    rewrite Heq in Hd. cbn in Hd. unfold same_dispatch in Hd. by rewrite Hd. }
  destruct (D._start_shutdown (dispatch w)).
  - destruct (D._shutdown_complete (dispatch w)); cbn [negb]; [|done].
    unfold Dispatch.start_resumed, Dispatch.start_running, event_clear,
      write_flag, update_this, modify, Dispatch.handlers_values, this.
    repeat progress (rewrite ?M_bind_eq, ?M_ret_eq; cbn [fst snd]).
    by apply Hgo.
  - unfold Dispatch.start_running, update_this, modify,
      Dispatch.handlers_values, this.
    repeat progress (rewrite ?M_bind_eq, ?M_ret_eq; cbn [fst snd]).
    by apply Hgo.
Qed.

(** When [stop()] returns in its first turn the engine is not running. *)
Lemma stop_running_after w w1 :
  Dispatch.stop w = (w1, Ok Return) → D.running (dispatch w1) = false.
Proof.
  rewrite stop_eq. destruct (D.running (dispatch w)) eqn:Hr.
  2:{ by intros [= <-]. }
  cbv zeta.
  match goal with
  | |- context [Dispatch.stop_tasks ?hs ?ww] =>
      destruct (stop_tasks_eq hs ww) as (w3 & Heq & _ & _ & Hd & _);
      rewrite Heq; destruct hs as [|h hs']
  end.
  - cbn [length seq]. unfold Dispatch.stop_handlers_done.
    rewrite M_bind_eq. unfold get at 1. cbn [fst snd].
    destruct (is_set Ev_shutdown_complete w3); [|done].
    intros [= <-]. by rewrite Hd.
  - done.
Qed.

(** C7: a call of [start()] that follows a call of [start()] which has
    returned, and a call of [stop()] that follows a call of [stop()] which
    has returned, return at once and leave the state as it is. *)
Theorem start_stop_idempotent (w : World) :
  (∀ w1, Dispatch.start w = (w1, Ok Return) →
         Dispatch.start w1 = (w1, Ok Return))
  ∧ (∀ w1, Dispatch.stop w = (w1, Ok Return) →
           Dispatch.stop w1 = (w1, Ok Return))
  ∧ (reachable w → idle w →
     (∀ fuel w1 r, apply_op fuel Start w = Some (w1, r) →
        r = Ok tt ∧ Dispatch.start w1 = (w1, Ok Return))
     ∧ (∀ fuel w1 r, apply_op fuel Stop w = Some (w1, r) →
          r = Ok tt ∧ Dispatch.stop w1 = (w1, Ok Return))).
Proof.
  assert (Hstart : ∀ w1, D.running (dispatch w1) = true →
                         Dispatch.start w1 = (w1, Ok Return)).
  { intros w1 Hr. unfold Dispatch.start. rewrite M_bind_eq.
    unfold this at 1. cbn [fst snd]. by rewrite Hr. }
  assert (Hstop : ∀ w1, D.running (dispatch w1) = false →
                        Dispatch.stop w1 = (w1, Ok Return)).
  { intros w1 Hr. unfold Dispatch.stop. rewrite M_bind_eq.
    unfold this at 1. cbn [fst snd]. by rewrite Hr. }
  split_and!.
  - intros w1 H1. by apply Hstart, (start_running_after w).
  - intros w1 H1. by apply Hstop, (stop_running_after w).
  - intros HInv%reachable_Inv Hidle. split; intros fuel w1 r Hop.
    + destruct (apply_op_call fuel Start K_start w w1 r)
        as (-> & _ & _ & Hd); [by left|done..|].
      split; [done|]. by apply Hstart.
    + destruct (apply_op_call fuel Stop K_stop w w1 r)
        as (-> & _ & _ & Hd); [by right|done..|].
      split; [done|]. by apply Hstop.
Qed.

Lemma start_stop_idempotent_witness :
  match fst <$> run_program 8 busy_program init with
  | Some w =>
      match apply_op 20 Start w, apply_op 20 Stop w with
      | Some (w1, r1), Some (w2, r2) =>
          (r1 = Ok tt ∧ Dispatch.start w1 = (w1, Ok Return))
          ∧ (r2 = Ok tt ∧ Dispatch.stop w2 = (w2, Ok Return))
      | _, _ => False
      end
  | None => False
  end.
Proof.
  assert (H : match run_program 8 busy_program init with
              | Some (w, _) =>
                  match apply_op 20 Start w, apply_op 20 Stop w with
                  | Some _, Some _ => True
                  | _, _ => False
                  end
              | None => False
              end) by (vm_compute; exact I).
  destruct (run_program 8 busy_program init) as [[w rs]|] eqn:Hrun; [|done].
  destruct (apply_op 20 Start w) as [[w1 r1]|] eqn:Hop1; [|done].
  destruct (apply_op 20 Stop w) as [[w2 r2]|] eqn:Hop2; [|done].
  destruct (run_program_reachable 8 busy_program w rs Hrun) as [Hreach Hidle].
  destruct (start_stop_idempotent w) as (_ & _ & Hprog).
  destruct (Hprog Hreach Hidle) as [Hstart Hstop].
  cbn [fmap option_fmap option_map fst]. rewrite Hop1, Hop2.
  split; [by apply (Hstart 20)|by apply (Hstop 20)].
Defined.

(** C10: in a state a program reaches with the engine running,
    [register] makes a handler that is not running; a handler that is not
    running is still not running after any step of the program; and a
    delivery to a handler that is not running raises [RuntimeError],
    makes no task and calls nothing. *)
Theorem late_handler_not_running (w : World) :
  reachable w → D.running (dispatch w) = true →
  (∀ event params, D._handlers (dispatch w) !! event = None →
     ∃ h w1, Dispatch.register event params w = (w1, Ok tt)
             ∧ D._handlers (dispatch w1) !! event = Some h
             ∧ obj w1 h = EH.__init__ event params
             ∧ EH.running (obj w1 h) = false
             ∧ D.running (dispatch w1) = true)
  ∧ (∀ h w', EH.running (obj w h) = false → transition w w' →
             EH.running (obj w' h) = false)
  ∧ (∀ h event params q,
       EH.running (obj w h) = false →
       D._handlers (dispatch w) !! event = Some h →
       D._queue (dispatch w) = (event, params) :: q →
       EventHandler.__call__ h params w = (w, Raise RuntimeError)
       ∧ ∃ w', Dispatch._run_deliver w = (w', Raise RuntimeError)
               ∧ tasks w' = tasks w ∧ calls w' = calls w
               ∧ heap w' = heap w).
Proof.
  intros HInv%reachable_Inv Hrun. split_and!.
  - intros event params Hnone. rewrite register_eq, Hnone. cbv zeta.
    eexists _, _. split; [done|]. cbn.
    rewrite lookup_insert_eq, lookup_total_insert_eq. done.
  - intros h w' Hh Htr. by apply (stays_stopped_transition h w w').
  - intros h event params q Hh He Hq.
    assert (Hcall : ∀ w0, heap w0 = heap w →
              EventHandler.__call__ h params w0 = (w0, Raise RuntimeError)).
    { intros w0 Hhp. rewrite call_eq, Hhp. by rewrite Hh. }
    split; [by apply Hcall|].
    unfold Dispatch._run_deliver, Dispatch.queue_get.
    rewrite M_bind_eq, Hq. cbn [fst snd].
    unfold modify, this.
    repeat progress (rewrite ?M_bind_eq, ?M_ret_eq; cbn [fst snd]).
    cbn [dispatch set_routed set_dispatch D._handlers D.set_queue].
    rewrite He, Hcall by done. eexists. split; [done|]. done.
Qed.

Lemma late_handler_not_running_witness :
  match fst <$> run_program 8 [Register "a" []; Start] init with
  | Some w =>
      ∃ w1, Dispatch.register "b" ["x"] w = (w1, Ok tt)
            ∧ D._handlers (dispatch w1) !! "b" = Some 1
            ∧ EH.running (obj w1 1) = false
            ∧ EventHandler.__call__ 1 ∅ w1 = (w1, Raise RuntimeError)
  | None => False
  end.
Proof.
  assert (H : match run_program 8 [Register "a" []; Start] init with
              | Some (w, _) =>
                  D.running (dispatch w) = true
                  ∧ D._handlers (dispatch w) !! "b" = None
                  ∧ fresh (dom (heap w)) = 1
              | None => False
              end) by (vm_compute; done).
  destruct (run_program 8 [Register "a" []; Start] init) as [[w rs]|] eqn:Hp;
    [|done].
  destruct H as (Hrun & Hnone & Hfresh).
  destruct (run_program_reachable 8 _ w rs Hp) as [Hreach Hidle].
  destruct (late_handler_not_running w Hreach Hrun) as (Hreg & _ & _).
  destruct (Hreg "b" ["x"] Hnone) as (h & w1 & Heq & Hh & Hobj & Hnr & Hr1).
  cbn [fmap option_fmap option_map fst]. exists w1.
  assert (h = 1) as ->.
  { rewrite register_eq, Hnone in Heq. cbv zeta in Heq.
    injection Heq as <-. cbn in Hh. rewrite lookup_insert_eq in Hh.
    congruence. }
  split_and!; [done..|]. rewrite call_eq. by rewrite Hnr.
Defined.

Lemma deliveries_are_routed_in_trigger_order_witness :
  match fst <$> run_program 8 [Register "e" ["x"]; Subscribe "e" (slow 5);
                               Start] init with
  | Some w =>
      match turns 1 (trigger_all three_deliveries w) with
      | Some w' =>
          routed w' = three_deliveries
          ∧ ∃ k, routed w'
                 = (routed w
                    ++ take k (D._queue (dispatch w) ++ three_deliveries))%list
                 ∧ D._queue (dispatch w')
                   = drop k (D._queue (dispatch w) ++ three_deliveries)%list
      | None => False
      end
  | None => False
  end.
Proof.
  assert (H : match fst <$> run_program 8 [Register "e" ["x"];
                                           Subscribe "e" (slow 5);
                                           Start] init with
              | Some w =>
                  match turns 1 (trigger_all three_deliveries w) with
                  | Some w' => routed w' = three_deliveries
                  | None => False
                  end
              | None => False
              end) by (vm_compute; reflexivity).
  destruct (fst <$> run_program 8 _ init) as [w|]; [|done].
  destruct (turns 1 (trigger_all three_deliveries w)) as [w'|] eqn:Hturns;
    [|done].
  split; [exact H|].
  exact (deliveries_are_routed_in_trigger_order three_deliveries 1 w w' Hturns).
Defined.
